(** * Norton Ebook Auto-Solver: a shallow embedding of content.js, background.js,
    options.js and shadow-patch.js

    Definitions, in the order of the file:
    - [JsText]: the string and regular-expression primitives the scripts use
      (toLowerCase, toUpperCase, trim, includes, and the tests of the literal
      patterns of isQuestionComplete);
    - [Dom]: the document as the content script reads it: looking down,
      deepFind, deepFindByText and tryDismissLocal; looking up, the walk of
      isQuestionComplete;
    - [Background]: the askAI handler from the parsed body to the response
      sent, and the dismissModal relay;
    - [Program]: scripts as trees of the calls they await, run against an
      environment that answers the calls;
    - [Solver]: dismissFeedbackModal with the relay across frames, askAI and
      solveOneQuestion;
    - [Scenario]: small pages to run the scripts on;
    - [Readings]: what a trace shows of clicks, requests, questions asked;
    - [Grouping]: groupByName, with the key order of a JavaScript object;
    - [Orchestrator]: solveInThisFrame as a script over the page;
    - [Patterns], [CheckAnswer]: findCheckAnswerBtn and clickCheckAnswer;
    - [ModalWords]: visible and matching controls in the words of the
      specification;
    - [Navigation]: navigateNext and its timer callbacks;
    - [Messaging]: requestNavigateNext, onButtonClick, the listeners of the
      content script and the relays of the worker;
    - [EventLoop]: passes of solveInThisFrame interleaved at their awaits;
    - [Prompt]: the prompt the worker builds;
    - [QuestionText], [OptionLabel]: getQuestionText and getLabel;
    - [Options], [ShadowPatch]: options.js and shadow-patch.js;
    - [Worker]: the askAI handler from the stored key to the response.
    The properties follow, component by component.

    Text is modelled as [string], a character standing for the code unit of
    the same number: the texts of the model are the texts of code units below
    256. On these, white space (the no-break space included), toLowerCase(),
    trim() and the patterns are those of JavaScript. toUpperCase() is that of
    JavaScript on ASCII text; the scripts use it only in front of a filter
    that keeps the letters A-F, and no other code unit below 256 becomes one
    of these.
    Numbers that index options are integers or NaN. Elements are compared by
    their content. Console logging is left out. *)

From Stdlib Require Import ZArith List String Ascii Bool Lia Sorted Permutation
  DecimalString.
Import ListNotations.
Local Open Scope Z_scope.
Local Open Scope list_scope.
#[local] Set Warnings "-register-all".

(* ------------------------------------------------------------------------- *)
(** ** Text primitives *)

Module JsText.

Definition code (c : ascii) : N := N_of_ascii c.

Definition isUpper (c : ascii) : bool := (65 <=? code c)%N && (code c <=? 90)%N.
Definition isLower (c : ascii) : bool := (97 <=? code c)%N && (code c <=? 122)%N.
Definition isDigit (c : ascii) : bool := (48 <=? code c)%N && (code c <=? 57)%N.

(** \w of a pattern without the u flag: [A-Za-z0-9_]. *)
Definition isWordChar (c : ascii) : bool :=
  isUpper c || isLower c || isDigit c || (code c =? 95)%N.

(** WhiteSpace and LineTerminator below 256: TAB, LF, VT, FF, CR, SP and the
    no-break space U+00A0. This is the class \s of a pattern and what trim()
    removes. *)
Definition isSpace (c : ascii) : bool :=
  ((9 <=? code c)%N && (code c <=? 13)%N) || (code c =? 32)%N || (code c =? 160)%N.

(** The capital letters below 256 beside A-Z: U+00C0 to U+00DE without the
    multiplication sign U+00D7. *)
Definition isUpperLatin (c : ascii) : bool :=
  (192 <=? code c)%N && (code c <=? 222)%N && negb (code c =? 215)%N.

(** toLowerCase() of one code unit below 256: the small letter lies 32 above
    the capital. *)
Definition lowerChar (c : ascii) : ascii :=
  if isUpper c || isUpperLatin c then ascii_of_N (code c + 32) else c.

(** toUpperCase() of one ASCII code unit. The scripts upper-case only in front
    of the filter /[^A-F]/g, where nothing but the letters a-f matters; the
    other code units are left as they are. *)
Definition upperChar (c : ascii) : ascii :=
  if isLower c then ascii_of_N (code c - 32) else c.

Fixpoint smap (f : ascii -> ascii) (s : string) : string :=
  match s with
  | EmptyString => EmptyString
  | String c r => String (f c) (smap f r)
  end.

Definition toLowerCase : string -> string := smap lowerChar.
Definition toUpperCase : string -> string := smap upperChar.

Fixpoint trimStart (s : string) : string :=
  match s with
  | String c r => if isSpace c then trimStart r else s
  | EmptyString => EmptyString
  end.

(** Drops the trailing white space: a character is kept when it is not white
    space or when something is kept after it. *)
Fixpoint trimEnd (s : string) : string :=
  match s with
  | EmptyString => EmptyString
  | String c r =>
      match trimEnd r with
      | EmptyString => if isSpace c then EmptyString else String c EmptyString
      | r' => String c r'
      end
  end.

Definition trim (s : string) : string := trimEnd (trimStart s).

Fixpoint startsWith (p s : string) : bool :=
  match p, s with
  | EmptyString, _ => true
  | String a p', String b s' => Ascii.eqb a b && startsWith p' s'
  | String _ _, EmptyString => false
  end.

(** String.prototype.includes *)
Fixpoint includes (s p : string) : bool :=
  startsWith p s ||
  match s with
  | EmptyString => false
  | String _ r => includes r p
  end.

(** /p/i.test(t) for a literal pattern p of characters below 128: a character
    of the text matches a letter of the pattern when it is that letter in
    either case; lower-casing both sides says the same, the small letters
    above 128 being no characters of the pattern. *)
Definition testLiteralI (p t : string) : bool :=
  includes (toLowerCase t) (toLowerCase p).

(** What is left of the subject after a literal match of [p] at its start. *)
Fixpoint afterPrefix (p s : string) : option string :=
  match p, s with
  | EmptyString, _ => Some s
  | String a p', String b s' => if Ascii.eqb a b then afterPrefix p' s' else None
  | String _ _, EmptyString => None
  end.

Definition headIsWord (s : string) : bool :=
  match s with
  | String c _ => isWordChar c
  | EmptyString => false
  end.

(** \b between a preceding character (none at the start) and the rest. *)
Definition boundary (prev : option ascii) (rest : string) : bool :=
  xorb (match prev with Some c => isWordChar c | None => false end) (headIsWord rest).

(** A match of \bp\b starting exactly here, [prev] being the character before. *)
Definition wordMatchHere (p : string) (prev : option ascii) (s : string) : bool :=
  boundary prev s &&
  match afterPrefix p s with
  | Some rest => boundary (match p with
                           | EmptyString => prev
                           | _ => Some (last (list_ascii_of_string p) "000"%char)
                           end) rest
  | None => false
  end.

Fixpoint wordSearch (p : string) (prev : option ascii) (s : string) : bool :=
  wordMatchHere p prev s ||
  match s with
  | EmptyString => false
  | String c r => wordSearch p (Some c) r
  end.

(** The character before the end of [s], [prev] being the one before [s]. *)
Fixpoint lastChar (prev : option ascii) (s : string) : option ascii :=
  match s with
  | EmptyString => prev
  | String c r => lastChar (Some c) r
  end.

Definition isWord (c : option ascii) : bool :=
  match c with Some a => isWordChar a | None => false end.

(** /\bp\b/i.test(t): the subject and the pattern are folded first; folding
    maps word characters to word characters, so the boundaries are unchanged. *)
Definition testWordI (p t : string) : bool :=
  wordSearch (toLowerCase p) None (toLowerCase t).

End JsText.

(* ------------------------------------------------------------------------- *)
(** ** Outcomes of the scripts' calls *)

(** A call either returns a value or throws. *)
Inductive Completion (A : Type) : Type :=
| Normal (a : A)
| Abrupt.
Arguments Normal {A} a.
Arguments Abrupt {A}.

(** "correct" | "wrong" | "unknown" *)
Inductive ModalOutcome : Type := correct | wrong | unknown.

(* ------------------------------------------------------------------------- *)
(** ** The page as the content script reads it *)

Module Dom.
Import JsText.

(** *** Looking down: documents, shadow trees, deepFind *)

(** Reading offsetWidth or offsetHeight gives a number of pixels or throws. *)
Inductive Reading : Type := Px (n : Z) | Raises.

Inductive Node : Type :=
| Text (data : string)
| Elem (localName : string) (classList : list string) (ariaLabel : option string)
       (offsetWidth offsetHeight : Reading)
       (childNodes : list Node) (shadowRoot : option (list Node)).

(** A Document or a ShadowRoot: the list of its child nodes. *)
Definition Root : Type := list Node.

Definition isElement (n : Node) : bool :=
  match n with Elem _ _ _ _ _ _ _ => true | Text _ => false end.
Definition localName (n : Node) : string :=
  match n with Elem t _ _ _ _ _ _ => t | Text _ => EmptyString end.
Definition classList (n : Node) : list string :=
  match n with Elem _ c _ _ _ _ _ => c | Text _ => [] end.
Definition ariaLabel (n : Node) : option string :=
  match n with Elem _ _ a _ _ _ _ => a | Text _ => None end.
Definition offsetWidth (n : Node) : Reading :=
  match n with Elem _ _ _ w _ _ _ => w | Text _ => Px 0 end.
Definition offsetHeight (n : Node) : Reading :=
  match n with Elem _ _ _ _ h _ _ => h | Text _ => Px 0 end.
Definition childNodes (n : Node) : list Node :=
  match n with Elem _ _ _ _ _ k _ => k | Text _ => [] end.
Definition shadowRoot (n : Node) : option Root :=
  match n with Elem _ _ _ _ _ _ s => s | Text _ => None end.

(** Node.textContent: the text of the light tree below the node. *)
Fixpoint textContent (n : Node) : string :=
  match n with
  | Text d => d
  | Elem _ _ _ _ _ kids _ =>
      fold_right String.append EmptyString (map textContent kids)
  end.

(** The selectors the script passes to querySelector(All). *)
Inductive Selector : Type :=
| SelAll                          (* "*" *)
| SelTag (name : string)          (* "button" *)
| SelClass (name : string)        (* ".question-frame__feedback__close-btn" *)
| SelAriaLabel (value : string).  (* `[aria-label="${label}"]` *)

Definition matches (sel : Selector) (n : Node) : bool :=
  isElement n &&
  match sel with
  | SelAll => true
  | SelTag t => String.eqb (localName n) t
  | SelClass c => existsb (String.eqb c) (classList n)
  | SelAriaLabel v =>
      match ariaLabel n with Some a => String.eqb a v | None => false end
  end.

(** The elements of the light tree of a node, itself first, in document order. *)
Fixpoint lightElements (n : Node) : list Node :=
  match n with
  | Text _ => []
  | Elem _ _ _ _ _ kids _ => n :: flat_map lightElements kids
  end.

Definition querySelectorAll (root : Root) (sel : Selector) : list Node :=
  filter (matches sel) (flat_map lightElements root).

Definition querySelector (root : Root) (sel : Selector) : option Node :=
  head (querySelectorAll root sel).

(** For a node, what the loop of deepFind appends while it runs over the
    elements of the node's light tree: the deepFind of each shadow root met. *)
Fixpoint shadowFinds (sel : Selector) (n : Node) : list Node :=
  match n with
  | Text _ => []
  | Elem _ _ _ _ _ kids sr =>
      match sr with
      | Some s =>
          filter (matches sel) (flat_map lightElements s)
            ++ flat_map (shadowFinds sel) s
      | None => []
      end ++ flat_map (shadowFinds sel) kids
  end.

(** deepFind(root, selector), content.js:33. The recursion into shadow roots is
    structural through [shadowFinds]; [deepFind_unfold] below gives the
    equation in the shape of the source. *)
Definition deepFind (root : Root) (sel : Selector) : list Node :=
  querySelectorAll root sel ++ flat_map (shadowFinds sel) root.

(** What deepFind finds in the shadow root of one element, if it has one. *)
Definition inShadowOf (sel : Selector) (el : Node) : list Node :=
  match shadowRoot el with
  | Some sr => deepFind sr sel
  | None => []
  end.

(** What deepFind yields below one node of its root. *)
Definition foundBelow (sel : Selector) (n : Node) : list Node :=
  filter (matches sel) (lightElements n) ++ shadowFinds sel n.

(** [Contains n el]: [el] is [n] or lies below it, through child nodes and
    shadow roots alike. *)
Inductive Contains : Node -> Node -> Prop :=
| contains_self n : Contains n n
| contains_child n k el :
    In k (childNodes n) -> Contains k el -> Contains n el
| contains_shadow n s k el :
    shadowRoot n = Some s -> In k s -> Contains k el -> Contains n el.

(** [el] occurs in the tree of [root], whatever the nesting of shadow trees. *)
Definition InDeep (root : Root) (el : Node) : Prop :=
  exists n, In n root /\ Contains n el.

(** Induction over a node, its child nodes and the nodes of its shadow root. *)
Section NodeInduction.
Variable P : Node -> Prop.
Hypothesis onText : forall d, P (Text d).
Hypothesis onElem : forall t c a w h kids sr,
  Forall P kids ->
  match sr with Some s => Forall P s | None => True end ->
  P (Elem t c a w h kids sr).

Fixpoint Node_nested_ind (n : Node) : P n :=
  match n with
  | Text d => onText d
  | Elem t c a w h kids sr =>
      let all := fix all (l : list Node) : Forall P l :=
        match l with
        | [] => Forall_nil P
        | x :: r => Forall_cons x (Node_nested_ind x) (all r)
        end in
      onElem t c a w h kids sr (all kids)
        (match sr as o return match o with Some s => Forall P s | None => True end with
         | Some s => all s
         | None => I
         end)
  end.
End NodeInduction.

(** el.textContent.trim().toLowerCase().includes(text.toLowerCase()) *)
Definition mentions (text : string) (el : Node) : bool :=
  includes (toLowerCase (trim (textContent el))) (toLowerCase text).

(** deepFindByText(root, tag, text), content.js:41 *)
Definition deepFindByText (root : Root) (tag text : string) : list Node :=
  filter (mentions text) (deepFind root (SelTag tag)).

(** *** tryDismissLocal, content.js:252 *)

(** try { return b.offsetWidth > 0 && b.offsetHeight > 0; } catch (_) { return true; } *)
Definition visibleWH (b : Node) : bool :=
  match offsetWidth b with
  | Raises => true
  | Px w =>
      if 0 <? w
      then match offsetHeight b with Raises => true | Px h => 0 <? h end
      else false
  end.

(** try { return e.offsetWidth > 0; } catch (_) { return true; } *)
Definition visibleW (e : Node) : bool :=
  match offsetWidth e with
  | Raises => true
  | Px w => 0 <? w
  end.

(** for (const kw of kws) { ... if (visible.length > 0) ... visible[0] ... } *)
Fixpoint firstVisibleButton (document : Root) (kws : list string) : option Node :=
  match kws with
  | [] => None
  | kw :: rest =>
      match filter visibleWH (deepFindByText document "button" kw) with
      | b :: _ => Some b
      | [] => firstVisibleButton document rest
      end
  end.

Fixpoint firstVisibleLabelled (document : Root) (labels : list string) : option Node :=
  match labels with
  | [] => None
  | label :: rest =>
      match filter visibleW (deepFind document (SelAriaLabel label)) with
      | e :: _ => Some e
      | [] => firstVisibleLabelled document rest
      end
  end.

Definition wrongKeywords : list string := ["try again"; "retry"]%string.
Definition correctKeywords : list string :=
  ["finish"; "ok"; "done"; "continue"; "got it"]%string.
Definition closeBtnClass : string := "question-frame__feedback__close-btn".
Definition closeLabels : list string := ["Close"; "close"; "Dismiss"]%string.

(** What one call of tryDismissLocal does: the element it clicks, if any, and
    what it returns ([None] for null) or that it throws. *)
Record Dismissal : Type := mkDismissal {
  clicked : option Node;
  returned : Completion (option ModalOutcome)
}.

Definition dismissAs (el : Node) (o : ModalOutcome) : Dismissal :=
  mkDismissal (Some el) (Normal (Some o)).

Definition tryAriaClose (document : Root) : Dismissal :=
  match firstVisibleLabelled document closeLabels with
  | Some e => dismissAs e correct
  | None => mkDismissal None (Normal None)
  end.

Definition tryCloseBtn (document : Root) : Dismissal :=
  match querySelector document (SelClass closeBtnClass) with
  | Some closeBtn =>
      match offsetWidth closeBtn with
      | Raises => mkDismissal None Abrupt
      | Px w => if 0 <? w then dismissAs closeBtn correct else tryAriaClose document
      end
  | None => tryAriaClose document
  end.

Definition tryDismissLocal (document : Root) : Dismissal :=
  match firstVisibleButton document wrongKeywords with
  | Some b => dismissAs b wrong
  | None =>
      match firstVisibleButton document correctKeywords with
      | Some b => dismissAs b correct
      | None => tryCloseBtn document
      end
  end.

(** A button somewhere in the document, shadow trees included, whose text
    mentions one of the keywords and which the visibility test of the keyword
    steps lets through. *)
Definition VisibleButton (document : Root) (kws : list string) (b : Node) : Prop :=
  InDeep document b
  /\ matches (SelTag "button") b = true
  /\ (exists kw, In kw kws /\ mentions kw b = true)
  /\ visibleWH b = true.

(** *** Looking up: what isQuestionComplete reads of an option control *)

(** An element with its ancestors: [rootHost] is the host of the shadow root
    returned by getRootNode(), when that root is a shadow root. *)
Inductive Element : Type :=
  mkElement (elText : string) (disabled : bool)
            (parentElement : option Element) (rootHost : option Element).

Definition elText (e : Element) : string :=
  match e with mkElement t _ _ _ => t end.
Definition disabled (e : Element) : bool :=
  match e with mkElement _ d _ _ => d end.
Definition parentElement (e : Element) : option Element :=
  match e with mkElement _ _ p _ => p end.
Definition rootHost (e : Element) : option Element :=
  match e with mkElement _ _ _ h => h end.

(** const node = (root instanceof ShadowRoot) ? root.host : el; *)
Definition inspected (el : Element) : Element :=
  match rootHost el with Some host => host | None => el end.

(** if (root instanceof ShadowRoot) el = root.host; else el = el.parentElement; *)
Definition stepUp (el : Element) : option Element :=
  match rootHost el with Some host => Some host | None => parentElement el end.

(** The verdict of one iteration of the loop of isQuestionComplete on the text
    of the inspected node: [Some b] is "return b". *)
Definition verdict (t : string) : option bool :=
  if testLiteralI "Check Your Understanding" t then
    if testLiteralI "INCOMPLETE" t then Some false
    else if testWordI "COMPLETE" t then Some true
    else None
  else None.

(** for (let i = 0; i < 20 && el; i++) { ... }, with [hops] iterations left. *)
Fixpoint walkUp (hops : nat) (el : option Element) : option bool :=
  match hops, el with
  | S hops', Some e =>
      match verdict (elText (inspected e)) with
      | Some b => Some b
      | None => walkUp hops' (stepUp e)
      end
  | _, _ => None
  end.

(** The nodes the loop inspects, in order. *)
Fixpoint walkNodes (hops : nat) (el : option Element) : list Element :=
  match hops, el with
  | S hops', Some e => inspected e :: walkNodes hops' (stepUp e)
  | _, _ => []
  end.

(** A node whose text makes the loop return. *)
Definition decisive (node : Element) : bool :=
  match verdict (elText node) with Some _ => true | None => false end.

(** isQuestionComplete(radios), content.js:110 *)
Definition isQuestionComplete (radios : list Element) : bool :=
  match walkUp 20 (head radios) with
  | Some b => b
  | None => forallb disabled radios
  end.

End Dom.

(* ------------------------------------------------------------------------- *)
(** ** Extension messaging *)

(** What the callback of chrome.runtime.sendMessage or chrome.tabs.sendMessage
    finds: chrome.runtime.lastError set, or the response passed to
    sendResponse. *)
Inductive Callback (A : Type) : Type :=
| LastError
| Delivered (res : A).
Arguments LastError {A}.
Arguments Delivered {A} res.

(** { result: "correct" | "wrong" | "unknown" } *)
Record DismissReply : Type := mkDismissReply { result : ModalOutcome }.

(** Numbers as far as index arithmetic goes: integers and NaN. *)
Inductive JsNumber : Type := NaN | Num (z : Z).

(** The response to an askAI message: { index, raw } or { error }; an absent
    field is [None]. *)
Record AskReply : Type := mkAskReply {
  reply_error : option string;
  reply_index : option JsNumber;
  reply_raw : option string
}.

(* ------------------------------------------------------------------------- *)
(** ** background.js *)

Module Background.
Import JsText.
Local Open Scope string_scope.

(** The value of res.json(). Of a number only its being a number matters. *)
Inductive Json : Type :=
| JNull
| JBool (b : bool)
| JNum (z : Z)
| JStr (s : string)
| JArr (items : list Json)
| JObj (fields : list (string * Json)).

(** A JavaScript value read out of it: [None] is undefined. *)
Definition JsValue : Type := option Json.

(** The own properties of a parsed object, keys distinct. *)
Fixpoint lookup (key : string) (fields : list (string * Json)) : JsValue :=
  match fields with
  | [] => None
  | (k, v) :: rest => if String.eqb k key then Some v else lookup key rest
  end.

(** o.choices, o.message, o.content on a value that is neither null nor
    undefined: only objects carry such a property. *)
Definition getNamed (key : string) (o : Json) : JsValue :=
  match o with
  | JObj fields => lookup key fields
  | _ => None
  end.

(** o[0] *)
Definition getFirst (o : Json) : JsValue :=
  match o with
  | JArr items => head items
  | JObj fields => lookup "0" fields
  | JStr (String c _) => Some (JStr (String c EmptyString))
  | _ => None
  end.

(** One link a?.b of an optional chain: undefined when a is null or undefined. *)
Definition optional (a : JsValue) (get : Json -> JsValue) : JsValue :=
  match a with
  | None | Some JNull => None
  | Some o => get o
  end.

(** data.choices?.[0]?.message?.content *)
Definition contentOf (data : Json) : Completion JsValue :=
  match data with
  | JNull => Abrupt   (* reading a property of null throws *)
  | _ =>
      Normal (optional (optional (optional (getNamed "choices" data) getFirst)
                                 (getNamed "message"))
                       (getNamed "content"))
  end.

(** const raw = data.choices?.[0]?.message?.content?.trim() ?? ""; *)
Definition rawOf (data : Json) : Completion string :=
  match contentOf data with
  | Abrupt => Abrupt
  | Normal None | Normal (Some JNull) => Normal ""
  | Normal (Some (JStr s)) => Normal (trim s)
  | Normal (Some _) => Abrupt   (* .trim is not a function *)
  end.

(** The content the optional chain reaches can be trimmed: it is absent, null
    or a string. *)
Definition contentIsText (data : Json) : bool :=
  match contentOf data with
  | Normal None | Normal (Some JNull) | Normal (Some (JStr _)) => true
  | _ => false
  end.

Definition letters : list string := ["A"; "B"; "C"; "D"; "E"; "F"].

(** Array.prototype.indexOf, counting from [from]. *)
Fixpoint indexOfFrom (from : Z) (l : list string) (x : string) : Z :=
  match l with
  | [] => -1
  | y :: rest => if String.eqb y x then from else indexOfFrom (from + 1) rest x
  end.
Definition indexOf (l : list string) (x : string) : Z := indexOfFrom 0 l x.

(** s.replace(/[^A-F]/g, "") *)
Fixpoint keepAF (s : string) : string :=
  match s with
  | EmptyString => EmptyString
  | String c r =>
      if (65 <=? code c)%N && (code c <=? 70)%N then String c (keepAF r) else keepAF r
  end.

(** s.charAt(0) *)
Definition charAt0 (s : string) : string :=
  match s with
  | String c _ => String c EmptyString
  | EmptyString => EmptyString
  end.

(** background.js:64-65 *)
Definition letterIdx (raw : string) : Z :=
  indexOf letters (charAt0 (keepAF (toUpperCase raw))).
Definition indexOfRaw (raw : string) : Z :=
  let i := letterIdx raw in if (0 <=? i)%Z then i else 0.

(** The mapping in the words of its description: the first character of the
    upper-cased text that is one of A..F, by its position in A..F, and 0 when
    there is none. *)
Fixpoint firstAF (s : string) : option ascii :=
  match s with
  | EmptyString => None
  | String c r =>
      if (65 <=? code c)%N && (code c <=? 70)%N then Some c else firstAF r
  end.

Definition firstLetterIndex (raw : string) : Z :=
  match firstAF (toUpperCase raw) with
  | Some c => Z.of_N (code c) - 65
  | None => 0
  end.

(** What the handler passes to sendResponse once res.ok held: lines 60-67 inside
    the try, any throw ending in sendResponse({ error: e.message }). *)
Inductive Sent : Type :=
| SentIndex (index : Z) (raw : string)
| SentError.

Definition askAI_respond (data : Json) : Sent :=
  match rawOf data with
  | Normal raw => SentIndex (indexOfRaw raw) raw
  | Abrupt => SentError
  end.

(** The dismissModal relay, background.js:109-122. [tabId] is sender.tab?.id;
    [sendToTop] makes the request to frame 0 and gives what the callback of
    chrome.tabs.sendMessage finds, [fromTop]. *)
Definition relay_callback (fromTop : Callback (option DismissReply)) : DismissReply :=
  match fromTop with
  | LastError => mkDismissReply unknown
  | Delivered (Some res) => res
  | Delivered None => mkDismissReply unknown
  end.

Definition falsyTabId (tabId : option Z) : bool :=
  match tabId with
  | None => true
  | Some id => (id =? 0)%Z
  end.

Definition relayDismissModal (tabId : option Z)
    (sendToTop : unit -> Callback (option DismissReply)) : DismissReply :=
  if falsyTabId tabId then mkDismissReply unknown
  else relay_callback (sendToTop tt).

End Background.

(* ------------------------------------------------------------------------- *)
(** ** Programs over awaited calls *)

Module Program.

Section Prog.
Context {E : Type -> Type}.

(** A script as the tree of the calls it makes: it returns, throws, or makes
    a call of [E] and goes on with the answer. *)
Inductive Prog (A : Type) : Type :=
| Ret (a : A)
| Throw
| Vis {X : Type} (e : E X) (k : X -> Prog A).

Arguments Ret {A} a.
Arguments Throw {A}.
Arguments Vis {A X} e k.

Fixpoint bind {A B : Type} (p : Prog A) (f : A -> Prog B) : Prog B :=
  match p with
  | Ret a => f a
  | Throw => Throw
  | Vis e k => Vis e (fun x => bind (k x) f)
  end.

(** One call with its answer. *)
Inductive Event : Type :=
| Ev {X : Type} (e : E X) (answer : X).

(** The environment: how each call is answered and what it does to the
    world [W]. *)
Definition Handler (W : Type) : Type := forall X, E X -> W -> X * W.

Record Run (W A : Type) : Type := mkRun {
  outcome : Completion A;
  world : W;
  trace : list Event
}.
Arguments mkRun {W A} outcome world trace.
Arguments outcome {W A} r.
Arguments world {W A} r.
Arguments trace {W A} r.

Definition after {W A} (ev : Event) (r : Run W A) : Run W A :=
  mkRun (outcome r) (world r) (ev :: trace r).

Fixpoint run {W A : Type} (h : Handler W) (p : Prog A) (w : W) : Run W A :=
  match p with
  | Ret a => mkRun (Normal a) w []
  | Throw => mkRun Abrupt w []
  | Vis e k =>
      let xw := h _ e w in
      after (Ev e (fst xw)) (run h (k (fst xw)) (snd xw))
  end.
End Prog.

Arguments Prog E A : clear implicits.
Arguments Event E : clear implicits.
Arguments Handler E W : clear implicits.
Arguments Run E W A : clear implicits.
Arguments Ret {E A} a.
Arguments Throw {E A}.
Arguments Vis {E A X} e k.
Arguments mkRun {E W A} outcome world trace.
Arguments outcome {E W A} r.
Arguments world {E W A} r.
Arguments trace {E W A} r.

Notation "x <- e ;; k" := (Vis e (fun x => k))
  (at level 61, e at next level, right associativity).
Notation "'await' e ;; k" := (Vis e (fun _ => k))
  (at level 61, e at next level, right associativity).

End Program.

(* ------------------------------------------------------------------------- *)
(** ** content.js: modal resolution across frames, askAI, solveOneQuestion *)

Module Solver.
Import Program Dom.

(** *** dismissFeedbackModal and the calls it makes *)

Inductive Prim : Type -> Type :=
| sleep (ms : Z) : Prim unit
| readDocument : Prim Root                 (* the frame's DOM when tryDismissLocal runs *)
| nativeClick (el : Node) : Prim unit
| sendDismissModal : Prim (Completion (Callback (option DismissReply))).
                                           (* chrome.runtime.sendMessage({ type: "dismissModal" }, cb):
                                              what cb finds, or the throw of the call itself *)

(** tryDismissLocal() run against the live document. *)
Definition tryDismissLocalNow : Prog Prim (option ModalOutcome) :=
  document <- readDocument;;
  let d := tryDismissLocal document in
  let finish :=
    match returned d with
    | Normal r => Ret r
    | Abrupt => Throw
    end in
  match clicked d with
  | Some el => await nativeClick el;; finish
  | None => finish
  end.

(** The callback of content.js:314-317. *)
Definition dismissModal_callback (cb : Callback (option DismissReply)) : ModalOutcome :=
  match cb with
  | LastError => unknown
  | Delivered (Some res) => result res
  | Delivered None => unknown
  end.

(** dismissFeedbackModal(), content.js:300, in a frame where window === window.top
    is [isTop]. *)
Definition dismissFeedbackModal (isTop : bool) : Prog Prim ModalOutcome :=
  await sleep 1800;;
  bind tryDismissLocalNow (fun localResult =>
    match localResult with
    | Some r => await sleep 1000;; Ret r
    | None =>
        if negb isTop then
          sent <- sendDismissModal;;
          match sent with
          | Abrupt => Throw   (* the executor throws: the promise awaited is rejected *)
          | Normal cb =>
              let result := dismissModal_callback cb in
              await sleep 1500;;
              Ret result
          end
        else Ret unknown
    end).

(** The listener of the top frame for "dismissModal", content.js:467-473: the
    element it clicks and the response it sends; a throw of tryDismissLocal
    leaves the message without response. *)
Definition onDismissModal (document : Root) : option Node * option DismissReply :=
  let d := tryDismissLocal document in
  (clicked d,
   match returned d with
   | Normal (Some r) => Some (mkDismissReply r)
   | Normal None => Some (mkDismissReply unknown)
   | Abrupt => None
   end).

(** The transport between the frames and the service worker: whether each
    port delivers, and the tab the sender is reported in. *)
Record Network : Type := mkNetwork {
  runtimePort : bool;          (* nested frame <-> service worker *)
  senderTabId : option Z;      (* sender.tab?.id *)
  topPort : bool               (* service worker <-> frame 0 *)
}.

(** chrome.tabs.sendMessage(tabId, msg, { frameId: 0 }, cb): the callback finds
    lastError when the port fails or closes without a response. *)
Definition tabsSendMessage (net : Network) (topDocument : Root)
  : Callback (option DismissReply) :=
  if topPort net then
    match snd (onDismissModal topDocument) with
    | Some res => Delivered (Some res)
    | None => LastError
    end
  else LastError.

(** What the callback of the nested frame finds for its "dismissModal" request. *)
Definition askTopFrame (net : Network) (topDocument : Root)
  : Callback (option DismissReply) :=
  if runtimePort net then
    Delivered (Some (Background.relayDismissModal (senderTabId net)
                       (fun _ => tabsSendMessage net topDocument)))
  else LastError.



Section Inspection.
Context {W : Type} (page : Handler Prim W).

(** The frame's document when tryDismissLocal runs, 1800 ms after [w]. *)
Definition atInspection (w : W) : W := snd (page _ (sleep 1800) w).
Definition documentAt (w : W) : Root := fst (page _ readDocument (atInspection w)).
Definition atRequest (w : W) : W := snd (page _ readDocument (atInspection w)).
End Inspection.

(** *** askAI *)

(** What askAI resolves to: { index, error, raw }, [error] by its truth value. *)
Record AiResult : Type := mkAiResult {
  index : option JsNumber;
  error : bool;
  raw : option string
}.

Definition truthy (s : option string) : bool :=
  match s with
  | Some (String _ _) => true
  | _ => false
  end.

(** The callback of content.js:331-343; [None] is resolve(undefined). *)
Definition askAI_callback (cb : Callback (option AskReply)) : option AiResult :=
  match cb with
  | LastError => Some (mkAiResult (Some (Num 0)) true None)
  | Delivered None => None
  | Delivered (Some res) =>
      if truthy (reply_error res)
      then Some (mkAiResult (Some (Num 0)) true None)
      else Some (mkAiResult (reply_index res) false (reply_raw res))
  end.


(** *** solveOneQuestion *)

(** The calls solveOneQuestion awaits or makes on the page. [selectRadio i]
    is selectRadio(radios[i]); it throws when the selector built from the
    option's name at content.js:66 is no selector. The send of the "askAI"
    message answers with what its callback finds, or throws itself (the
    extension context is gone). *)
Inductive Call : Type -> Type :=
| sendAskAI (q : string) (opts : list string)
    : Call (Completion (Callback (option AskReply)))
                                           (* chrome.runtime.sendMessage({ type: "askAI", ... }, cb) *)
| selectRadio (i : Z) : Call (Completion unit)
| pause (ms : Z) : Call unit               (* await sleep(ms) *)
| clickCheckAnswer : Call bool
| dismissModal : Call (Completion ModalOutcome).
                                           (* await dismissFeedbackModal() *)

(** askAI(q, opts), content.js:329. A throw of the send inside the executor
    rejects the promise, and the await of solveOneQuestion throws. *)
Definition askAI (q : string) (opts : list string) : Prog Call (option AiResult) :=
  sent <- sendAskAI q opts;;
  match sent with
  | Abrupt => Throw
  | Normal cb => Ret (askAI_callback cb)
  end.

(** aiResult.index || 0 *)
Definition indexOrZero (ix : option JsNumber) : Z :=
  match ix with
  | Some (Num z) => z
  | Some NaN | None => 0
  end.

(** Math.min(Math.max(aiResult.index || 0, 0), radios.length - 1) *)
Definition aiChoiceOf (n : nat) (ix : option JsNumber) : Z :=
  Z.min (Z.max (indexOrZero ix) 0) (Z.of_nat n - 1).

(** Array.from({ length: n }, (_, i) => i) *)
Definition indices (n : nat) : list Z := map Z.of_nat (seq 0 n).

(** [aiChoice, ...indices.filter(i => i !== aiChoice)] *)
Definition trialOrder (n : nat) (aiChoice : Z) : list Z :=
  aiChoice :: filter (fun i => negb (i =? aiChoice)) (indices n).

(** How solveOneQuestion left: the early return on a complete group, the
    return after "correct" on option [i], or the end of the loop. *)
Inductive Exit : Type :=
| Skipped
| Solved (i : Z)
| Exhausted.

(** for (const i of order) { ... }, content.js:379-396 *)
Fixpoint tryOptions (order : list Z) : Prog Call Exit :=
  match order with
  | [] => Ret Exhausted
  | i :: rest =>
      s <- selectRadio i;;
      match s with
      | Abrupt => Throw
      | Normal _ =>
          await pause 800;;
          clicked <- clickCheckAnswer;;
          if negb clicked then tryOptions rest
          else
            r <- dismissModal;;
            match r with
            | Abrupt => Throw
            | Normal correct => Ret (Solved i)
            | Normal _ => await pause 500;; tryOptions rest
            end
      end
  end.

(** *** The steps of one trial, in an environment [h] *)

Section Trial.
Context {W : Type} (h : Handler Call W).

(** How the selection of option [i] goes in [w], and the world after it. *)
Definition selectionAt (i : Z) (w : W) : Completion unit := fst (h _ (selectRadio i) w).
Definition atSelection (i : Z) (w : W) : W := snd (h _ (selectRadio i) w).

(** The state of the world when the answer of the modal arrives in the
    trial of option [i] started in [w], and that answer. *)
Definition atCheck (i : Z) (w : W) : W :=
  snd (h _ (pause 800) (snd (h _ (selectRadio i) w))).
Definition clickedAt (i : Z) (w : W) : bool := fst (h _ clickCheckAnswer (atCheck i w)).
Definition atModal (i : Z) (w : W) : W := snd (h _ clickCheckAnswer (atCheck i w)).
Definition modalAt (i : Z) (w : W) : Completion ModalOutcome :=
  fst (h _ dismissModal (atModal i w)).
Definition afterModal (i : Z) (w : W) : W := snd (h _ dismissModal (atModal i w)).
Definition nextTrial (i : Z) (w : W) : W := snd (h _ (pause 500) (afterModal i w)).

Definition trialHead (i : Z) (w : W) : list (Event Call) :=
  [Ev (selectRadio i) (selectionAt i w);
   Ev (pause 800) (fst (h _ (pause 800) (snd (h _ (selectRadio i) w))));
   Ev clickCheckAnswer (clickedAt i w)].
End Trial.

Section Scrape.
(** getLabel and getQuestionText only feed the prompt sent to the AI. getLabel
    throws when the selector built from the option's id at content.js:150 is
    no selector. *)
Variable getLabel : Element -> Completion string.
Variable getQuestionText : list Element -> string.

(** radios.map(getLabel): the labels in order, or the first throw. *)
Fixpoint labelsOf (radios : list Element) : Completion (list string) :=
  match radios with
  | [] => Normal []
  | radio :: rest =>
      match getLabel radio with
      | Abrupt => Abrupt
      | Normal label =>
          match labelsOf rest with
          | Abrupt => Abrupt
          | Normal labels => Normal (label :: labels)
          end
      end
  end.

(** solveOneQuestion(radios, qIndex), content.js:349; qIndex is only logged. *)
Definition solveOneQuestion (radios : list Element) : Prog Call Exit :=
  if isQuestionComplete radios then Ret Skipped
  else
    match labelsOf radios with
    | Abrupt => Throw
    | Normal labels =>
        let qText := getQuestionText radios in
        bind (askAI qText labels) (fun aiResult =>
          match aiResult with
          | None => Throw   (* aiResult.error on undefined *)
          | Some aiResult =>
              let aiChoice := aiChoiceOf (List.length radios) (index aiResult) in
              tryOptions (trialOrder (List.length radios) aiChoice)
          end)
    end.

Section Asked.
Context {W : Type} (h : Handler Call W).

(** What the send of the askAI message comes to (the finding of its callback,
    or a throw: of a label before it, or of the send itself), and the world
    then. *)
Definition aiCallback (radios : list Element) (w : W)
  : Completion (Callback (option AskReply)) :=
  match labelsOf radios with
  | Abrupt => Abrupt
  | Normal labels => fst (h _ (sendAskAI (getQuestionText radios) labels) w)
  end.
Definition atAnswer (radios : list Element) (w : W) : W :=
  match labelsOf radios with
  | Abrupt => w
  | Normal labels => snd (h _ (sendAskAI (getQuestionText radios) labels) w)
  end.
End Asked.
End Scrape.

(** *** Reading a trace *)

Definition selectedOf (ev : Event Call) : list Z :=
  match ev with
  | Ev e _ => match e with selectRadio i => [i] | _ => [] end
  end.

Definition modalOf (ev : Event Call) : list (Completion ModalOutcome) :=
  match ev with
  | @Ev _ X e x =>
      match e in Call T return T -> list (Completion ModalOutcome) with
      | dismissModal => fun o => [o]
      | _ => fun _ => []
      end x
  end.

Definition thrownOf (ev : Event Call) : list Z :=
  match ev with
  | @Ev _ X e x =>
      match e in Call T return T -> list Z with
      | selectRadio i => fun s => match s with Abrupt => [i] | Normal _ => [] end
      | _ => fun _ => []
      end x
  end.

(** The options selectRadio was called on, in order; those for which it
    threw; and the modal outcomes, in order. *)
Definition selected (t : list (Event Call)) : list Z := flat_map selectedOf t.
Definition thrownSelections (t : list (Event Call)) : list Z := flat_map thrownOf t.
Definition modalOutcomes (t : list (Event Call)) : list (Completion ModalOutcome) :=
  flat_map modalOf t.

(** The same environment, except that it reports "wrong" wherever the given
    one reports "unknown". *)
Definition unknownAsWrong (o : Completion ModalOutcome) : Completion ModalOutcome :=
  match o with
  | Normal unknown => Normal wrong
  | _ => o
  end.

Definition reportingWrong {W} (h : Handler Call W) : Handler Call W :=
  fun X e =>
    match e in Call T return (W -> T * W) -> W -> T * W with
    | dismissModal => fun f w => (unknownAsWrong (fst (f w)), snd (f w))
    | _ => fun f => f
    end (h X e).

(** The environment of solveOneQuestion in which dismissFeedbackModal() is
    the function above, run in a frame whose page answers [page]. *)
Definition withDismiss {W} (isTop : bool) (page : Handler Prim W)
    (h : Handler Call W) : Handler Call W :=
  fun X e =>
    match e in Call T return (W -> T * W) -> W -> T * W with
    | dismissModal => fun _ w =>
        let r := run page (dismissFeedbackModal isTop) w in (outcome r, world r)
    | _ => fun f => f
    end (h X e).

Definition eventAsWrong (ev : Event Call) : Event Call :=
  match ev with
  | @Ev _ X e x =>
      match e in Call T return T -> Event Call with
      | dismissModal => fun o => Ev dismissModal (unknownAsWrong o)
      | e' => fun x' => Ev e' x'
      end x
  end.

End Solver.

(* ------------------------------------------------------------------------- *)
(** ** Pages to run the scripts on *)

Module Scenario.
Import Program Dom Solver.
Local Open Scope string_scope.

(** An enabled option with nothing of interest above it. *)
Definition plainRadio : Element := mkElement "" false None None.
Definition fourOptions : list Element := [plainRadio; plainRadio; plainRadio; plainRadio].

(** Two options inside a shadow tree whose host reads as complete. *)
Definition completeHost : Element :=
  mkElement "Check Your Understanding: COMPLETE" false None None.
Definition completeGroup : list Element :=
  [mkElement "" false None (Some completeHost);
   mkElement "" false None (Some completeHost)].

Definition labelOf (r : Element) : Completion string := Normal "label".
Definition questionOf (radios : list Element) : string := "question".

(** A quiz page: it remembers the option selected last and the option that
    is right, shows the Check Answer button, and its modal says "correct"
    exactly for the right option. *)
Record Quiz : Type := mkQuiz {
  rightOption : option Z;
  selectedOption : option Z
}.

Definition sameOption (a b : option Z) : bool :=
  match a, b with
  | Some x, Some y => (x =? y)%Z
  | _, _ => false
  end.

Definition quizPage (ai : Completion (Callback (option AskReply))) : Handler Call Quiz :=
  fun X e =>
    match e in Call T return Quiz -> T * Quiz with
    | sendAskAI _ _ => fun q => (ai, q)
    | selectRadio i => fun q => (Normal tt, mkQuiz (rightOption q) (Some i))
    | pause _ => fun q => (tt, q)
    | clickCheckAnswer => fun q => (true, q)
    | dismissModal => fun q =>
        (Normal (if sameOption (rightOption q) (selectedOption q) then correct else wrong), q)
    end.

(** A page on which no option is ever accepted. *)
Definition hopelessPage (ai : Completion (Callback (option AskReply))) : Handler Call unit :=
  fun X e =>
    match e in Call T return unit -> T * unit with
    | sendAskAI _ _ => fun u => (ai, u)
    | selectRadio _ => fun u => (Normal tt, u)
    | pause _ => fun u => (tt, u)
    | clickCheckAnswer => fun u => (true, u)
    | dismissModal => fun u => (Normal wrong, u)
    end.


(** The AI answers with a letter: { index, raw }. *)
Definition aiSays (index : Z) (raw : string) : Completion (Callback (option AskReply)) :=
  Normal (Delivered (Some (mkAskReply None (Some (Num index)) (Some raw)))).

(** A nested frame showing [document], whose request to the top frame comes
    to [answer]. *)
Definition nestedFrame (document : Root)
    (answer : Completion (Callback (option DismissReply)))
  : Handler Prim unit :=
  fun X e =>
    match e in Prim T return unit -> T * unit with
    | sleep _ => fun u => (tt, u)
    | readDocument => fun u => (document, u)
    | nativeClick _ => fun u => (tt, u)
    | sendDismissModal => fun u => (answer, u)
    end.

Definition button (text : string) (w h : Z) : Node :=
  Elem "button" [] None (Px w) (Px h) [Text text] None.

Definition goodNetwork : Network := mkNetwork true (Some 7) true.

End Scenario.

(* ------------------------------------------------------------------------- *)
(** ** Reading the calls of a run *)

Module Readings.
Import Program Dom Solver.

(** The requests a frame sent to the top frame, and the elements it clicked. *)
Definition requestOf (ev : Event Prim)
  : list (Completion (Callback (option DismissReply))) :=
  match ev with
  | @Ev _ X e x =>
      match e in Prim T return T -> list (Completion (Callback (option DismissReply))) with
      | sendDismissModal => fun cb => [cb]
      | _ => fun _ => []
      end x
  end.

Definition clickOf (ev : Event Prim) : list Node :=
  match ev with
  | Ev e _ => match e with nativeClick el => [el] | _ => [] end
  end.

Definition requests (t : list (Event Prim))
  : list (Completion (Callback (option DismissReply))) :=
  flat_map requestOf t.
Definition clicks (t : list (Event Prim)) : list Node := flat_map clickOf t.

(** The prompts sent to the AI, and the answers of clickCheckAnswer. *)
Definition askedOf (ev : Event Call) : list (string * list string) :=
  match ev with
  | Ev e _ => match e with sendAskAI q opts => [(q, opts)] | _ => [] end
  end.

Definition checkOf (ev : Event Call) : list bool :=
  match ev with
  | @Ev _ X e x =>
      match e in Call T return T -> list bool with
      | clickCheckAnswer => fun b => [b]
      | _ => fun _ => []
      end x
  end.

Definition asked (t : list (Event Call)) : list (string * list string) :=
  flat_map askedOf t.
Definition checks (t : list (Event Call)) : list bool := flat_map checkOf t.

End Readings.

(* ------------------------------------------------------------------------- *)
(** ** content.js: grouping the option controls *)

Module Grouping.
Import JsText Dom.

(** An option control as groupByName reads it: r.name (undefined on an element
    that is no form control), r.getAttribute("name") (null when absent), and
    the element itself. *)
Record Radio : Type := mkRadio {
  nameProperty : option string;
  nameAttribute : option string;
  control : Element
}.

(** a || b on strings that may be missing: the first that is not empty. *)
Definition orElse (a : option string) (b : string) : string :=
  match a with
  | Some (String c r) => String c r
  | _ => b
  end.

(** r.name || r.getAttribute("name") || "__default__" *)
Definition keyOf (r : Radio) : string :=
  orElse (nameProperty r) (orElse (nameAttribute r) "__default__").

(** The properties every object literal inherits from Object.prototype: read
    through groups[key] they are functions (or, for __proto__, the prototype),
    never arrays. *)
Definition inheritedNames : list string :=
  ["constructor"; "hasOwnProperty"; "isPrototypeOf"; "propertyIsEnumerable";
   "toLocaleString"; "toString"; "valueOf"; "__proto__";
   "__defineGetter__"; "__defineSetter__"; "__lookupGetter__"; "__lookupSetter__"]%string.

Definition inherited (key : string) : bool := existsb (String.eqb key) inheritedNames.

Fixpoint digitsValue (acc : N) (s : string) : option N :=
  match s with
  | EmptyString => Some acc
  | String c r =>
      if isDigit c then digitsValue (acc * 10 + (code c - 48))%N r else None
  end.

(** A key that is an array index: the canonical decimal form of an integer
    below 2^32 - 1. Such keys come first, in numeric order, when the keys of
    an object are listed. *)
Definition arrayIndex (key : string) : option N :=
  match key with
  | EmptyString => None
  | String "0"%char (String _ _) => None
  | _ =>
      match digitsValue 0 key with
      | Some n => if (n <? 4294967295)%N then Some n else None
      | None => None
      end
  end.

Section Groups.
Context {A : Type}.

(** The own properties of [groups], in the order Object.values lists them. *)
Definition Groups : Type := list (string * list A).

Fixpoint lookupOwn (key : string) (g : Groups) : option (list A) :=
  match g with
  | [] => None
  | (k, v) :: rest => if String.eqb k key then Some v else lookupOwn key rest
  end.

(** groups[key].push(r) on an own property. *)
Fixpoint pushTo (key : string) (r : A) (g : Groups) : Groups :=
  match g with
  | [] => []
  | (k, v) :: rest =>
      if String.eqb k key then (k, v ++ [r]) :: rest else (k, v) :: pushTo key r rest
  end.

(** A new own property with array index [n]: before the first index
    property with a larger index, else before the first named property. *)
Fixpoint insertIndexed (n : N) (key : string) (v : list A) (g : Groups) : Groups :=
  match g with
  | [] => [(key, v)]
  | (k, v') :: rest =>
      match arrayIndex k with
      | Some n' =>
          if (n <? n')%N then (key, v) :: g else (k, v') :: insertIndexed n key v rest
      | None => (key, v) :: g
      end
  end.

(** groups[key] = [] for a key the object does not own. *)
Definition create (key : string) (v : list A) (g : Groups) : Groups :=
  match arrayIndex key with
  | Some n => insertIndexed n key v g
  | None => g ++ [(key, v)]
  end.

Variable keyFor : A -> string.

(** radios.forEach(r => { (groups[key] = groups[key] || []).push(r); }): an own
    property is pushed to; a missing one is created, unless the key reads as
    an inherited property, which has no push and makes the call throw. *)
Fixpoint collect (radios : list A) (g : Groups) : Completion Groups :=
  match radios with
  | [] => Normal g
  | r :: rest =>
      let key := keyFor r in
      match lookupOwn key g with
      | Some _ => collect rest (pushTo key r g)
      | None =>
          if inherited key then Abrupt
          else collect rest (create key [r] g)
      end
  end.

(** groupByName(radios), content.js:99 *)
Definition groupBy (radios : list A) : Completion (list (list A)) :=
  match collect radios [] with
  | Normal g => Normal (map snd g)
  | Abrupt => Abrupt
  end.

Definition keysOf (g : Groups) : list string := map fst g.
Definition inGroup (k : string) (r : A) : bool := String.eqb (keyFor r) k.

(** What holds of the groups once the radios [done] are collected. *)
Record Collected (done : list A) (g : Groups) : Prop := mkCollected {
  keys_distinct : NoDup (keysOf g);
  keys_own : forall k, In k (keysOf g) -> inherited k = false;
  keys_cover : forall r, In r done -> In (keyFor r) (keysOf g);
  group_is_filter : forall k v, In (k, v) g -> v = filter (inGroup k) done /\ v <> [];
  groups_partition : Permutation (List.concat (map snd g)) done
}.

(** The keys in the order of their first appearance. *)
Fixpoint firstAppearances (seen keys : list string) : list string :=
  match keys with
  | [] => []
  | k :: rest =>
      if existsb (String.eqb k) seen then firstAppearances seen rest
      else k :: firstAppearances (k :: seen) rest
  end.
End Groups.

Definition groupByName (radios : list Radio) : Completion (list (list Radio)) :=
  groupBy keyOf radios.

Definition isIndexKey (key : string) : bool :=
  match arrayIndex key with Some _ => true | None => false end.

(** The order in which the keys of an object are listed: the array indices
    by value, then the other keys (as they were created). *)
Definition precedes (k k' : string) : Prop :=
  match arrayIndex k, arrayIndex k' with
  | Some n, Some n' => (n <= n')%N
  | Some _, None => True
  | None, Some _ => False
  | None, None => True
  end.

Definition namedKeys (keys : list string) : list string :=
  filter (fun k => negb (isIndexKey k)) keys.

(** The key a group was collected under. *)
Definition groupKey (g : list Radio) : string :=
  match g with
  | r :: _ => keyOf r
  | [] => EmptyString
  end.

End Grouping.

(* ------------------------------------------------------------------------- *)
(** ** A page with three questions *)

Module SamplePage.
Import Dom Grouping.
Local Open Scope string_scope.

Definition named (name : string) : Radio :=
  mkRadio (Some name) (Some name) (mkElement "" false None None).

(** Options in discovery order: two of question "q-b", one of "7", one of
    "q-a", one more of "7", one of "3". *)
Definition mixedRadios : list Radio :=
  [named "q-b"; named "q-b"; named "7"; named "q-a"; named "7"; named "3"].

End SamplePage.

(* ------------------------------------------------------------------------- *)
(** ** content.js: solveInThisFrame *)

Module Orchestrator.
Import Program Dom Solver Grouping.

(** What solveInThisFrame does to the frame: it writes the module variable
    [running], waits, scans for radios, awaits solveOneQuestion on a group,
    asks for the next page and, in the top frame, puts the button back. *)
Inductive PageCall : Type -> Type :=
| setRunning (b : bool) : PageCall unit
| settle (ms : Z) : PageCall unit
| findAllRadios : PageCall (list Radio)
| solveQuestion (group : list Radio) (qIndex : nat) : PageCall (Completion Exit)
| requestNavigateNext : PageCall unit
| restoreButton : PageCall unit.

(** How a call of solveInThisFrame ends: the guard returned at once; no radio
    was found; the pass reached requestNavigateNext; an exception was caught. *)
Inductive PassEnd : Type :=
| AlreadyRunning
| NoRadios
| Navigating
| Caught.

(** for (let i = 0; i < groups.length; i++) { await solveOneQuestion(groups[i], i);
    await sleep(1000); } from index [i] on; [false] when a question threw. *)
Fixpoint solveEach (groups : list (list Radio)) (i : nat) : Prog PageCall bool :=
  match groups with
  | [] => Ret true
  | g :: rest =>
      r <- solveQuestion g i;;
      match r with
      | Abrupt => Ret false
      | Normal _ => await settle 1000;; solveEach rest (S i)
      end
  end.

(** The try block of content.js:565-593, with the exit the catch or the
    return leaves through. *)
Definition tryBlock : Prog PageCall PassEnd :=
  await settle 2000;;
  radios <- findAllRadios;;
  match radios with
  | [] => Ret NoRadios
  | _ :: _ =>
      match groupByName radios with
      | Abrupt => Ret Caught
      | Normal groups =>
          bind (solveEach groups 0) (fun done =>
            if done
            then await settle 2000;; await requestNavigateNext;; Ret Navigating
            else Ret Caught)
      end
  end.

(** solveInThisFrame(), content.js:561, called in a frame where
    window === window.top is [isTop] while the variable running is [running]. *)
Definition solveInThisFrame (isTop running : bool) : Prog PageCall PassEnd :=
  if running then Ret AlreadyRunning
  else
    await setRunning true;;
    bind tryBlock (fun e =>
      await setRunning false;;
      if isTop then await restoreButton;; Ret e else Ret e).

(** Reading a trace: the values written to running, the questions awaited
    with their index and how they ended, the scans, the navigation requests. *)
Definition flagWriteOf (ev : Event PageCall) : list bool :=
  match ev with
  | Ev e _ => match e with setRunning b => [b] | _ => [] end
  end.

Definition questionOf (ev : Event PageCall) : list (list Radio * nat * Completion Exit) :=
  match ev with
  | @Ev _ X e x =>
      match e in PageCall T return T -> list (list Radio * nat * Completion Exit) with
      | solveQuestion g i => fun r => [(g, i, r)]
      | _ => fun _ => []
      end x
  end.

Definition scanOf (ev : Event PageCall) : list (list Radio) :=
  match ev with
  | @Ev _ X e x =>
      match e in PageCall T return T -> list (list Radio) with
      | findAllRadios => fun radios => [radios]
      | _ => fun _ => []
      end x
  end.

Definition navigationOf (ev : Event PageCall) : list unit :=
  match ev with
  | Ev e _ => match e with requestNavigateNext => [tt] | _ => [] end
  end.

Definition flagWrites (t : list (Event PageCall)) : list bool := flat_map flagWriteOf t.
Definition questions (t : list (Event PageCall)) : list (list Radio * nat * Completion Exit) :=
  flat_map questionOf t.
Definition scans (t : list (Event PageCall)) : list (list Radio) := flat_map scanOf t.
Definition navigations (t : list (Event PageCall)) : list unit := flat_map navigationOf t.

(** The groups numbered from [i]. *)
Fixpoint numbered (groups : list (list Radio)) (i : nat) : list (list Radio * nat) :=
  match groups with
  | [] => []
  | g :: rest => (g, i) :: numbered rest (S i)
  end.

Definition endedNormally (q : list Radio * nat * Completion Exit) : bool :=
  match snd q with Normal _ => true | Abrupt => false end.

End Orchestrator.

(* ------------------------------------------------------------------------- *)
(** ** Patterns with a run of white space *)

Module Patterns.
Import JsText.

Fixpoint allSpace (s : string) : bool :=
  match s with
  | EmptyString => true
  | String c r => isSpace c && allSpace r
  end.

Definition headIsSpace (s : string) : bool :=
  match s with
  | String c _ => isSpace c
  | EmptyString => false
  end.

(** A match of a\s*b somewhere in [s], for literals of which [b] does not
    begin with white space: after [a] the greedy \s* takes the whole run of
    white space, and giving some of it back cannot help [b] to match. *)
Fixpoint gapSearch (a b s : string) : bool :=
  match afterPrefix a s with
  | Some rest => startsWith b (trimStart rest)
  | None => false
  end ||
  match s with
  | EmptyString => false
  | String _ r => gapSearch a b r
  end.

(** /a\s*b/i.test(t) for literals below 128. *)
Definition testGapI (a b t : string) : bool :=
  gapSearch (toLowerCase a) (toLowerCase b) (toLowerCase t).

End Patterns.

(* ------------------------------------------------------------------------- *)
(** ** The feedback popup in the words of the specification *)

Module ModalWords.
Import JsText Dom Patterns.
Local Open Scope string_scope.

(** "Visible means non-zero rendered width and height at the moment of
    inspection; elements erroring on that check are conservatively treated as
    visible", on the two readings themselves. A rendered width or height is
    never negative, so non-zero is positive; the height is read only after a
    width that is not zero. *)
Inductive Shown (b : Node) : Prop :=
| shown_sized (w h : Z) :
    offsetWidth b = Px w -> offsetHeight b = Px h -> 0 < w -> 0 < h -> Shown b
| shown_width_raises :
    offsetWidth b = Raises -> Shown b
| shown_height_raises (w : Z) :
    offsetWidth b = Px w -> 0 < w -> offsetHeight b = Raises -> Shown b.

(** A control matching a keyword written in small letters: somewhere in its
    text stands the keyword, in letters of either case. *)
Definition Matching (kw : string) (b : Node) : Prop :=
  exists pre mid post, textContent b = pre ++ mid ++ post /\ toLowerCase mid = kw.

(** A visible button of the document, shadow trees included, matching one of
    the keywords. *)
Definition ShownButton (document : Root) (kws : list string) (b : Node) : Prop :=
  InDeep document b
  /\ isElement b = true
  /\ localName b = "button"
  /\ (exists kw, In kw kws /\ Matching kw b)
  /\ Shown b.

(** A keyword in small letters that neither begins nor ends with white space. *)
Definition plainKeyword (kw : string) : bool :=
  String.eqb (toLowerCase kw) kw
  && negb (headIsSpace kw)
  && match lastChar None kw with
     | Some c => negb (isSpace c)
     | None => false
     end.

End ModalWords.

(* ------------------------------------------------------------------------- *)
(** ** content.js: findCheckAnswerBtn, clickCheckAnswer *)

Module CheckAnswer.
Import JsText Patterns Dom.
Local Open Scope string_scope.

(** What getRootNode() returns: a ShadowRoot, with its content and the root
    node of its host, or something that is not a ShadowRoot. *)
Inductive RootNode : Type :=
| NotShadow
| Shadow (content : Root) (hostRoot : RootNode).

(** A radio as far as findCheckAnswerBtn reads it. *)
Record Placed : Type := mkPlaced { getRootNode : RootNode }.

(** /check\s*answer/i.test(b.textContent) *)
Definition saysCheckAnswer (b : Node) : bool :=
  testGapI "check" "answer" (textContent b).

(** [...scope.querySelectorAll("button")].find(...) *)
Definition findIn (scope : Root) : option Node :=
  find saysCheckAnswer (querySelectorAll scope (SelTag "button")).

(** for (let i = 0; i < 10; i++) { ... } with [hops] iterations left. *)
Fixpoint searchScopes (hops : nat) (root : RootNode) (document : Root) : option Node :=
  match hops with
  | O => None
  | S hops' =>
      match root with
      | Shadow content hostRoot =>
          match findIn content with
          | Some btn => Some btn
          | None => searchScopes hops' hostRoot document
          end
      | NotShadow => findIn document
      end
  end.

(** findCheckAnswerBtn(radios), content.js:220; radios[0] of an empty array is
    undefined and reading getRootNode of it throws. *)
Definition findCheckAnswerBtn (radios : list Placed) (document : Root)
  : Completion (option Node) :=
  match radios with
  | [] => Abrupt
  | radio :: _ =>
      Normal
        match searchScopes 10 (getRootNode radio) document with
        | Some btn => Some btn
        | None => head (deepFindByText document "button" "check answer")
        end
  end.

(** What clickCheckAnswer does to the button it found. *)
Inductive ButtonOp : Type :=
| enable (btn : Node)            (* btn.disabled = false *)
| removeDisabled (btn : Node)    (* btn.removeAttribute("disabled") *)
| nativeClick (btn : Node).

(** clickCheckAnswer(radios), content.js:234 *)
Definition clickCheckAnswer (radios : list Placed) (document : Root)
  : Completion (bool * list ButtonOp) :=
  match findCheckAnswerBtn radios document with
  | Abrupt => Abrupt
  | Normal None => Normal (false, [])
  | Normal (Some btn) => Normal (true, [enable btn; removeDisabled btn; nativeClick btn])
  end.

(** The scopes the loop searches, in order. *)
Fixpoint scopes (hops : nat) (root : RootNode) (document : Root) : list Root :=
  match hops with
  | O => []
  | S hops' =>
      match root with
      | Shadow content hostRoot => content :: scopes hops' hostRoot document
      | NotShadow => [document]
      end
  end.

(** The nodes of a root node; of one that is not a ShadowRoot, the
    document's. *)
Definition contentOf (root : RootNode) (document : Root) : Root :=
  match root with
  | Shadow content _ => content
  | NotShadow => document
  end.

(** Every shadow root of the chain is the shadow root of an element in the
    light tree of the next root, up to the document. *)
Fixpoint Enclosed (root : RootNode) (document : Root) : Prop :=
  match root with
  | NotShadow => True
  | Shadow content hostRoot =>
      (exists host,
         In host (flat_map lightElements (contentOf hostRoot document))
         /\ shadowRoot host = Some content)
      /\ Enclosed hostRoot document
  end.

End CheckAnswer.

(* ------------------------------------------------------------------------- *)
(** ** A quiz inside a shadow tree *)

Module SampleQuiz.
Import Dom CheckAnswer.
Local Open Scope string_scope.

Definition labelled (tag text : string) : Node :=
  Elem tag [] None (Px 80) (Px 24) [Text text] None.

Definition quizContent : Root :=
  [labelled "p" "Question 1"; labelled "button" "Hint"; labelled "button" "Check  Answer"].

Definition quizHost : Node :=
  Elem "quiz-question" [] None (Px 600) (Px 400) [] (Some quizContent).

Definition pageDocument : Root :=
  [Elem "main" [] None (Px 800) (Px 600)
     [labelled "button" "Check answer"; quizHost] None].

Definition quizRadio : Placed := mkPlaced (Shadow quizContent NotShadow).

End SampleQuiz.

(* ------------------------------------------------------------------------- *)
(** ** content.js: navigateNext *)

Module Navigation.
Import JsText Patterns Dom.
Local Open Scope string_scope.

Definition nextClass : string := "linear-navigation-button--next".

Definition hasNextClass (a : Node) : bool :=
  existsb (String.eqb nextClass) (classList a).

(** /Next\s*:/i.test(a.textContent) *)
Definition saysNext (a : Node) : bool := testGapI "Next" ":" (textContent a).

(** document.querySelector("a.linear-navigation-button--next")
    || [...document.querySelectorAll("a")].find(a => /Next\s*:/i.test(a.textContent)) *)
Definition findNext (document : Root) : option Node :=
  match find hasNextClass (querySelectorAll document (SelTag "a")) with
  | Some a => Some a
  | None => find saysNext (querySelectorAll document (SelTag "a"))
  end.

(** The element of document.querySelector("#iframe-content, iframe"), if any,
    as the value its src property reads: a string or undefined. *)
Definition IframeSrc : Type := option string.

(** iframe?.src || "" *)
Definition srcOrEmpty (iframe : option IframeSrc) : string :=
  match iframe with
  | Some (Some s) => s
  | _ => ""
  end.

(** iframe.src !== oldSrc *)
Definition differs (src : IframeSrc) (oldSrc : string) : bool :=
  match src with
  | Some s => negb (String.eqb s oldSrc)
  | None => true
  end.

(** The variables the timer callbacks of one call of navigateNext share, and
    which of its timers are still set: the interval checkSrc, the 10 s timeout
    that clears it, the 5 s fallback, the 3 s timeout of afterNav. *)
Record Watch : Type := mkWatch {
  oldSrc : string;
  resolved : bool;
  checking : bool;
  stopSet : bool;
  fallbackSet : bool;
  restartSet : bool
}.

(** What the page and the extension see of it: the calls that returned. *)
Inductive NavEffect : Type :=
| storeAutoSolving                 (* chrome.storage.local.set({ autoSolving: true }) *)
| clickLink (a : Node)             (* next.click() *)
| clearRunning                     (* running = false *)
| sendTriggerSolve                 (* chrome.runtime.sendMessage({ type: "triggerSolve" }, ...) *)
| callSolveInThisFrame.

(** navigateNext(), content.js:483, up to its return or its throw: the timers
    it leaves behind and what it did. [storageThrows]: the call of
    chrome.storage.local.set at content.js:498 throws (the extension context
    is gone); the link is then not clicked and no timer is set. *)
Definition navigateNext (document : Root) (iframe : option IframeSrc)
    (storageThrows : bool)
  : Completion (option Watch) * list NavEffect :=
  match findNext document with
  | None => (Normal None, [])
  | Some next =>
      if storageThrows then (Abrupt, [])
      else
        let watched := match iframe with Some _ => true | None => false end in
        (Normal (Some (mkWatch (srcOrEmpty iframe) false watched watched true false)),
         [storeAutoSolving; clickLink next])
  end.

(** A timer callback run by the event loop; a tick of checkSrc reads
    iframe.src; the 3 s callback of afterNav sends "triggerSolve", and that
    send returns or throws. *)
Inductive Timer : Type :=
| tick (src : IframeSrc)
| stopTimeout
| fallbackTimeout
| restartTimeout (sendThrows : bool).

(** The 3 s callback, content.js:514-520: a send that throws ends the
    callback before solveInThisFrame is called. *)
Definition restartEffects (sendThrows : bool) : list NavEffect :=
  if sendThrows then [] else [sendTriggerSolve; callSolveInThisFrame].

(** const afterNav = () => { if (resolved) return; resolved = true; ... } *)
Definition afterNav (w : Watch) : Watch * list NavEffect :=
  if resolved w then (w, [])
  else (mkWatch (oldSrc w) true (checking w) (stopSet w) (fallbackSet w) true,
        [clearRunning]).

(** One callback; a timer that is not set, or was cleared, does not run. *)
Definition fire (t : Timer) (w : Watch) : Watch * list NavEffect :=
  match t with
  | tick src =>
      if checking w then
        if differs src (oldSrc w)
        then afterNav (mkWatch (oldSrc w) (resolved w) false (stopSet w)
                               (fallbackSet w) (restartSet w))
        else (w, [])
      else (w, [])
  | stopTimeout =>
      if stopSet w
      then (mkWatch (oldSrc w) (resolved w) false false (fallbackSet w) (restartSet w), [])
      else (w, [])
  | fallbackTimeout =>
      if fallbackSet w
      then afterNav (mkWatch (oldSrc w) (resolved w) (checking w) (stopSet w)
                             false (restartSet w))
      else (w, [])
  | restartTimeout sendThrows =>
      if restartSet w
      then (mkWatch (oldSrc w) (resolved w) (checking w) (stopSet w) (fallbackSet w) false,
            restartEffects sendThrows)
      else (w, [])
  end.

Fixpoint fireAll (ts : list Timer) (w : Watch) : Watch * list NavEffect :=
  match ts with
  | [] => (w, [])
  | t :: rest =>
      let (w1, e1) := fire t w in
      let (w2, e2) := fireAll rest w1 in
      (w2, e1 ++ e2)%list
  end.

(** The first tick of the list that reads a changed src. *)
Definition seesChange (oldSrc : string) (t : Timer) : bool :=
  match t with
  | tick src => differs src oldSrc
  | _ => false
  end.

(** How far the callbacks of one call have got: nothing yet; afterNav ran and
    its timeout is set; the timeout ran, and its send threw or not. *)
Inductive Stage : Type := Waiting | Resolved | Restarted (sendThrew : bool).

Definition staged (s : Stage) (w : Watch) : Prop :=
  match s with
  | Waiting => resolved w = false /\ restartSet w = false /\ fallbackSet w = true
  | Resolved => resolved w = true /\ restartSet w = true
  | Restarted _ => resolved w = true /\ restartSet w = false
  end.

Definition effectsFrom (s s' : Stage) : list NavEffect :=
  match s, s' with
  | Waiting, Resolved => [clearRunning]
  | Waiting, Restarted threw => clearRunning :: restartEffects threw
  | Resolved, Restarted threw => restartEffects threw
  | _, _ => []
  end.

Definition reaches (s s' : Stage) : Prop :=
  match s, s' with
  | Resolved, Waiting | Restarted _, Waiting | Restarted _, Resolved => False
  | Restarted a, Restarted b => a = b
  | _, _ => True
  end.

End Navigation.

(* ------------------------------------------------------------------------- *)
(** ** Start and navigation signals between the frames and the worker *)

Module Messaging.
Import Dom.
Local Open Scope string_scope.

(** A frame of the tab: the top frame, frameId 0, or a nested one with its
    own id, the id of its parent, and whether its URL contains
    "player.wwnorton.com". *)
Inductive Frame : Type :=
| top
| nested (index : nat) (parentId : nat) (player : bool).

Definition frameId (f : Frame) : nat :=
  match f with
  | top => 0
  | nested index _ _ => S index
  end.

(** window === window.top *)
Definition isTop (f : Frame) : bool :=
  match f with top => true | nested _ _ _ => false end.

(** content.js:26-29: in a nested player frame the script returns before it
    registers a listener. *)
Definition scriptRuns (f : Frame) : bool :=
  match f with
  | top => true
  | nested _ _ player => negb player
  end.

Definition parentIs (g f : Frame) : bool :=
  match f with
  | top => false
  | nested _ parentId _ => Nat.eqb parentId (frameId g)
  end.

(** What a content script does on its own account. *)
Inductive Request : Type :=
| callNavigateNext
| callSolveInThisFrame
| runtimeSend (type : string)       (* chrome.runtime.sendMessage({ type }) *)
| postToParent (type : string).     (* window.parent.postMessage({ type }, "*") *)

(** requestNavigateNext(), content.js:545: the requests it makes.
    [sendThrows]: the call of chrome.runtime.sendMessage at content.js:547
    throws (the extension context is gone); nothing is sent, and the throw
    leaves the function before the postMessage of the next line. *)
Definition requestNavigateNext (f : Frame) (sendThrows : bool) : list Request :=
  if isTop f then [callNavigateNext]
  else if sendThrows then []
  else [runtimeSend "navigateNext"; postToParent "nerd-auto-solver-navigate"].

(** Whether requestNavigateNext() throws: in the top frame when navigateNext()
    does, in a nested frame when the send does (a throw of postMessage is
    caught). *)
Definition requestNavigateNextThrows (f : Frame) (sendThrows navigateThrows : bool)
  : bool :=
  if isTop f then navigateThrows else sendThrows.

(** onButtonClick(), content.js:431; [contextValid] is chrome.runtime?.id. *)
Definition onButtonClick (contextValid : bool) : list Request :=
  if contextValid then [runtimeSend "triggerSolve"; callSolveInThisFrame] else [].

(** What a listener of the content script does with what it receives. *)
Inductive Reaction : Type :=
| startsSolving        (* solveInThisFrame() *)
| navigates            (* navigateNext() *)
| answersDismiss       (* tryDismissLocal() and sendResponse *)
| ignores.

(** chrome.runtime.onMessage listener, content.js:458 *)
Definition onMessage (f : Frame) (type : string) : Reaction :=
  if String.eqb type "startSolving" then startsSolving
  else if String.eqb type "navigateNext" && isTop f then navigates
  else if String.eqb type "dismissModal" && isTop f then answersDismiss
  else ignores.

(** window "nerd-auto-solver-start" listener, content.js:477 *)
Definition onStartEvent (f : Frame) : Reaction := startsSolving.

(** window "message" listener, content.js:551, registered if (isTop). *)
Definition onWindowMessage (f : Frame) (type : string) : list Reaction :=
  if isTop f
  then [if String.eqb type "nerd-auto-solver-navigate" then navigates else ignores]
  else [].

(** What the service worker sends into the tab. *)
Inductive WorkerOp : Type :=
| tabsSend (type : string)          (* chrome.tabs.sendMessage(tabId, { type }, cb) *)
| dispatchInAllFrames (event : string).
                                    (* chrome.scripting.executeScript({ target: { tabId, allFrames: true }, ... }) *)

(** The worker's listener for "triggerSolve" and "navigateNext",
    background.js:77-106; [tabId] is sender.tab?.id. *)
Definition onWorkerMessage (type : string) (tabId : option Z) : list WorkerOp :=
  if String.eqb type "triggerSolve" then
    if Background.falsyTabId tabId then []
    else [tabsSend "startSolving"; dispatchInAllFrames "nerd-auto-solver-start"]
  else if String.eqb type "navigateNext" then
    if Background.falsyTabId tabId then []
    else [tabsSend "navigateNext"]
  else [].

(** The transport: whether the sender's message reaches the worker, the tab
    the sender is reported in, which frames a message to the tab and an
    injected script reach, and whether postMessage reaches the parent window
    (it does not when the call throws). *)
Record Routes : Type := mkRoutes {
  toWorker : bool;
  tabId : option Z;
  toFrame : nat -> bool;
  injects : nat -> bool;
  toParent : bool
}.

(** What one operation of the worker sets off in frame [g]. *)
Definition deliver (r : Routes) (g : Frame) (op : WorkerOp) : list Reaction :=
  if scriptRuns g then
    match op with
    | tabsSend type => if toFrame r (frameId g) then [onMessage g type] else []
    | dispatchInAllFrames event =>
        if injects r (frameId g) && String.eqb event "nerd-auto-solver-start"
        then [onStartEvent g] else []
    end
  else [].

(** What a request made in frame [f] sets off in frame [g]. *)
Definition reaction (r : Routes) (f g : Frame) (req : Request) : list Reaction :=
  match req with
  | callNavigateNext => if Nat.eqb (frameId f) (frameId g) then [navigates] else []
  | callSolveInThisFrame => if Nat.eqb (frameId f) (frameId g) then [startsSolving] else []
  | runtimeSend type =>
      if toWorker r
      then flat_map (deliver r g) (onWorkerMessage type (tabId r))
      else []
  | postToParent type =>
      if toParent r && parentIs g f && scriptRuns g then onWindowMessage g type else []
  end.

Definition reactions (r : Routes) (f g : Frame) (reqs : list Request) : list Reaction :=
  flat_map (reaction r f g) reqs.

Definition isNavigates (x : Reaction) : bool :=
  match x with navigates => true | _ => false end.
Definition isStartsSolving (x : Reaction) : bool :=
  match x with startsSolving => true | _ => false end.

(** How often navigateNext() runs in the top frame for one call of
    requestNavigateNext() in frame [f]. *)
Definition navigateNextCalls (r : Routes) (f : Frame) (sendThrows : bool) : nat :=
  List.length (filter isNavigates (reactions r f top (requestNavigateNext f sendThrows))).

(** How often solveInThisFrame() is called in frame [g] for one click on the
    button of the top frame. *)
Definition solveCalls (r : Routes) (g : Frame) : nat :=
  List.length (filter isStartsSolving (reactions r top g (onButtonClick true))).

(** The relay works from the sender to frame [g]. *)
Definition relays (r : Routes) (g : Frame) : bool :=
  toWorker r && negb (Background.falsyTabId (tabId r)) && toFrame r (frameId g).

(** A truth value counted. *)
Definition b2n (b : bool) : nat := if b then 1 else 0.

End Messaging.

(* ------------------------------------------------------------------------- *)
(** ** Passes of solveInThisFrame on the event loop of a frame *)

Module EventLoop.
Import Program Solver Grouping Orchestrator.

(** The calls solveInThisFrame awaits; everything else runs to the next
    await without interruption. *)
Definition awaited {X : Type} (e : PageCall X) : bool :=
  match e with
  | settle _ => true
  | solveQuestion _ _ => true
  | _ => false
  end.

(** The value a call writes to [running], if it writes it. *)
Definition flagOf {X : Type} (e : PageCall X) : option bool :=
  match e with
  | setRunning b => Some b
  | _ => None
  end.

(** A pass suspended at an await, with the rest of the function. *)
Inductive Suspended : Type :=
| suspendedAt {X : Type} (e : PageCall X) (k : X -> Prog PageCall PassEnd).

(** A frame: the variable [running], the page, the passes waiting for a
    promise, and the calls made so far. *)
Record FrameState (W : Type) : Type := mkFrameState {
  running : bool;
  page : W;
  passes : list Suspended;
  log : list (Event PageCall)
}.
Arguments mkFrameState {W} running page passes log.
Arguments running {W} f.
Arguments page {W} f.
Arguments passes {W} f.
Arguments log {W} f.

Section Frame.
Context {W : Type} (h : Handler PageCall W).

(** One call answered by the page; a write to [running] takes effect. *)
Definition answer {X : Type} (e : PageCall X) (fr : FrameState W) : X * FrameState W :=
  let xw := h _ e (page fr) in
  (fst xw,
   mkFrameState (match flagOf e with Some b => b | None => running fr end)
                (snd xw) (passes fr) (log fr ++ [Ev e (fst xw)])).

(** Runs a pass up to its next await, or to its end. *)
Fixpoint advance (p : Prog PageCall PassEnd) (fr : FrameState W) : FrameState W :=
  match p with
  | Ret _ => fr
  | Throw => fr
  | Vis e k =>
      if awaited e
      then mkFrameState (running fr) (page fr) (passes fr ++ [suspendedAt e k]) (log fr)
      else advance (k (fst (answer e fr))) (snd (answer e fr))
  end.

(** What the event loop runs next: a call of solveInThisFrame(), from the
    button, a message or an event; or the continuation of the [i]-th waiting
    pass, whose promise has settled. *)
Inductive Action : Type :=
| call
| settles (i : nat).

Definition act (isTop : bool) (fr : FrameState W) (a : Action) : FrameState W :=
  match a with
  | call => advance (solveInThisFrame isTop (running fr)) fr
  | settles i =>
      match nth_error (passes fr) i with
      | Some (suspendedAt e k) =>
          let others := firstn i (passes fr) ++ skipn (S i) (passes fr) in
          let xf := answer e (mkFrameState (running fr) (page fr) others (log fr)) in
          advance (k (fst xf)) (snd xf)
      | None => fr
      end
  end.

Definition actAll (isTop : bool) (schedule : list Action) (fr : FrameState W)
  : FrameState W :=
  fold_left (act isTop) schedule fr.

(** running = false in afterNav, content.js:516 *)
Definition afterNavReset (fr : FrameState W) : FrameState W :=
  mkFrameState false (page fr) (passes fr) (log fr).

Definition idle (w : W) : FrameState W := mkFrameState false w [] [].
End Frame.

(** The rest of a pass after running = false: no await, no write to the flag. *)
Fixpoint Finishing (p : Prog PageCall PassEnd) : Prop :=
  match p with
  | Ret _ => True
  | Throw => True
  | Vis e k => awaited e = false /\ flagOf e = None /\ forall x, Finishing (k x)
  end.

(** The rest of a pass that holds the flag: it does not set it again, and it
    ends only after clearing it. *)
Fixpoint Holding (p : Prog PageCall PassEnd) : Prop :=
  match p with
  | Ret _ => False
  | Throw => False
  | Vis e k =>
      match flagOf e with
      | Some true => False
      | Some false => forall x, Finishing (k x)
      | None => forall x, Holding (k x)
      end
  end.

(** A part of a pass that neither writes the flag nor throws. *)
Fixpoint Quiet {A : Type} (p : Prog PageCall A) : Prop :=
  match p with
  | Ret _ => True
  | Throw => False
  | Vis e k => flagOf e = None /\ forall x, Quiet (k x)
  end.

(** [n] passes begun and ended. *)
Fixpoint turns (n : nat) : list bool :=
  match n with
  | O => []
  | S n' => true :: false :: turns n'
  end.

(** In step with the flag: while it is set exactly one pass waits, which holds
    the flag; while it is clear none does; the writes so far took turns. *)
Definition InStep {W : Type} (fr : FrameState W) (n : nat) : Prop :=
  (running fr = true
   /\ (exists X (e : PageCall X) k,
         passes fr = [suspendedAt e k] /\ awaited e = true /\ forall x, Holding (k x))
   /\ flagWrites (log fr) = turns n ++ [true])
  \/ (running fr = false /\ passes fr = [] /\ flagWrites (log fr) = turns n).

End EventLoop.

(* ------------------------------------------------------------------------- *)
(** ** background.js: the prompt *)

Module Prompt.
Import JsText Background.
Local Open Scope string_scope.

(** "\n" *)
Definition newline : string := String (ascii_of_N 10) EmptyString.

(** `${i}` for an array index. *)
Definition decimal (i : nat) : string := NilEmpty.string_of_uint (Nat.to_uint i).

(** letters[i] || i *)
Definition label (i : nat) : string :=
  match nth_error letters i with
  | Some letter => letter
  | None => decimal i
  end.

(** msg.options.map((o, i) => `${letters[i] || i}. ${o}`), from index [i] on. *)
Fixpoint optionLines (i : nat) (options : list string) : list string :=
  match options with
  | [] => []
  | o :: rest => (label i ++ ". " ++ o) :: optionLines (S i) rest
  end.

(** background.js:26 *)
Definition optionsList (options : list string) : string :=
  String.concat newline (optionLines 0 options).

(** background.js:28 *)
Definition prompt (question : string) (options : list string) : string :=
  "Question" ++ newline ++ question ++ newline ++ newline
  ++ "Select an Answer" ++ newline ++ optionsList options.

(** The response to an askAI message as the content script receives it. *)
Definition replyOf (sent : Sent) (message : string) : AskReply :=
  match sent with
  | SentIndex index raw => mkAskReply None (Some (Num index)) (Some raw)
  | SentError => mkAskReply (Some message) None None
  end.

End Prompt.

(* ------------------------------------------------------------------------- *)
(** ** content.js: getQuestionText *)

Module QuestionText.
Import JsText Patterns Dom.
Local Open Scope string_scope.

(** A literal of characters below 128 matched at the start of [s] under the
    i flag. *)
Definition startsWithI (p s : string) : bool :=
  startsWith (toLowerCase p) (toLowerCase s).

Fixpoint drop (n : nat) (s : string) : string :=
  match n, s with
  | S n', String _ r => drop n' r
  | _, _ => s
  end.

(** The text after the leftmost match of the literal [p], if there is one. *)
Fixpoint afterFirstI (p s : string) : option string :=
  if startsWithI p s then Some (drop (String.length p) s)
  else match s with
       | EmptyString => None
       | String _ r => afterFirstI p r
       end.

(** The text before the leftmost match of the literal [p], if there is one. *)
Fixpoint beforeFirstI (p s : string) : option string :=
  if startsWithI p s then Some EmptyString
  else match s with
       | EmptyString => None
       | String c r => option_map (String c) (beforeFirstI p r)
       end.

(** m[1] of t.match(/Question\s*([\s\S]*?)(?:Select an Answer)/i), [None] for
    a null m.  The match starts at the leftmost "Question"; the greedy \s*
    takes the whole run of white space, since the closing literal cannot start
    inside it; the lazy group then ends at the first "Select an Answer".  When
    that fails no later start can succeed, its closing literal lying further
    right still. *)
Definition questionMatch (t : string) : option string :=
  match afterFirstI "Question" t with
  | Some rest => beforeFirstI "Select an Answer" (trimStart rest)
  | None => None
  end.

Definition placeholder : string := "(Could not extract question text)".

(** The first loop, content.js:190-202, with [hops] iterations left. *)
Fixpoint mainWalk (hops : nat) (el : option Element) : option string :=
  match hops, el with
  | S hops', Some e =>
      let t := elText (inspected e) in
      let m := if includes t "Question" && includes t "Select an Answer"
               then questionMatch t else None in
      match m with
      | Some m1 =>
          if (5 <? String.length (trim m1))%nat then Some (trim m1)
          else mainWalk hops' (stepUp e)
      | None => mainWalk hops' (stepUp e)
      end
  | _, _ => None
  end.

(** The fallback loop, content.js:205-213. *)
Fixpoint fallbackWalk (hops : nat) (container : option Element) : option string :=
  match hops, container with
  | S hops', Some c =>
      let t := elText c in
      let m := if (50 <? String.length t)%nat && (String.length t <? 2000)%nat
               then questionMatch t else None in
      match m with
      | Some m1 => Some (trim m1)
      | None => fallbackWalk hops' (parentElement c)
      end
  | _, _ => None
  end.

(** getQuestionText(radios), content.js:188; on an empty array the first loop
    does not run and radios[0].parentElement throws. *)
Definition getQuestionText (radios : list Element) : Completion string :=
  match radios with
  | [] => Abrupt
  | first :: _ =>
      Normal
        match mainWalk 20 (Some first) with
        | Some q => q
        | None =>
            match fallbackWalk 10 (parentElement first) with
            | Some q => q
            | None => placeholder
            end
        end
  end.

(** The containers the fallback loop reads, in order. *)
Fixpoint containers (hops : nat) (container : option Element) : list Element :=
  match hops, container with
  | S hops', Some c => c :: containers hops' (parentElement c)
  | _, _ => []
  end.

(** [q] is, trimmed, what stands in [t] between a "Question" and the first
    "Select an Answer" after it, in any letter case. *)
Definition Between (t q : string) : Prop :=
  exists pre opening ws inner closing post,
    t = pre ++ opening ++ ws ++ inner ++ closing ++ post
    /\ toLowerCase opening = "question"
    /\ allSpace ws = true
    /\ toLowerCase closing = "select an answer"
    /\ q = trim inner.

End QuestionText.

(* ------------------------------------------------------------------------- *)
(** ** content.js: getLabel *)

Module OptionLabel.
Import JsText Patterns.
Local Open Scope string_scope.

(** [A-F] under the i flag. *)
Definition isOptionLetter (c : ascii) : bool :=
  (65 <=? code (upperChar c))%N && (code (upperChar c) <=? 70)%N.

(** s.replace(/^[A-F]\.\s*/i, "") *)
Definition stripLetter (s : string) : string :=
  match s with
  | String c (String d r) =>
      if isOptionLetter c && (code d =? 46)%N then trimStart r else s
  | _ => s
  end.

(** clean(s) of a string, content.js:136 *)
Definition clean (s : string) : string := trim (stripLetter (trim s)).

(** The parent of the radio as getLabel reads it: the text of its children
    other than the radio, in order; its own text; and of its parent, if any,
    the children other than the parent itself, each with whether
    child.querySelector?.("input") finds something, and its text. *)
Record Parent : Type := mkParent {
  siblings : list string;
  parentText : string;
  grandparent : option (list (bool * string))
}.

(** The texts around a radio: of radio.closest("label"); of the label
    found for radio.id in the root node, a lookup that throws when the
    selector built from the id at content.js:150 is no selector (an id with a
    quote in it) and finds nothing when the id is empty; of
    radio.nextElementSibling; and the parent element. *)
Record Surroundings : Type := mkSurroundings {
  closestLabel : option string;
  labelFor : Completion (option string);
  nextElementSibling : option string;
  parentElement : option Parent
}.

(** txt.length > 3 *)
Definition substantial (txt : string) : bool := (3 <? String.length txt)%nat.

(** if (el) { const txt = clean(el.textContent); if (txt.length > 3) return txt; } *)
Definition orNext (text : option string) (next : string) : string :=
  match text with
  | Some t => if substantial (clean t) then clean t else next
  | None => next
  end.

(** for (const child of ...) { const txt = clean(child.textContent);
    if (txt.length > 3) return txt; } *)
Fixpoint firstOf (texts : list string) (next : string) : string :=
  match texts with
  | [] => next
  | t :: rest => if substantial (clean t) then clean t else firstOf rest next
  end.

Definition noLabel : string := "(no label)".

(** const txt = clean(parent?.textContent); return txt || "(no label)"; *)
Definition fallback (parent : option Parent) : string :=
  match clean (match parent with Some p => parentText p | None => "" end) with
  | EmptyString => noLabel
  | txt => txt
  end.

Definition withoutInputs (children : list (bool * string)) : list string :=
  map snd (filter (fun child => negb (fst child)) children).

(** Steps 3 to 6 of getLabel, content.js:157-185. *)
Definition fromSiblings (radio : Surroundings) : string :=
  orNext (nextElementSibling radio)
    match parentElement radio with
    | Some parent =>
        firstOf (siblings parent)
          match grandparent parent with
          | Some children => firstOf (withoutInputs children) (fallback (Some parent))
          | None => fallback (Some parent)
          end
    | None => fallback None
    end.

(** Step 2 and what follows, content.js:147-185. *)
Definition fromLabelFor (radio : Surroundings) : Completion string :=
  match labelFor radio with
  | Abrupt => Abrupt
  | Normal lbl => Normal (orNext lbl (fromSiblings radio))
  end.

(** getLabel(radio), content.js:135 *)
Definition getLabel (radio : Surroundings) : Completion string :=
  match closestLabel radio with
  | Some t => if substantial (clean t) then Normal (clean t) else fromLabelFor radio
  | None => fromLabelFor radio
  end.

Definition textOf (t : option string) : list string :=
  match t with Some s => [s] | None => [] end.

(** Every text getLabel may clean. *)
Definition textsRead (radio : Surroundings) : list string :=
  textOf (closestLabel radio)
  ++ match labelFor radio with Normal lbl => textOf lbl | Abrupt => [] end
  ++ textOf (nextElementSibling radio)
  ++ match parentElement radio with
     | Some parent =>
         siblings parent
         ++ match grandparent parent with
            | Some children => withoutInputs children
            | None => []
            end
         ++ [parentText parent]
     | None => []
     end.

End OptionLabel.

(* ------------------------------------------------------------------------- *)
(** ** options.js and the key check of background.js *)

Module Options.
Import JsText.
Local Open Scope string_scope.

(** What chrome.storage.sync holds under "openaiKey"; [None] when nothing was
    stored. *)
Definition Store : Type := option string.

Inductive Toast : Type :=
| pleaseEnter       (* "Please enter a valid API key." *)
| savedOk.          (* "Key saved successfully!" *)


(** The click listener of options.js:13 on an input holding [input]. *)
Definition onSave (store : Store) (input : string) : Store * Toast :=
  match trim input with
  | EmptyString => (store, pleaseEnter)
  | key => (Some key, savedOk)
  end.


(** background.js:17-22: the key the worker goes on with; [None] is the
    response { error: "No API key. Set it in extension Options." }. *)
Definition keyFor (store : Store) : option string :=
  match store with
  | Some (String c r) => Some (String c r)
  | _ => None
  end.


End Options.

(* ------------------------------------------------------------------------- *)
(** ** shadow-patch.js *)

Module ShadowPatch.
Import Dom Background.
Local Open Scope string_scope.

(** An object by its own enumerable properties. *)
Definition Props : Type := string -> option Json.

(** {} *)
Definition emptyObject : Props := fun _ => None.

(** { mode: "open" } *)
Definition modeOpen : Props :=
  fun key => if String.eqb key "mode" then Some (JStr "open") else None.

(** Object.assign(target, source); an undefined or null source is skipped. *)
Definition assign (target : Props) (source : option Props) : Props :=
  match source with
  | Some src => fun key => match src key with Some v => Some v | None => target key end
  | None => target
  end.

(** Object.assign({}, init, { mode: "open" }) for an init that is undefined,
    null or an object. *)
Definition patchedInit (init : option Props) : Props :=
  assign (assign emptyObject init) (Some modeOpen).

(** ToString of a value where the browser expects the name of an
    enumeration: a string is itself, and an array of one element reads as that
    element; every other value reads as a text that is no such name ("null",
    "true", digits, "[object Object]", the empty text, a text with a comma). *)
Fixpoint enumText (v : Json) : option string :=
  match v with
  | JStr s => Some s
  | JArr [x] => match x with JNull => None | _ => enumText x end
  | _ => None
  end.

(** The member slotAssignment of the init, when present, is "named" or
    "manual"; the browser throws a TypeError on any other value. *)
Definition validSlotAssignment (props : Props) : bool :=
  match props "slotAssignment" with
  | None => true
  | Some v =>
      match enumText v with
      | Some name => String.eqb name "named" || String.eqb name "manual"
      | None => false
      end
  end.

(** The host with its shadowRoot property set. *)
Definition withShadowRoot (host : Node) (root : option Root) : Node :=
  match host with
  | Elem t c a w h kids _ => Elem t c a w h kids root
  | Text d => Text d
  end.

(** The browser's attachShadow: the host afterwards, whose shadowRoot property
    is the new root for "open" and null for "closed".  It throws a TypeError
    on a receiver that is no element, on a missing init, on a mode that is
    neither "open" nor "closed" and on an invalid slotAssignment; it throws a
    NotSupportedError on an element that cannot receive a shadow root
    ([hostable] is false: its name does not allow one, or it has a closed one
    already) and on a host whose shadowRoot is set already. *)
Definition original (hostable : bool) (init : option Props) (host : Node) (content : Root)
  : Completion Node :=
  match init with
  | Some props =>
      match option_map enumText (props "mode") with
      | Some (Some mode) =>
          if isElement host
             && (String.eqb mode "open" || String.eqb mode "closed")
             && validSlotAssignment props
             && hostable
          then match shadowRoot host with
               | Some _ => Abrupt
               | None =>
                   Normal (withShadowRoot host
                             (if String.eqb mode "open" then Some content else None))
               end
          else Abrupt
      | _ => Abrupt
      end
  | None => Abrupt
  end.

(** Element.prototype.attachShadow after shadow-patch.js:11. *)
Definition attachShadow (hostable : bool) (init : option Props) (host : Node)
    (content : Root)
  : Completion Node :=
  original hostable (Some (patchedInit init)) host content.


End ShadowPatch.

(* ------------------------------------------------------------------------- *)
(** ** background.js: the askAI handler from the key to the response *)

Module Worker.
Import JsText Background Prompt Options.
Local Open Scope string_scope.

(** What the network gave the handler: something it awaited threw (fetch,
    res.text() or res.json()); a response with res.ok false; or a parsed
    body. *)
Inductive Fetched : Type :=
| rejected
| refused (status : nat) (text : string)
| parsed (data : Json).

Definition noKeyMessage : string := "No API key. Set it in extension Options.".

(** The request the handler makes, if it makes one: the Authorization header
    and the content of the user message. *)
Definition apiRequest (store : Store) (question : string) (options : list string)
  : option (string * string) :=
  match keyFor store with
  | Some key => Some ("Bearer " ++ key, prompt question options)
  | None => None
  end.

(** The response of the askAI handler, background.js:16-71, for a message
    whose options are an array; [message] is e.message of what the catch
    receives, if it is reached. *)
Definition askAIHandler (store : Store) (fetched : Fetched) (message : option string)
  : AskReply :=
  match keyFor store with
  | None => mkAskReply (Some noKeyMessage) None None
  | Some _ =>
      match fetched with
      | rejected => mkAskReply message None None
      | refused status text =>
          mkAskReply (Some ("OpenAI " ++ decimal status ++ ": " ++ text)) None None
      | parsed data =>
          match askAI_respond data with
          | SentIndex index raw => mkAskReply None (Some (Num index)) (Some raw)
          | SentError => mkAskReply message None None
          end
      end
  end.

End Worker.

(* ========================================================================= *)
(** * Properties *)

(* ------------------------------------------------------------------------- *)
(** ** The suggested index and the trial order *)

Module TrialOrder.
Import Solver.

Lemma In_indices (n : nat) (i : Z) : In i (indices n) <-> 0 <= i < Z.of_nat n.
Proof.
  unfold indices. rewrite in_map_iff. split.
  - intros [k [<- Hk]]. apply in_seq in Hk. lia.
  - intros Hi. exists (Z.to_nat i). split; [lia | apply in_seq; lia].
Qed.

Lemma indices_ascending_from (n s : nat) :
  StronglySorted Z.lt (map Z.of_nat (seq s n)).
Proof.
  revert s. induction n as [|n IH]; intros s; simpl; constructor.
  - apply IH.
  - apply Forall_forall. intros x Hx. apply in_map_iff in Hx.
    destruct Hx as [k [<- Hk]]. apply in_seq in Hk. lia.
Qed.

Lemma indices_ascending (n : nat) : StronglySorted Z.lt (indices n).
Proof. apply indices_ascending_from. Qed.

Lemma filter_ascending (f : Z -> bool) (l : list Z) :
  StronglySorted Z.lt l -> StronglySorted Z.lt (filter f l).
Proof.
  induction 1 as [|a l Hs IH Ha]; simpl; [constructor|].
  destruct (f a); [constructor|]; auto.
  apply Forall_forall. intros x Hx. apply filter_In in Hx.
  rewrite Forall_forall in Ha. apply Ha, Hx.
Qed.

Lemma ascending_NoDup (l : list Z) : StronglySorted Z.lt l -> NoDup l.
Proof.
  induction 1 as [|a l Hs IH Ha]; constructor; auto.
  intros Hin. rewrite Forall_forall in Ha. specialize (Ha a Hin). lia.
Qed.

Lemma indices_NoDup (n : nat) : NoDup (indices n).
Proof. apply ascending_NoDup, indices_ascending. Qed.

(** The rest of the order: exactly the indices other than the first. *)
Lemma In_rest (n : nat) (c i : Z) :
  In i (tl (trialOrder n c)) <-> 0 <= i < Z.of_nat n /\ i <> c.
Proof.
  simpl. rewrite filter_In, In_indices, negb_true_iff, Z.eqb_neq. tauto.
Qed.

Lemma rest_ascending (n : nat) (c : Z) : StronglySorted Z.lt (tl (trialOrder n c)).
Proof. simpl. apply filter_ascending, indices_ascending. Qed.

Lemma trialOrder_NoDup (n : nat) (c : Z) : NoDup (trialOrder n c).
Proof.
  unfold trialOrder. constructor.
  - rewrite filter_In, negb_true_iff, Z.eqb_neq. tauto.
  - apply ascending_NoDup, filter_ascending, indices_ascending.
Qed.

(** With the first index within bounds the order is a rearrangement of
    0 .. n-1. *)
Lemma trialOrder_Permutation (n : nat) (c : Z) :
  0 <= c < Z.of_nat n -> Permutation (trialOrder n c) (indices n).
Proof.
  intros Hc. apply NoDup_Permutation.
  - apply trialOrder_NoDup.
  - apply indices_NoDup.
  - intros i. rewrite In_indices. unfold trialOrder. simpl.
    rewrite filter_In, In_indices, negb_true_iff, Z.eqb_neq. lia.
Qed.

Lemma trialOrder_length (n : nat) (c : Z) :
  0 <= c < Z.of_nat n -> List.length (trialOrder n c) = n.
Proof.
  intros Hc. rewrite (Permutation_length (trialOrder_Permutation n c Hc)).
  unfold indices. now rewrite length_map, length_seq.
Qed.

Lemma aiChoiceOf_bounds (n : nat) (ix : option JsNumber) :
  (1 <= n)%nat -> 0 <= aiChoiceOf n ix < Z.of_nat n.
Proof. unfold aiChoiceOf. lia. Qed.

Lemma aiChoiceOf_within (n : nat) (k : Z) :
  0 <= k < Z.of_nat n -> aiChoiceOf n (Some (Num k)) = k.
Proof. unfold aiChoiceOf. simpl. lia. Qed.

End TrialOrder.

(* ------------------------------------------------------------------------- *)
(** ** The loop over the trial order *)

Module Trials.
Import Program Solver.

Section Loop.
Context {W : Type} (h : Handler Call W).

Ltac unfold_trial :=
  unfold trialHead, nextTrial, afterModal, modalAt, atModal, clickedAt, atCheck,
    selectionAt, atSelection in *;
  cbn [tryOptions run].

Lemma run_thrown i rest w :
  selectionAt h i w = Abrupt ->
  run h (tryOptions (i :: rest)) w
  = mkRun Abrupt (atSelection h i w) [Ev (selectRadio i) Abrupt].
Proof.
  intros Hs. unfold_trial. rewrite Hs. reflexivity.
Qed.

Lemma run_notClicked i rest w :
  selectionAt h i w = Normal tt ->
  clickedAt h i w = false ->
  run h (tryOptions (i :: rest)) w
  = mkRun (outcome (run h (tryOptions rest) (atModal h i w)))
          (world (run h (tryOptions rest) (atModal h i w)))
          (trialHead h i w ++ trace (run h (tryOptions rest) (atModal h i w))).
Proof.
  intros Hs Hc. unfold_trial. rewrite Hs. cbn [run]. rewrite Hc. reflexivity.
Qed.

Lemma run_correct i rest w :
  selectionAt h i w = Normal tt ->
  clickedAt h i w = true -> modalAt h i w = Normal correct ->
  run h (tryOptions (i :: rest)) w
  = mkRun (Normal (Solved i)) (afterModal h i w)
          (trialHead h i w ++ [Ev dismissModal (Normal correct)]).
Proof.
  intros Hs Hc Hm. unfold_trial. rewrite Hs. cbn [run]. rewrite Hc in *.
  cbn [negb run]. rewrite Hm. reflexivity.
Qed.

Lemma run_abrupt i rest w :
  selectionAt h i w = Normal tt ->
  clickedAt h i w = true -> modalAt h i w = Abrupt ->
  run h (tryOptions (i :: rest)) w
  = mkRun Abrupt (afterModal h i w) (trialHead h i w ++ [Ev dismissModal Abrupt]).
Proof.
  intros Hs Hc Hm. unfold_trial. rewrite Hs. cbn [run]. rewrite Hc in *.
  cbn [negb run]. rewrite Hm. reflexivity.
Qed.

Lemma run_notCorrect i rest w o :
  selectionAt h i w = Normal tt ->
  clickedAt h i w = true -> modalAt h i w = Normal o -> o <> correct ->
  run h (tryOptions (i :: rest)) w
  = mkRun (outcome (run h (tryOptions rest) (nextTrial h i w)))
          (world (run h (tryOptions rest) (nextTrial h i w)))
          (trialHead h i w
             ++ Ev dismissModal (Normal o)
             :: Ev (pause 500) (fst (h _ (pause 500) (afterModal h i w)))
             :: trace (run h (tryOptions rest) (nextTrial h i w))).
Proof.
  intros Hs Hc Hm Ho. unfold_trial. rewrite Hs. cbn [run]. rewrite Hc in *.
  cbn [negb run]. rewrite Hm.
  destruct o; [congruence | reflexivity | reflexivity].
Qed.


Lemma modalOutcomes_trialHead i w : modalOutcomes (trialHead h i w) = [].
Proof. reflexivity. Qed.

Lemma thrownSelections_trialHead i w :
  selectionAt h i w = Normal tt -> thrownSelections (trialHead h i w) = [].
Proof. intros Hs. unfold trialHead. rewrite Hs. reflexivity. Qed.

Lemma selected_app (s t : list (Event Call)) :
  selected (s ++ t) = selected s ++ selected t.
Proof. apply flat_map_app. Qed.

Lemma modalOutcomes_app (s t : list (Event Call)) :
  modalOutcomes (s ++ t) = modalOutcomes s ++ modalOutcomes t.
Proof. apply flat_map_app. Qed.

Lemma thrownSelections_app (s t : list (Event Call)) :
  thrownSelections (s ++ t) = thrownSelections s ++ thrownSelections t.
Proof. apply flat_map_app. Qed.

(** The five ways one trial can go. *)
Lemma trial_cases i w :
  selectionAt h i w = Abrupt
  \/ (selectionAt h i w = Normal tt /\ clickedAt h i w = false)
  \/ (selectionAt h i w = Normal tt /\ clickedAt h i w = true /\ modalAt h i w = Abrupt)
  \/ (selectionAt h i w = Normal tt /\ clickedAt h i w = true
      /\ modalAt h i w = Normal correct)
  \/ (selectionAt h i w = Normal tt /\ clickedAt h i w = true
      /\ exists o, modalAt h i w = Normal o /\ o <> correct).
Proof.
  destruct (selectionAt h i w) as [[]|]; [right | now left].
  destruct (clickedAt h i w); [right | now left].
  destruct (modalAt h i w) as [o|]; [|now left].
  right. destruct o; [now left | right | right];
    (split; [reflexivity | split; [reflexivity |
       eexists; split; [reflexivity | discriminate]]]).
Qed.

Ltac by_trial i w rest :=
  destruct (trial_cases i w)
    as [Hs | [[Hs Hc] | [[Hs [Hc Hm]] | [[Hs [Hc Hm]] | [Hs [Hc [o [Hm Ho]]]]]]]];
  [ rewrite (run_thrown i rest w Hs)
  | rewrite (run_notClicked i rest w Hs Hc)
  | rewrite (run_abrupt i rest w Hs Hc Hm)
  | rewrite (run_correct i rest w Hs Hc Hm)
  | rewrite (run_notCorrect i rest w o Hs Hc Hm Ho) ];
  cbn [outcome world trace].

(** One trial, read off the answers of the page: a throwing selection ends the
    run; a trial without Check Answer, or with an outcome other than
    "correct", goes on with the rest of the order; "correct" ends the run. *)
Lemma run_step i rest w :
  run h (tryOptions (i :: rest)) w
  = match selectionAt h i w with
    | Abrupt => mkRun Abrupt (atSelection h i w) [Ev (selectRadio i) Abrupt]
    | Normal _ =>
        if clickedAt h i w then
          match modalAt h i w with
          | Abrupt =>
              mkRun Abrupt (afterModal h i w)
                (trialHead h i w ++ [Ev dismissModal Abrupt])
          | Normal correct =>
              mkRun (Normal (Solved i)) (afterModal h i w)
                (trialHead h i w ++ [Ev dismissModal (Normal correct)])
          | Normal o =>
              let next := run h (tryOptions rest) (nextTrial h i w) in
              mkRun (outcome next) (world next)
                (trialHead h i w
                   ++ Ev dismissModal (Normal o)
                   :: Ev (pause 500) (fst (h _ (pause 500) (afterModal h i w)))
                   :: trace next)
          end
        else
          let next := run h (tryOptions rest) (atModal h i w) in
          mkRun (outcome next) (world next) (trialHead h i w ++ trace next)
    end.
Proof.
  by_trial i w rest; rewrite Hs; try rewrite Hc; try rewrite Hm; try reflexivity.
  destruct o; [congruence | reflexivity | reflexivity].
Qed.

(** Every option is tried at most once, in the order given. *)
Lemma selected_prefix order w :
  exists later, order = selected (trace (run h (tryOptions order) w)) ++ later.
Proof.
  revert w. induction order as [|i rest IH]; intros w.
  - now exists [].
  - by_trial i w rest; unfold selected in *; try rewrite flat_map_app; cbn.
    + now exists rest.
    + destruct (IH (atModal h i w)) as [later E]. exists later. congruence.
    + now exists rest.
    + now exists rest.
    + destruct (IH (nextTrial h i w)) as [later E]. exists later. congruence.
Qed.

Lemma loop_never_skips order w :
  outcome (run h (tryOptions order) w) <> Normal Skipped.
Proof.
  revert w. induction order as [|i rest IH]; intros w.
  - discriminate.
  - by_trial i w rest; auto; discriminate.
Qed.

(** The loop ends on Solved exactly when some modal outcome was "correct". *)
Lemma solved_iff_correct order w :
  (exists i, outcome (run h (tryOptions order) w) = Normal (Solved i))
  <-> In (Normal correct) (modalOutcomes (trace (run h (tryOptions order) w))).
Proof.
  revert w. induction order as [|i rest IH]; intros w.
  - cbn. split; [intros [i Hi]; discriminate | tauto].
  - by_trial i w rest; unfold modalOutcomes in *; try rewrite flat_map_app; cbn.
    + split; [intros [j Hj]; discriminate | tauto].
    + apply IH.
    + split; [intros [j Hj]; discriminate | intros [H|[]]; discriminate].
    + split; [now left | eauto].
    + rewrite IH. unfold modalOutcomes. split; [now right|].
      intros [H|H]; [congruence | exact H].
Qed.

(** On Solved the "correct" outcome is the last event, the only "correct"
    one, and the options tried are the order up to the solved option. *)
Lemma solved_stops order w i :
  outcome (run h (tryOptions order) w) = Normal (Solved i) ->
  exists pre tried later,
    trace (run h (tryOptions order) w) = pre ++ [Ev dismissModal (Normal correct)]
    /\ ~ In (Normal correct) (modalOutcomes pre)
    /\ selected (trace (run h (tryOptions order) w)) = tried ++ [i]
    /\ order = tried ++ i :: later.
Proof.
  revert w. induction order as [|j rest IH]; intros w.
  - discriminate.
  - by_trial j w rest; intros Hx; try discriminate.
    + destruct (IH _ Hx) as (pre & tried & later & Et & Hn & Es & Eo).
      exists (trialHead h j w ++ pre), (j :: tried), later.
      rewrite selected_app, modalOutcomes_app, Es, Et, Eo, <- app_assoc.
      repeat split; trivial.
    + injection Hx as <-. exists (trialHead h j w), [], rest.
      rewrite selected_app. cbn. intuition.
    + destruct (IH _ Hx) as (pre & tried & later & Et & Hn & Es & Eo).
      exists (trialHead h j w ++ Ev dismissModal (Normal o)
                :: Ev (pause 500) (fst (h _ (pause 500) (afterModal h j w))) :: pre),
             (j :: tried), later.
      rewrite selected_app, modalOutcomes_app.
      split; [rewrite Et, <- app_assoc; reflexivity|].
      split; [intros [H|H]; [congruence | exact (Hn H)]|].
      split; [|now rewrite Eo].
      change (j :: selected (trace (run h (tryOptions rest) (nextTrial h j w)))
              = (j :: tried) ++ [i]).
      now rewrite Es.
Qed.

(** The loop runs out only after every option of the order was selected. *)
Lemma exhausted_all order w :
  outcome (run h (tryOptions order) w) = Normal Exhausted ->
  selected (trace (run h (tryOptions order) w)) = order.
Proof.
  revert w. induction order as [|j rest IH]; intros w.
  - reflexivity.
  - by_trial j w rest; intros He; try discriminate;
      unfold selected in *; rewrite flat_map_app; cbn; f_equal; auto.
Qed.

(** The loop throws exactly when a selection or the modal threw; the throw is
    the last call of the run. *)
Lemma abrupt_iff_thrown order w :
  outcome (run h (tryOptions order) w) = Abrupt
  <-> thrownSelections (trace (run h (tryOptions order) w)) <> []
      \/ In Abrupt (modalOutcomes (trace (run h (tryOptions order) w))).
Proof.
  revert w. induction order as [|i rest IH]; intros w.
  - cbn. split; [discriminate | intros [H|[]]; congruence].
  - by_trial i w rest;
      rewrite ?thrownSelections_app, ?modalOutcomes_app,
        ?thrownSelections_trialHead, ?modalOutcomes_trialHead by exact Hs;
      cbn [app].
    + split; [intros _; left; discriminate | reflexivity].
    + apply IH.
    + split; [intros _; right; now left | reflexivity].
    + split; [discriminate|]. intros [H|[H|[]]]; [now elim H | discriminate].
    + rewrite IH. cbn.
      split; [intros [H|H]; [now left | right; now right]|].
      intros [H|[H|H]]; [now left | discriminate | now right].
Qed.

(** The loop runs out exactly when every option of the order was selected and
    nothing was "correct" and nothing threw. *)
Lemma exhausted_iff order w :
  outcome (run h (tryOptions order) w) = Normal Exhausted
  <-> selected (trace (run h (tryOptions order) w)) = order
      /\ thrownSelections (trace (run h (tryOptions order) w)) = []
      /\ ~ In (Normal correct) (modalOutcomes (trace (run h (tryOptions order) w)))
      /\ ~ In Abrupt (modalOutcomes (trace (run h (tryOptions order) w))).
Proof.
  split.
  - intros He. split; [now apply exhausted_all|].
    assert (Ha : outcome (run h (tryOptions order) w) <> Abrupt) by congruence.
    rewrite abrupt_iff_thrown in Ha.
    split; [destruct (thrownSelections _); [reflexivity | elim Ha; left; discriminate]|].
    split; [|intros H; apply Ha; now right].
    intros H. apply solved_iff_correct in H. destruct H as [i Hi]. congruence.
  - intros (_ & Ht & Hn & Ha).
    destruct (outcome (run h (tryOptions order) w)) as [[ |i| ]|] eqn:E.
    + now elim (loop_never_skips order w).
    + elim Hn. apply solved_iff_correct. now exists i.
    + reflexivity.
    + apply abrupt_iff_thrown in E. destruct E as [E|E]; [now elim E | now elim Ha].
Qed.



End Loop.

Section Unknown.
Context {W : Type} (h : Handler Call W).

Lemma modalAt_reportingWrong i w :
  modalAt (reportingWrong h) i w = unknownAsWrong (modalAt h i w).
Proof. reflexivity. Qed.

Lemma trialHead_reportingWrong i w :
  trialHead (reportingWrong h) i w = map eventAsWrong (trialHead h i w).
Proof. reflexivity. Qed.

(** Reporting "wrong" for "unknown" changes nothing but that report: same
    exit, same world, same calls. *)
Lemma run_reportingWrong order w :
  run (reportingWrong h) (tryOptions order) w
  = mkRun (outcome (run h (tryOptions order) w))
          (world (run h (tryOptions order) w))
          (map eventAsWrong (trace (run h (tryOptions order) w))).
Proof.
  revert w. induction order as [|i rest IH]; intros w.
  - reflexivity.
  - destruct (trial_cases h i w)
      as [Hs | [[Hs Hc] | [[Hs [Hc Hm]] | [[Hs [Hc Hm]] | [Hs [Hc [o [Hm Ho]]]]]]]].
    + rewrite (run_thrown h i rest w Hs).
      now rewrite (run_thrown (reportingWrong h) i rest w Hs).
    + rewrite (run_notClicked h i rest w Hs Hc).
      rewrite (run_notClicked (reportingWrong h) i rest w Hs Hc).
      cbn [outcome world trace]. rewrite map_app, trialHead_reportingWrong.
      change (atModal (reportingWrong h) i w) with (atModal h i w).
      now rewrite IH.
    + rewrite (run_abrupt h i rest w Hs Hc Hm).
      rewrite (run_abrupt (reportingWrong h) i rest w Hs Hc);
        [|now rewrite modalAt_reportingWrong, Hm].
      cbn [outcome world trace]. now rewrite map_app, trialHead_reportingWrong.
    + rewrite (run_correct h i rest w Hs Hc Hm).
      rewrite (run_correct (reportingWrong h) i rest w Hs Hc);
        [|now rewrite modalAt_reportingWrong, Hm].
      cbn [outcome world trace]. now rewrite map_app, trialHead_reportingWrong.
    + rewrite (run_notCorrect h i rest w o Hs Hc Hm Ho).
      assert (Hm' : modalAt (reportingWrong h) i w = Normal wrong)
        by (rewrite modalAt_reportingWrong, Hm;
            destruct o; [now elim Ho | reflexivity | reflexivity]).
      rewrite (run_notCorrect (reportingWrong h) i rest w wrong Hs Hc Hm')
        by discriminate.
      cbn [outcome world trace]. rewrite map_app, trialHead_reportingWrong.
      change (nextTrial (reportingWrong h) i w) with (nextTrial h i w).
      rewrite IH. cbn [outcome world trace map eventAsWrong].
      destruct o; [now elim Ho | reflexivity | reflexivity].
Qed.
End Unknown.

End Trials.

(* ------------------------------------------------------------------------- *)
(** ** solveOneQuestion *)

Module SolveOne.
Import Program Dom Solver Trials TrialOrder.

Section Question.
Variable getLabel : Element -> Completion string.
Variable getQuestionText : list Element -> string.
Context {W : Type} (h : Handler Call W).

Local Abbreviation solve := (solveOneQuestion getLabel getQuestionText).
Local Abbreviation callback := (aiCallback getLabel getQuestionText h).
Local Abbreviation answered := (atAnswer getLabel getQuestionText h).

Lemma incomplete_nonempty (radios : list Element) :
  isQuestionComplete radios = false -> (1 <= List.length radios)%nat.
Proof. destruct radios; [discriminate | simpl; lia]. Qed.

Lemma run_complete radios w :
  isQuestionComplete radios = true ->
  run h (solve radios) w = mkRun (Normal Skipped) w [].
Proof. intros Hc. unfold solveOneQuestion. now rewrite Hc. Qed.

Lemma run_label_throws radios w :
  isQuestionComplete radios = false ->
  labelsOf getLabel radios = Abrupt ->
  run h (solve radios) w = mkRun Abrupt w [].
Proof. intros Hc Hl. unfold solveOneQuestion. now rewrite Hc, Hl. Qed.

Lemma run_send_throws radios w labels :
  isQuestionComplete radios = false ->
  labelsOf getLabel radios = Normal labels ->
  callback radios w = Abrupt ->
  run h (solve radios) w
  = mkRun Abrupt (answered radios w)
      [Ev (sendAskAI (getQuestionText radios) labels) Abrupt].
Proof.
  intros Hc Hl Ha. unfold solveOneQuestion, aiCallback, atAnswer in *.
  rewrite Hc. rewrite Hl in *. cbn [askAI bind run]. rewrite Ha. reflexivity.
Qed.

Lemma run_incomplete radios w labels cb r :
  isQuestionComplete radios = false ->
  labelsOf getLabel radios = Normal labels ->
  callback radios w = Normal cb ->
  askAI_callback cb = Some r ->
  let order := trialOrder (List.length radios)
                 (aiChoiceOf (List.length radios) (index r)) in
  let loop := run h (tryOptions order) (answered radios w) in
  run h (solve radios) w
  = mkRun (outcome loop) (world loop)
      (Ev (sendAskAI (getQuestionText radios) labels) (Normal cb) :: trace loop).
Proof.
  intros Hc Hl Ha Hr. unfold solveOneQuestion, aiCallback, atAnswer in *.
  rewrite Hc. rewrite Hl in *. cbn [askAI bind run]. rewrite Ha.
  cbn [bind run]. rewrite Hr. reflexivity.
Qed.

Lemma run_unanswered radios w labels cb :
  isQuestionComplete radios = false ->
  labelsOf getLabel radios = Normal labels ->
  callback radios w = Normal cb ->
  askAI_callback cb = None ->
  run h (solve radios) w
  = mkRun Abrupt (answered radios w)
      [Ev (sendAskAI (getQuestionText radios) labels) (Normal cb)].
Proof.
  intros Hc Hl Ha Hr. unfold solveOneQuestion, aiCallback, atAnswer in *.
  rewrite Hc. rewrite Hl in *. cbn [askAI bind run]. rewrite Ha.
  cbn [bind run]. rewrite Hr. reflexivity.
Qed.

Lemma callback_of_labels radios w :
  labelsOf getLabel radios = Abrupt -> callback radios w = Abrupt.
Proof. intros Hl. unfold aiCallback. now rewrite Hl. Qed.

(** The four ways an incomplete group can go before the first trial. *)
Lemma solve_cases radios w :
  isQuestionComplete radios = false ->
  (labelsOf getLabel radios = Abrupt /\ callback radios w = Abrupt
     /\ run h (solve radios) w = mkRun Abrupt w [])
  \/ (exists labels,
        labelsOf getLabel radios = Normal labels /\ callback radios w = Abrupt
        /\ run h (solve radios) w
           = mkRun Abrupt (answered radios w)
               [Ev (sendAskAI (getQuestionText radios) labels) Abrupt])
  \/ (exists labels cb,
        labelsOf getLabel radios = Normal labels /\ callback radios w = Normal cb
        /\ askAI_callback cb = None
        /\ run h (solve radios) w
           = mkRun Abrupt (answered radios w)
               [Ev (sendAskAI (getQuestionText radios) labels) (Normal cb)])
  \/ (exists labels cb r,
        labelsOf getLabel radios = Normal labels /\ callback radios w = Normal cb
        /\ askAI_callback cb = Some r
        /\ let loop :=
             run h (tryOptions (trialOrder (List.length radios)
                                  (aiChoiceOf (List.length radios) (index r))))
               (answered radios w) in
           run h (solve radios) w
           = mkRun (outcome loop) (world loop)
               (Ev (sendAskAI (getQuestionText radios) labels) (Normal cb)
                  :: trace loop)).
Proof.
  intros Hc.
  destruct (labelsOf getLabel radios) as [labels|] eqn:Hl.
  2:{ left. split; [reflexivity|]. split; [now apply callback_of_labels|].
      now apply run_label_throws. }
  right. destruct (callback radios w) as [cb|] eqn:Ha.
  2:{ left. exists labels. split; [reflexivity|]. split; [reflexivity|].
      now apply run_send_throws. }
  right. destruct (askAI_callback cb) as [r|] eqn:Hr.
  - right. exists labels, cb, r. split; [reflexivity|]. split; [reflexivity|].
    split; [exact Hr|]. now apply run_incomplete.
  - left. exists labels, cb. split; [reflexivity|]. split; [reflexivity|].
    split; [exact Hr|]. now apply run_unanswered.
Qed.

(** The first option selected by the loop is the head of the order. *)
Lemma first_selected c rest w :
  hd_error (selected (trace (run h (tryOptions (c :: rest)) w))) = Some c.
Proof.
  destruct (trial_cases h c w)
    as [Hs | [[Hs Hc] | [[Hs [Hc Hm]] | [[Hs [Hc Hm]] | [Hs [Hc [o [Hm Ho]]]]]]]].
  - now rewrite (run_thrown h c rest w Hs).
  - now rewrite (run_notClicked h c rest w Hs Hc).
  - now rewrite (run_abrupt h c rest w Hs Hc Hm).
  - now rewrite (run_correct h c rest w Hs Hc Hm).
  - now rewrite (run_notCorrect h c rest w o Hs Hc Hm Ho).
Qed.

(** solveOneQuestion ends on Solved exactly when some modal outcome was
    "correct". *)
Lemma solve_solved_iff_correct radios w :
  (exists i, outcome (run h (solve radios) w) = Normal (Solved i))
  <-> In (Normal correct) (modalOutcomes (trace (run h (solve radios) w))).
Proof.
  destruct (isQuestionComplete radios) eqn:Hc.
  { rewrite (run_complete radios w Hc). cbn.
    split; [intros [i Hi]; discriminate | tauto]. }
  destruct (solve_cases radios w Hc)
    as [(_ & _ & E) | [(labels & _ & _ & E) | [(labels & cb & _ & _ & _ & E)
       | (labels & cb & r & _ & _ & _ & E)]]]; rewrite E.
  - cbn. split; [intros [i Hi]; discriminate | tauto].
  - cbn. split; [intros [i Hi]; discriminate | tauto].
  - cbn. split; [intros [i Hi]; discriminate | tauto].
  - cbn [outcome trace]. apply (solved_iff_correct h).
Qed.
End Question.

(** Starting from 0 the order is 0, 1, ..., n-1. *)
Lemma trialOrder_from_zero (n : nat) : (1 <= n)%nat -> trialOrder n 0 = indices n.
Proof.
  destruct n as [|m]; [lia | intros _].
  unfold trialOrder, indices. cbn [seq map filter Z.of_nat Z.eqb negb]. f_equal.
  apply forallb_filter_id, forallb_forall. intros x Hx.
  apply in_map_iff in Hx. destruct Hx as [k [<- Hk]]. apply in_seq in Hk.
  apply negb_true_iff, Z.eqb_neq. lia.
Qed.

End SolveOne.

(* ------------------------------------------------------------------------- *)
(** ** The Answer-and-Verify state machine: statements *)

Section AnswerAndVerify.
Import Program Dom Solver Trials TrialOrder SolveOne.

(** C1 (as the code has it). For a group of n >= 1 options and any index
    reported by the AI, the trial order starts with that index clamped into
    0 .. n-1, which is the reported index itself when it is within bounds; the
    rest of the order is strictly ascending and holds exactly the other
    indices; the order has no duplicates, omits no index and has length n. *)
Theorem trial_order_starts_with_clamped_index (n : nat) (ix : option JsNumber) :
  (1 <= n)%nat ->
  let k := aiChoiceOf n ix in
  let order := trialOrder n k in
  hd_error order = Some k
  /\ 0 <= k < Z.of_nat n
  /\ (forall z, ix = Some (Num z) -> 0 <= z < Z.of_nat n -> k = z)
  /\ StronglySorted Z.lt (tl order)
  /\ (forall i, In i (tl order) <-> 0 <= i < Z.of_nat n /\ i <> k)
  /\ NoDup order
  /\ (forall i, 0 <= i < Z.of_nat n -> In i order)
  /\ List.length order = n.
Proof.
  intros Hn k order.
  assert (Hk : 0 <= k < Z.of_nat n) by (apply aiChoiceOf_bounds, Hn).
  split; [reflexivity|]. split; [exact Hk|].
  split; [intros z -> Hz; apply aiChoiceOf_within, Hz|].
  split; [apply rest_ascending|]. split; [apply In_rest|].
  split; [apply trialOrder_NoDup|].
  split; [|apply trialOrder_length, Hk].
  intros i Hi. apply (Permutation_in i (Permutation_sym (trialOrder_Permutation n k Hk))).
  apply In_indices, Hi.
Qed.

Lemma trial_order_starts_with_clamped_index_witness :
  hd_error (trialOrder 4 (aiChoiceOf 4 (Some (Num 2)))) = Some (aiChoiceOf 4 (Some (Num 2)))
  /\ List.length (trialOrder 4 (aiChoiceOf 4 (Some (Num 2)))) = 4%nat.
Proof.
  pose proof (trial_order_starts_with_clamped_index 4 (Some (Num 2))
                ltac:(repeat constructor)) as H.
  split; [apply H | apply H].
Defined.

(** C1 as stated fails when the AI reports an index beyond the group: with
    four options and reported index 5 (letter F) the order is 3, 0, 1, 2. *)
Lemma trial_order_out_of_bounds_suggestion :
  trialOrder 4 (aiChoiceOf 4 (Some (Num 5))) = [3; 0; 1; 2]
  /\ hd_error (trialOrder 4 (aiChoiceOf 4 (Some (Num 5)))) <> Some 5
  /\ ~ In 5 (trialOrder 4 (aiChoiceOf 4 (Some (Num 5)))).
Proof.
  split; [reflexivity|]. split; [discriminate|].
  cbn. intros H. repeat (destruct H as [H|H]; [discriminate|]). exact H.
Qed.

(** C2. On a group the completion check reports complete, solveOneQuestion
    is the bare return: in every environment it makes no call at all (no
    selection, no Check Answer, no AI request) and leaves the world, hence
    the options' states, as it found it. *)
Theorem complete_group_is_skipped
    (getLabel : Element -> Completion string) (getQuestionText : list Element -> string)
    (radios : list Element) :
  isQuestionComplete radios = true ->
  solveOneQuestion getLabel getQuestionText radios = Ret Skipped
  /\ forall (W : Type) (h : Handler Call W) (w : W),
       run h (solveOneQuestion getLabel getQuestionText radios) w
       = mkRun (Normal Skipped) w [].
Proof.
  intros Hc. split.
  - unfold solveOneQuestion. now rewrite Hc.
  - intros W h w. now apply run_complete.
Qed.

Lemma complete_group_is_skipped_witness :
  isQuestionComplete Scenario.completeGroup = true
  /\ run (Scenario.quizPage (Scenario.aiSays 1 "B"))
         (solveOneQuestion Scenario.labelOf Scenario.questionOf Scenario.completeGroup)
         (Scenario.mkQuiz (Some 1) None)
     = mkRun (Normal Skipped) (Scenario.mkQuiz (Some 1) None) [].
Proof.
  split; [vm_compute; reflexivity|].
  apply (complete_group_is_skipped Scenario.labelOf Scenario.questionOf
           Scenario.completeGroup).
  vm_compute. reflexivity.
Defined.

(** C3. In every environment the loop over the trial order ends on Solved
    exactly when some modal outcome was "correct"; then that outcome is the
    last event of the run and the only "correct" one, and the options
    selected are the order up to the solved option. An environment that
    reports "wrong" wherever another reports "unknown" gives the same exit,
    the same world and the same calls. solveOneQuestion as a whole ends on
    Solved exactly when some modal outcome was "correct".

    Each trial goes one of five ways, by the answers of the page: the
    selection throws and the run ends there; Check Answer is not clicked and
    the run goes on with the rest of the order; the modal throws and the run
    ends; the modal says "correct" and the run ends on Solved for that
    option; the modal says "wrong" or "unknown" and the run goes on with the
    rest of the order after the pause. The empty order ends on Exhausted at
    once. The loop ends on Exhausted exactly when every option of the order
    was selected, in order, none was "correct" and nothing threw; it throws
    exactly when a selection or the modal threw; so the options selected fall
    short of the order only after "correct" or a throw. *)
Theorem loop_succeeds_only_on_correct
    (W : Type) (h : Handler Call W) (order : list Z) (w : W) :
  let r := run h (tryOptions order) w in
  ((exists i, outcome r = Normal (Solved i))
     <-> In (Normal correct) (modalOutcomes (trace r)))
  /\ (forall i, outcome r = Normal (Solved i) ->
        exists pre tried later,
          trace r = pre ++ [Ev dismissModal (Normal correct)]
          /\ ~ In (Normal correct) (modalOutcomes pre)
          /\ selected (trace r) = tried ++ [i]
          /\ order = tried ++ i :: later)
  /\ (exists later, order = selected (trace r) ++ later)
  /\ run (reportingWrong h) (tryOptions order) w
     = mkRun (outcome r) (world r) (map eventAsWrong (trace r))
  /\ (forall getLabel getQuestionText radios,
        let q := run h (solveOneQuestion getLabel getQuestionText radios) w in
        (exists i, outcome q = Normal (Solved i))
        <-> In (Normal correct) (modalOutcomes (trace q)))
  /\ (order = [] -> r = mkRun (Normal Exhausted) w [])
  /\ (forall i rest, order = i :: rest ->
        r = match selectionAt h i w with
            | Abrupt => mkRun Abrupt (atSelection h i w) [Ev (selectRadio i) Abrupt]
            | Normal _ =>
                if clickedAt h i w then
                  match modalAt h i w with
                  | Abrupt =>
                      mkRun Abrupt (afterModal h i w)
                        (trialHead h i w ++ [Ev dismissModal Abrupt])
                  | Normal correct =>
                      mkRun (Normal (Solved i)) (afterModal h i w)
                        (trialHead h i w ++ [Ev dismissModal (Normal correct)])
                  | Normal o =>
                      let next := run h (tryOptions rest) (nextTrial h i w) in
                      mkRun (outcome next) (world next)
                        (trialHead h i w
                           ++ Ev dismissModal (Normal o)
                           :: Ev (pause 500) (fst (h _ (pause 500) (afterModal h i w)))
                           :: trace next)
                  end
                else
                  let next := run h (tryOptions rest) (atModal h i w) in
                  mkRun (outcome next) (world next) (trialHead h i w ++ trace next)
            end)
  /\ (outcome r = Normal Exhausted
      <-> selected (trace r) = order
          /\ thrownSelections (trace r) = []
          /\ ~ In (Normal correct) (modalOutcomes (trace r))
          /\ ~ In Abrupt (modalOutcomes (trace r)))
  /\ (outcome r = Abrupt
      <-> thrownSelections (trace r) <> [] \/ In Abrupt (modalOutcomes (trace r)))
  /\ (selected (trace r) <> order ->
        In (Normal correct) (modalOutcomes (trace r))
        \/ thrownSelections (trace r) <> []
        \/ In Abrupt (modalOutcomes (trace r)))
  /\ outcome r <> Normal Skipped.
Proof.
  intros r. split; [apply solved_iff_correct|].
  split; [intros i; apply solved_stops|].
  split; [apply selected_prefix|].
  split; [apply run_reportingWrong|].
  split; [intros getLabel getQuestionText radios; apply solve_solved_iff_correct|].
  split; [intros ->; reflexivity|].
  split; [intros i rest ->; apply run_step|].
  split; [apply exhausted_iff|].
  split; [apply abrupt_iff_thrown|].
  split; [|apply loop_never_skips].
  intros Hne. subst r.
  destruct (outcome (run h (tryOptions order) w)) as [[ |i| ]|] eqn:E.
  - now elim (loop_never_skips h order w).
  - left. apply solved_iff_correct. now exists i.
  - elim Hne. now apply exhausted_all.
  - right. now apply abrupt_iff_thrown.
Qed.




(** C9. On a non-empty group of n options the index used for the first
    trial lies in 0 .. n-1 whatever the AI response holds: a missing, NaN or
    negative index gives 0 and an index of n or more gives n-1; in every run
    the first option selected is that index and is an option of the group. *)
Theorem first_trial_within_bounds
    (getLabel : Element -> Completion string) (getQuestionText : list Element -> string)
    (W : Type) (h : Handler Call W) (radios : list Element) (w : W) :
  radios <> [] ->
  let n := List.length radios in
  (forall ix, 0 <= aiChoiceOf n ix <= Z.of_nat n - 1)
  /\ aiChoiceOf n None = 0
  /\ aiChoiceOf n (Some NaN) = 0
  /\ (forall z, z < 0 -> aiChoiceOf n (Some (Num z)) = 0)
  /\ (forall z, Z.of_nat n <= z -> aiChoiceOf n (Some (Num z)) = Z.of_nat n - 1)
  /\ (forall i,
        hd_error (selected (trace (run h (solveOneQuestion getLabel getQuestionText radios) w)))
          = Some i ->
        (exists cb aiResult,
           aiCallback getLabel getQuestionText h radios w = Normal cb
           /\ askAI_callback cb = Some aiResult
           /\ i = aiChoiceOf n (index aiResult))
        /\ 0 <= i < Z.of_nat n
        /\ exists radio, nth_error radios (Z.to_nat i) = Some radio).
Proof.
  intros Hne n.
  assert (Hn : (1 <= n)%nat) by (subst n; destruct radios; [congruence | simpl; lia]).
  split; [intros ix; pose proof (aiChoiceOf_bounds n ix Hn); lia|].
  split; [unfold aiChoiceOf; simpl; lia|].
  split; [unfold aiChoiceOf; simpl; lia|].
  split; [intros z Hz; unfold aiChoiceOf; simpl; lia|].
  split; [intros z Hz; unfold aiChoiceOf; simpl; lia|].
  intros i Hi.
  destruct (isQuestionComplete radios) eqn:Hc.
  { rewrite (run_complete getLabel getQuestionText h radios w Hc) in Hi. discriminate. }
  destruct (solve_cases getLabel getQuestionText h radios w Hc)
    as [(_ & _ & E) | [(labels & _ & _ & E) | [(labels & cb & _ & _ & _ & E)
       | (labels & cb & aiResult & Hl & Hcb & Ha & E)]]];
    rewrite E in Hi; try discriminate.
  cbn [trace] in Hi.
  change (hd_error (selected (trace (run h
            (tryOptions (trialOrder n (aiChoiceOf n (index aiResult))))
            (atAnswer getLabel getQuestionText h radios w)))) = Some i) in Hi.
  unfold trialOrder in Hi. rewrite first_selected in Hi. injection Hi as <-.
  pose proof (aiChoiceOf_bounds n (index aiResult) Hn) as Hb.
  split; [exists cb, aiResult; now repeat split|]. split; [exact Hb|].
  destruct (nth_error radios (Z.to_nat (aiChoiceOf n (index aiResult)))) as [radio|] eqn:En.
  - now exists radio.
  - apply nth_error_None in En. fold n in En. lia.
Qed.

Lemma first_trial_within_bounds_witness :
  aiChoiceOf (List.length Scenario.fourOptions) (Some (Num 5)) = 3
  /\ aiChoiceOf (List.length Scenario.fourOptions) (Some (Num (-2))) = 0.
Proof.
  pose proof (first_trial_within_bounds Scenario.labelOf Scenario.questionOf
                Scenario.Quiz (Scenario.quizPage (Scenario.aiSays 5 "F"))
                Scenario.fourOptions (Scenario.mkQuiz (Some 3) None)
                ltac:(discriminate)) as H.
  split.
  - apply (proj1 (proj2 (proj2 (proj2 (proj2 H)))) 5). vm_compute. discriminate.
  - apply (proj1 (proj2 (proj2 (proj2 H))) (-2)). reflexivity.
Defined.

(** The scenarios of the specification on a group of four options: the AI
    says C and C is right; the AI says A and C is right; nothing is right. *)
Example ai_is_right_first_time :
  let r := run (Scenario.quizPage (Scenario.aiSays 2 "C"))
               (solveOneQuestion Scenario.labelOf Scenario.questionOf Scenario.fourOptions)
               (Scenario.mkQuiz (Some 2) None) in
  outcome r = Normal (Solved 2)
  /\ selected (trace r) = [2]
  /\ modalOutcomes (trace r) = [Normal correct].
Proof. cbv zeta. repeat split; vm_compute; reflexivity. Qed.

Example third_option_is_right :
  let r := run (Scenario.quizPage (Scenario.aiSays 0 "A"))
               (solveOneQuestion Scenario.labelOf Scenario.questionOf Scenario.fourOptions)
               (Scenario.mkQuiz (Some 2) None) in
  outcome r = Normal (Solved 2)
  /\ selected (trace r) = [0; 1; 2]
  /\ modalOutcomes (trace r) = [Normal wrong; Normal wrong; Normal correct].
Proof. cbv zeta. repeat split; vm_compute; reflexivity. Qed.

Example no_option_is_right :
  let r := run (Scenario.quizPage (Scenario.aiSays 1 "B"))
               (solveOneQuestion Scenario.labelOf Scenario.questionOf Scenario.fourOptions)
               (Scenario.mkQuiz None None) in
  outcome r = Normal Exhausted /\ selected (trace r) = [1; 0; 2; 3].
Proof. cbv zeta. repeat split; vm_compute; reflexivity. Qed.

End AnswerAndVerify.

(* ------------------------------------------------------------------------- *)
(** ** Deep traversal *)

Module DeepFind.
Import Dom.

Lemma lightElements_isElement (n el : Node) :
  In el (lightElements n) -> isElement el = true.
Proof.
  induction n as [d | t c a w h kids sr IHk _] using Node_nested_ind; simpl.
  - tauto.
  - intros [<- | Hin]; [reflexivity|].
    apply in_flat_map in Hin. destruct Hin as [k [Hk Hel]].
    rewrite Forall_forall in IHk. now apply (IHk k).
Qed.

Lemma querySelectorAll_all (root : Root) :
  querySelectorAll root SelAll = flat_map lightElements root.
Proof.
  unfold querySelectorAll. apply forallb_filter_id, forallb_forall.
  intros el Hin. apply in_flat_map in Hin. destruct Hin as [n [_ Hel]].
  unfold matches. now rewrite (lightElements_isElement n el Hel).
Qed.

Lemma flat_map_ext_in {A B} (f g : A -> list B) (l : list A) :
  (forall x, In x l -> f x = g x) -> flat_map f l = flat_map g l.
Proof.
  induction l as [|x l IH]; simpl; intros H; [reflexivity|].
  rewrite (H x) by now left. f_equal. apply IH. intros y Hy. apply H. now right.
Qed.

Lemma flat_map_flat_map {A B C} (f : B -> list C) (g : A -> list B) (l : list A) :
  flat_map f (flat_map g l) = flat_map (fun x => flat_map f (g x)) l.
Proof.
  induction l as [|x l IH]; simpl; [reflexivity|].
  now rewrite flat_map_app, IH.
Qed.

Lemma shadowFinds_light (sel : Selector) (n : Node) :
  shadowFinds sel n = flat_map (inShadowOf sel) (lightElements n).
Proof.
  induction n as [d | t c a w h kids sr IHk _] using Node_nested_ind.
  - reflexivity.
  - cbn [shadowFinds lightElements flat_map]. f_equal.
    rewrite flat_map_flat_map. apply flat_map_ext_in.
    intros k Hk. rewrite Forall_forall in IHk. now apply IHk.
Qed.

(** The equation of the source: the matches of the root, then, for each
    element of the root in document order that has a shadow root, the
    deepFind of that shadow root. *)
Lemma deepFind_unfold (root : Root) (sel : Selector) :
  deepFind root sel
  = querySelectorAll root sel
      ++ flat_map (fun el => match shadowRoot el with
                             | Some sr => deepFind sr sel
                             | None => []
                             end)
                  (querySelectorAll root SelAll).
Proof.
  unfold deepFind at 1. f_equal.
  rewrite querySelectorAll_all, flat_map_flat_map.
  apply flat_map_ext_in. intros n _. apply shadowFinds_light.
Qed.

Lemma Contains_inv (n el : Node) :
  Contains n el <->
  el = n
  \/ (exists k, In k (childNodes n) /\ Contains k el)
  \/ (exists s k, shadowRoot n = Some s /\ In k s /\ Contains k el).
Proof.
  split.
  - intros H. destruct H; eauto 8.
  - intros [-> | [[k [Hk Hc]] | [s [k [Hs [Hk Hc]]]]]];
      eauto using contains_self, contains_child, contains_shadow.
Qed.

Lemma In_deepFind_below (root : Root) (sel : Selector) (el : Node) :
  In el (deepFind root sel) <-> exists n, In n root /\ In el (foundBelow sel n).
Proof.
  unfold deepFind, querySelectorAll, foundBelow.
  rewrite in_app_iff, filter_In, !in_flat_map. split.
  - intros [[[n [Hn Hel]] Hm] | [n [Hn Hel]]]; exists n;
      rewrite in_app_iff, filter_In; tauto.
  - intros [n [Hn Hel]]. rewrite in_app_iff, filter_In in Hel.
    destruct Hel as [[Hel Hm] | Hel]; eauto.
Qed.

Lemma foundBelow_Contains (sel : Selector) (n el : Node) :
  In el (foundBelow sel n) <-> Contains n el /\ matches sel el = true.
Proof.
  revert el.
  induction n as [d | t c a w h kids sr IHk IHs] using Node_nested_ind; intros el.
  - cbn. split; [tauto|]. intros [Hc Hm]. apply Contains_inv in Hc.
    destruct Hc as [-> | [[k [[] _]] | [s [k [Hs _]]]]]; discriminate.
  - rewrite Forall_forall in IHk.
    assert (Hkids : (exists k, In k kids /\ In el (foundBelow sel k))
                    <-> In el (filter (matches sel) (flat_map lightElements kids))
                        \/ In el (flat_map (shadowFinds sel) kids)).
    { rewrite <- (In_deepFind_below kids sel el). unfold deepFind, querySelectorAll.
      now rewrite in_app_iff. }
    rewrite Contains_inv. unfold foundBelow.
    cbn [lightElements shadowFinds filter childNodes shadowRoot].
    split.
    + intros Hin. apply in_app_iff in Hin. destruct Hin as [Hin | Hin].
      * destruct (matches sel (Elem t c a w h kids sr)) eqn:Hm.
        -- destruct Hin as [<- | Hin]; [tauto|].
           destruct (proj2 Hkids (or_introl Hin)) as [k [Hk Hf]].
           apply IHk in Hf; trivial. destruct Hf. eauto 8.
        -- destruct (proj2 Hkids (or_introl Hin)) as [k [Hk Hf]].
           apply IHk in Hf; trivial. destruct Hf. eauto 8.
      * apply in_app_iff in Hin. destruct Hin as [Hin | Hin].
        -- destruct sr as [s|]; [|destruct Hin].
           rewrite Forall_forall in IHs.
           fold (querySelectorAll s sel) in Hin. fold (deepFind s sel) in Hin.
           apply In_deepFind_below in Hin. destruct Hin as [k [Hk Hf]].
           apply IHs in Hf; trivial. destruct Hf. eauto 10.
        -- destruct (proj2 Hkids (or_intror Hin)) as [k [Hk Hf]].
           apply IHk in Hf; trivial. destruct Hf. eauto 8.
    + intros [[-> | [[k [Hk Hc]] | [s [k [Hs [Hk Hc]]]]]] Hm].
      * rewrite Hm. apply in_app_iff. left. now left.
      * assert (Hf : In el (foundBelow sel k)) by (apply IHk; auto).
        destruct (proj1 Hkids (ex_intro _ k (conj Hk Hf))) as [Hl | Hr].
        -- apply in_app_iff. left.
           destruct (matches sel (Elem t c a w h kids sr)); [now right | exact Hl].
        -- apply in_app_iff. right. apply in_app_iff. now right.
      * subst sr. rewrite Forall_forall in IHs.
        assert (Hf : In el (foundBelow sel k)) by (apply IHs; auto).
        apply in_app_iff. right. apply in_app_iff. left.
        fold (querySelectorAll s sel). fold (deepFind s sel).
        apply In_deepFind_below. eauto.
Qed.

(** deepFind finds exactly the elements of the tree, at any depth of shadow
    nesting, that match the selector. *)
Lemma deepFind_spec (root : Root) (sel : Selector) (el : Node) :
  In el (deepFind root sel) <-> InDeep root el /\ matches sel el = true.
Proof.
  rewrite In_deepFind_below. unfold InDeep. split.
  - intros [n [Hn Hf]]. apply foundBelow_Contains in Hf. destruct Hf. eauto.
  - intros [[n [Hn Hc]] Hm]. exists n. split; trivial.
    now apply foundBelow_Contains.
Qed.

End DeepFind.

(* ------------------------------------------------------------------------- *)
(** ** Text matching *)

Module TextFacts.
Import JsText Patterns.
Local Open Scope string_scope.

Lemma startsWith_spec (p s : string) :
  startsWith p s = true <-> exists post, s = p ++ post.
Proof.
  revert s. induction p as [|a p IH]; intros s; simpl.
  - split; [intros _; now exists s | trivial].
  - destruct s as [|b s].
    + split; [discriminate | intros [post E]; discriminate].
    + rewrite andb_true_iff, Ascii.eqb_eq, IH. split.
      * intros [-> [post ->]]. now exists post.
      * intros [post E]. injection E as -> ->. eauto.
Qed.

(** includes is the substring test. *)
Lemma includes_spec (s p : string) :
  includes s p = true <-> exists pre post, s = pre ++ p ++ post.
Proof.
  induction s as [|c s IH].
  - simpl. rewrite orb_false_r, startsWith_spec. split.
    + intros [post E]. now exists "", post.
    + intros [pre [post E]]. destruct pre; [now exists post | discriminate].
  - cbn [includes]. rewrite orb_true_iff, startsWith_spec, IH. split.
    + intros [[post E] | [pre [post E]]].
      * now exists "", post.
      * exists (String c pre), post. simpl. now rewrite E.
    + intros [pre [post E]]. destruct pre as [|a pre].
      * left. now exists post.
      * right. injection E as _ E. eauto.
Qed.

Lemma smap_append (f : ascii -> ascii) (s t : string) :
  smap f (s ++ t) = smap f s ++ smap f t.
Proof. induction s as [|c s IH]; simpl; [reflexivity | now rewrite IH]. Qed.

(** A folded text cut in two comes from the text cut in two. *)
Lemma smap_split (f : ascii -> ascii) (p s post : string) :
  smap f s = p ++ post ->
  exists s1 s2, s = s1 ++ s2 /\ smap f s1 = p /\ smap f s2 = post.
Proof.
  revert s. induction p as [|a p IH]; intros s E.
  - exists "", s. now repeat split.
  - destruct s as [|c s]; [discriminate|]. simpl in E. injection E as Ea E.
    destruct (IH s E) as (s1 & s2 & -> & H1 & H2).
    exists (String c s1), s2. simpl. rewrite H1, Ea. now repeat split.
Qed.

(** A text that contains the pattern as written passes the case-insensitive
    test. *)
Lemma testLiteralI_contains (p pre post : string) :
  testLiteralI p (pre ++ p ++ post) = true.
Proof.
  unfold testLiteralI, toLowerCase. apply includes_spec.
  exists (smap lowerChar pre), (smap lowerChar post).
  now rewrite !smap_append.
Qed.

Lemma afterPrefix_spec (p s rest : string) :
  afterPrefix p s = Some rest <-> s = p ++ rest.
Proof.
  revert s. induction p as [|a p IH]; intros s; simpl.
  - split; [now intros [= ->] | now intros ->].
  - destruct s as [|b s]; [split; discriminate|].
    destruct (Ascii.eqb_spec a b) as [->|Hab].
    + rewrite IH. split; [now intros -> | now intros [= ->]].
    + split; [discriminate | intros [= E _]; congruence].
Qed.

Lemma lastChar_append (prev : option ascii) (s t : string) :
  lastChar prev (s ++ t) = lastChar (lastChar prev s) t.
Proof. revert prev. induction s as [|c s IH]; intros prev; simpl; auto. Qed.

Lemma append_assoc (a b c : string) : (a ++ b) ++ c = a ++ b ++ c.
Proof. induction a as [|x a IH]; simpl; [reflexivity | now rewrite IH]. Qed.

Lemma append_nil_r (a : string) : a ++ "" = a.
Proof. induction a as [|x a IH]; simpl; [reflexivity | now rewrite IH]. Qed.

Lemma trimStart_split (s : string) :
  exists ws, s = ws ++ trimStart s /\ allSpace ws = true.
Proof.
  induction s as [|c s [ws [E Hws]]]; simpl.
  - now exists "".
  - destruct (isSpace c) eqn:Hc.
    + exists (String c ws). simpl. rewrite Hc, Hws. split; [now rewrite <- E | reflexivity].
    + now exists "".
Qed.

Lemma trimEnd_split (s : string) :
  exists ws, s = trimEnd s ++ ws /\ allSpace ws = true.
Proof.
  induction s as [|c s [ws [E Hws]]]; simpl.
  - now exists "".
  - destruct (trimEnd s) as [|d r] eqn:Et.
    + destruct (isSpace c) eqn:Hc.
      * exists (String c ws). simpl in *. rewrite Hc, Hws. split; [now rewrite <- E | reflexivity].
      * exists ws. simpl in *. split; [now rewrite <- E | exact Hws].
    + exists ws. split; [|exact Hws]. simpl in *. now rewrite <- E.
Qed.

(** trim() keeps a piece of the text. *)
Lemma trim_split (s : string) :
  exists pre post, s = pre ++ trim s ++ post /\ allSpace pre = true /\ allSpace post = true.
Proof.
  destruct (trimStart_split s) as [pre [E1 H1]].
  destruct (trimEnd_split (trimStart s)) as [post [E2 H2]].
  exists pre, post. unfold trim. split; [|now split]. now rewrite <- E2.
Qed.

Lemma trimStart_skip (ws rest : string) :
  allSpace ws = true -> trimStart (ws ++ rest) = trimStart rest.
Proof.
  induction ws as [|c ws IH]; simpl; [reflexivity|].
  intros H. apply andb_true_iff in H. destruct H as [Hc Hws]. rewrite Hc. now apply IH.
Qed.

Lemma trimStart_fixed (s : string) : headIsSpace s = false -> trimStart s = s.
Proof. destruct s as [|c s]; simpl; [reflexivity | now intros ->]. Qed.

Lemma isSpace_lowerChar (c : ascii) : isSpace (lowerChar c) = isSpace c.
Proof. destruct c as [[] [] [] [] [] [] [] []]; reflexivity. Qed.

Lemma lastChar_smap (f : ascii -> ascii) (prev : option ascii) (s : string) :
  lastChar (option_map f prev) (smap f s) = option_map f (lastChar prev s).
Proof.
  revert prev. induction s as [|c s IH]; intros prev; simpl; [reflexivity|].
  exact (IH (Some c)).
Qed.

(** A text with a last character is what comes before it and that character. *)
Lemma lastChar_split (s : string) (c : ascii) :
  lastChar None s = Some c -> exists front, s = front ++ String c "".
Proof.
  assert (H : forall prev, lastChar prev s = Some c ->
                (s = "" /\ prev = Some c) \/ exists front, s = front ++ String c "").
  { induction s as [|a s IH]; intros prev; simpl.
    - intros ->. now left.
    - intros E. right. destruct (IH (Some a) E) as [[-> [= ->]] | [front ->]].
      + now exists "".
      + now exists (String a front). }
  intros E. destruct (H None E) as [[_ Hx] | Hx]; [discriminate | exact Hx].
Qed.

Lemma trimEnd_cons_kept (c : ascii) (s : string) :
  isSpace c = false -> trimEnd (String c s) = String c (trimEnd s).
Proof. intros Hc. simpl. destruct (trimEnd s); [now rewrite Hc | reflexivity]. Qed.

Lemma trimEnd_append_kept (x t : string) :
  trimEnd t <> "" -> trimEnd (x ++ t) = x ++ trimEnd t.
Proof.
  intros Ht. induction x as [|a x IH]; simpl; [reflexivity|].
  rewrite IH. destruct (x ++ trimEnd t) as [|d r] eqn:E; [|reflexivity].
  destruct x; simpl in E; [now elim Ht | discriminate].
Qed.

(** trim() keeps a piece of the text that neither begins nor ends with white
    space, wherever it stands. *)
Lemma trim_keeps (pre mid post : string) (c : ascii) :
  headIsSpace mid = false -> lastChar None mid = Some c -> isSpace c = false ->
  exists pre' post', trim (pre ++ mid ++ post) = pre' ++ mid ++ post'.
Proof.
  intros Hh Hl Hc.
  assert (Hs : exists pre', trimStart (pre ++ mid ++ post) = pre' ++ mid ++ post).
  { induction pre as [|a pre IH]; simpl.
    - exists "". simpl. apply trimStart_fixed.
      destruct mid; [discriminate | exact Hh].
    - destruct (isSpace a); [exact IH | now exists (String a pre)]. }
  destruct Hs as [pre' Es]. destruct (lastChar_split mid c Hl) as [front ->].
  exists pre', (trimEnd post). unfold trim. rewrite Es.
  rewrite !append_assoc. rewrite <- (append_assoc pre' front).
  rewrite trimEnd_append_kept; cbn [append]; rewrite trimEnd_cons_kept by exact Hc;
    [now rewrite append_assoc | discriminate].
Qed.

Section WholeWord.
(** A pattern that begins and ends with a word character. *)
Variables (a : ascii) (p' : string).
Let p := String a p'.
Hypothesis first_word : isWordChar a = true.
Hypothesis last_word : isWord (lastChar None p) = true.

Lemma last_of_pattern :
  last (list_ascii_of_string p) "000"%char
  = match lastChar None p with Some c => c | None => "000"%char end.
Proof.
  unfold p. clear first_word last_word p.
  change (lastChar None (String a p')) with (lastChar (Some a) p').
  revert a. induction p' as [|b q IH]; intros a; [reflexivity|].
  cbn [list_ascii_of_string lastChar]. rewrite <- IH. reflexivity.
Qed.

Lemma wordMatchHere_spec (prev : option ascii) (s : string) :
  wordMatchHere p prev s = true
  <-> exists post, s = p ++ post /\ isWord prev = false /\ headIsWord post = false.
Proof.
  unfold wordMatchHere. destruct (afterPrefix p s) as [rest|] eqn:E.
  - apply afterPrefix_spec in E. subst s.
    assert (Hl : isWordChar (last (list_ascii_of_string p) "000"%char) = true).
    { rewrite last_of_pattern. unfold isWord in last_word.
      destruct (lastChar None p); [exact last_word | discriminate]. }
    change (match p with
            | EmptyString => prev
            | String _ _ => Some (last (list_ascii_of_string p) "000"%char)
            end) with (Some (last (list_ascii_of_string p) "000"%char)).
    unfold boundary. fold (isWord prev).
    change (headIsWord (p ++ rest)) with (isWordChar a).
    rewrite first_word, Hl.
    rewrite andb_true_iff, !xorb_true_r, !negb_true_iff. split.
    + intros [Hp Hr]. now exists rest.
    + intros [post [Ep [Hp Hr]]].
      assert (post = rest) by (revert Ep; clear; induction p as [|c q IH];
                               simpl; [congruence | intros [= E]; auto]).
      subst post. tauto.
  - rewrite andb_false_r. split; [discriminate|].
    intros [post [Ep _]]. apply afterPrefix_spec in Ep. congruence.
Qed.

(** \bp\b matches somewhere: p occurs with no word character on either side. *)
Lemma wordSearch_spec (prev : option ascii) (s : string) :
  wordSearch p prev s = true
  <-> exists pre post,
        s = pre ++ p ++ post
        /\ isWord (lastChar prev pre) = false
        /\ headIsWord post = false.
Proof.
  revert prev. induction s as [|c s IH]; intros prev.
  - cbn [wordSearch]. rewrite orb_false_r, wordMatchHere_spec. split.
    + intros [post [E [Hp Hh]]]. now exists "", post.
    + intros [pre [post [E [Hp Hh]]]]. destruct pre; [|discriminate]. eauto.
  - cbn [wordSearch]. rewrite orb_true_iff, wordMatchHere_spec, IH. split.
    + intros [[post [E [Hp Hh]]] | [pre [post [E [Hp Hh]]]]].
      * now exists "", post.
      * exists (String c pre), post. simpl. now rewrite E.
    + intros [pre [post [E [Hp Hh]]]]. destruct pre as [|b pre].
      * left. exists post. auto.
      * right. injection E as -> E. exists pre, post. auto.
Qed.
End WholeWord.

End TextFacts.

(* ------------------------------------------------------------------------- *)
(** ** The completion check *)

Module CompletionOracle.
Import JsText Dom TextFacts.
Local Open Scope string_scope.

Lemma walkNodes_length (hops : nat) (el : option Element) :
  (List.length (walkNodes hops el) <= hops)%nat.
Proof.
  revert el. induction hops as [|k IH]; intros [e|]; simpl; try lia.
  specialize (IH (stepUp e)). lia.
Qed.

(** The loop returns what the first decisive node it inspects says. *)
Lemma walkUp_first_decisive (hops : nat) (el : option Element) :
  walkUp hops el
  = match find decisive (walkNodes hops el) with
    | Some node => verdict (elText node)
    | None => None
    end.
Proof.
  revert el. induction hops as [|k IH]; intros [e|]; simpl; try reflexivity.
  unfold decisive at 1. destruct (verdict (elText (inspected e))) eqn:E.
  - now rewrite E.
  - apply IH.
Qed.

Lemma find_first {A} (f : A -> bool) (pre : list A) (x : A) (post : list A) :
  (forall y, In y pre -> f y = false) -> f x = true ->
  find f (pre ++ x :: post)%list = Some x.
Proof.
  induction pre as [|y pre IH]; simpl; intros Hpre Hx.
  - now rewrite Hx.
  - rewrite (Hpre y) by now left. apply IH; auto.
Qed.

Lemma find_none {A} (f : A -> bool) (l : list A) :
  (forall y, In y l -> f y = false) -> find f l = None.
Proof.
  induction l as [|y l IH]; simpl; intros H; [reflexivity|].
  rewrite (H y) by now left. apply IH. auto.
Qed.

Lemma decisive_spec (node : Element) :
  decisive node
  = testLiteralI "Check Your Understanding" (elText node)
    && (testLiteralI "INCOMPLETE" (elText node) || testWordI "COMPLETE" (elText node)).
Proof.
  unfold decisive, verdict.
  destruct (testLiteralI "Check Your Understanding" (elText node)),
           (testLiteralI "INCOMPLETE" (elText node)),
           (testWordI "COMPLETE" (elText node)); reflexivity.
Qed.

Lemma verdict_of_decisive (node : Element) :
  decisive node = true ->
  verdict (elText node) = Some (negb (testLiteralI "INCOMPLETE" (elText node)))
  /\ (testLiteralI "INCOMPLETE" (elText node) = false ->
      testWordI "COMPLETE" (elText node) = true).
Proof.
  unfold decisive, verdict.
  destruct (testLiteralI "Check Your Understanding" (elText node)),
           (testLiteralI "INCOMPLETE" (elText node)),
           (testWordI "COMPLETE" (elText node)); simpl; intros H;
    try discriminate; split; auto.
Qed.

(** /\bCOMPLETE\b/i: the word occurs, in any case, with no word character
    right before or after it. *)
Lemma testWordI_COMPLETE (t : string) :
  testWordI "COMPLETE" t = true
  <-> exists pre post,
        toLowerCase t = pre ++ "complete" ++ post
        /\ isWord (lastChar None pre) = false
        /\ headIsWord post = false.
Proof.
  unfold testWordI.
  change (toLowerCase "COMPLETE") with "complete".
  apply (wordSearch_spec "c" "omplete"); reflexivity.
Qed.

(** C5 (as the code has it). The walk inspects at most 20 nodes, starting
    from the first option: the host of the enclosing shadow tree when there
    is one, else the element itself, then moving to that host or to the
    parent. The first inspected node whose text holds "Check Your
    Understanding" and either "INCOMPLETE" or the whole word "COMPLETE" (all
    three in any letter case) decides: false on "INCOMPLETE", which is
    looked for first, true otherwise. When no inspected node decides, the
    result is true exactly when every option of the group is disabled. *)
Theorem isQuestionComplete_first_decisive_node (radios : list Element) :
  let nodes := walkNodes 20 (head radios) in
  (List.length nodes <= 20)%nat
  /\ (forall node,
        decisive node
        = testLiteralI "Check Your Understanding" (elText node)
          && (testLiteralI "INCOMPLETE" (elText node)
              || testWordI "COMPLETE" (elText node)))
  /\ (forall t,
        testWordI "COMPLETE" t = true
        <-> exists pre post,
              toLowerCase t = pre ++ "complete" ++ post
              /\ isWord (lastChar None pre) = false
              /\ headIsWord post = false)
  /\ (forall pre node post,
        nodes = (pre ++ node :: post)%list ->
        (forall p, In p pre -> decisive p = false) ->
        decisive node = true ->
        isQuestionComplete radios = negb (testLiteralI "INCOMPLETE" (elText node)))
  /\ ((forall node, In node nodes -> decisive node = false) ->
      isQuestionComplete radios = forallb disabled radios).
Proof.
  intros nodes.
  split; [apply walkNodes_length|].
  split; [apply decisive_spec|].
  split; [apply testWordI_COMPLETE|].
  unfold isQuestionComplete. rewrite walkUp_first_decisive. fold nodes. split.
  - intros pre node post E Hpre Hd.
    rewrite E, (find_first decisive pre node post Hpre Hd).
    now rewrite (proj1 (verdict_of_decisive node Hd)).
  - intros Hn. now rewrite (find_none decisive nodes Hn).
Qed.

(** C5 as stated fails on a container that reads "Check Your Understanding
    COMPLETED": the text contains COMPLETE and not INCOMPLETE, yet the check
    falls through to the options, which are enabled, and answers false. *)
Lemma completed_is_not_the_word_complete :
  let parent := mkElement "Check Your Understanding COMPLETED" false None None in
  let radios := [mkElement "" false (Some parent) None;
                 mkElement "" false (Some parent) None] in
  In parent (walkNodes 20 (head radios))
  /\ includes (elText parent) "Check Your Understanding" = true
  /\ includes (elText parent) "COMPLETE" = true
  /\ includes (elText parent) "INCOMPLETE" = false
  /\ isQuestionComplete radios = false.
Proof.
  cbv zeta. split; [right; left; reflexivity|].
  repeat split; vm_compute; reflexivity.
Qed.

End CompletionOracle.

(* ------------------------------------------------------------------------- *)
(** ** Local modal resolution *)

Module ModalResolution.
Import JsText Dom Patterns ModalWords DeepFind TextFacts.
Local Open Scope string_scope.

(** The visibility test of the keyword steps: the width is read first; a
    read that throws makes the control visible; otherwise both readings must
    be positive. *)
Lemma visibleWH_spec (b : Node) :
  visibleWH b = true
  <-> offsetWidth b = Raises
      \/ (exists w, offsetWidth b = Px w /\ 0 < w
                    /\ (offsetHeight b = Raises
                        \/ exists h, offsetHeight b = Px h /\ 0 < h)).
Proof.
  unfold visibleWH. destruct (offsetWidth b) as [w|].
  2:{ split; [now left | reflexivity]. }
  destruct (Z.ltb_spec 0 w) as [Hw|Hw].
  2:{ split; [discriminate|].
      intros [H | [w' [E [Hw' _]]]]; [discriminate | injection E as ->; lia]. }
  destruct (offsetHeight b) as [h|].
  2:{ split; [|reflexivity]. intros _. right. exists w. auto. }
  rewrite Z.ltb_lt. split.
  - intros Hh. right. exists w. split; [reflexivity|]. split; [exact Hw|].
    right. exists h. auto.
  - intros [H | [w' [_ [_ [H | [h' [E Hh]]]]]]]; try discriminate.
    now injection E as ->.
Qed.

Lemma In_deepFindByText (document : Root) (tag kw : string) (b : Node) :
  In b (deepFindByText document tag kw)
  <-> InDeep document b /\ matches (SelTag tag) b = true /\ mentions kw b = true.
Proof.
  unfold deepFindByText. rewrite filter_In, deepFind_spec. tauto.
Qed.

Ltac visible_button kw :=
  unfold VisibleButton;
  split; [|split; [|split; [exists kw; split|]]]; simpl; auto.

Lemma VisibleButton_intro (document : Root) (kws : list string) (kw : string) (b : Node) :
  In kw kws -> In b (deepFindByText document "button" kw) -> visibleWH b = true ->
  VisibleButton document kws b.
Proof.
  intros Hk Hin Hv. apply In_deepFindByText in Hin. destruct Hin as (Hd & Hm & Hkw).
  visible_button kw.
Qed.

Lemma firstVisibleButton_Some (document : Root) (kws : list string) (b : Node) :
  firstVisibleButton document kws = Some b -> VisibleButton document kws b.
Proof.
  induction kws as [|kw rest IH]; simpl; [discriminate|].
  destruct (filter visibleWH (deepFindByText document "button" kw)) as [|b' l] eqn:E.
  - intros H. destruct (IH H) as (Hd & Hm & [kw' [Hk Hkw]] & Hv).
    visible_button kw'.
  - intros [= <-].
    assert (Hin : In b' (filter visibleWH (deepFindByText document "button" kw)))
      by (rewrite E; now left).
    apply filter_In in Hin. destruct Hin as [Hin Hv].
    apply (VisibleButton_intro document (kw :: rest) kw); auto. now left.
Qed.

Lemma firstVisibleButton_None (document : Root) (kws : list string) :
  firstVisibleButton document kws = None
  <-> forall b, ~ VisibleButton document kws b.
Proof.
  induction kws as [|kw rest IH]; simpl.
  - split; [|reflexivity]. intros _ b (_ & _ & [kw [[] _]] & _).
  - destruct (filter visibleWH (deepFindByText document "button" kw)) as [|b' l] eqn:E.
    + rewrite IH. split.
      * intros Hn b (Hd & Hm & [kw' [[<- | Hk] Hkw]] & Hv).
        -- assert (Hin : In b (filter visibleWH (deepFindByText document "button" kw)))
             by (apply filter_In; split; trivial; apply In_deepFindByText; auto).
           rewrite E in Hin. destruct Hin.
        -- apply (Hn b). visible_button kw'.
      * intros Hn b (Hd & Hm & [kw' [Hk Hkw]] & Hv).
        apply (Hn b). visible_button kw'.
    + split; [discriminate|]. intros Hn. exfalso. apply (Hn b').
      apply (firstVisibleButton_Some document (kw :: rest)). simpl. now rewrite E.
Qed.

Lemma firstVisibleButton_exists (document : Root) (kws : list string) :
  (exists b, VisibleButton document kws b) ->
  exists b, firstVisibleButton document kws = Some b /\ VisibleButton document kws b.
Proof.
  intros [b Hb]. destruct (firstVisibleButton document kws) as [b'|] eqn:E.
  - exists b'. split; trivial. now apply firstVisibleButton_Some.
  - exfalso. exact (proj1 (firstVisibleButton_None document kws) E b Hb).
Qed.

(** The steps after the keyword steps never answer "wrong". *)
Lemma tryCloseBtn_not_wrong (document : Root) :
  returned (tryCloseBtn document) <> Normal (Some wrong).
Proof.
  unfold tryCloseBtn, tryAriaClose.
  destruct (querySelector document (SelClass closeBtnClass)) as [c|];
    [destruct (offsetWidth c) as [w|]; [destruct (0 <? w)%Z|]|];
    try (destruct (firstVisibleLabelled document closeLabels));
    cbn; discriminate.
Qed.

(** The keyword steps in terms of the filters of the source. *)
Lemma keyword_steps (document : Root) :
  ((exists b, VisibleButton document wrongKeywords b)
     <-> returned (tryDismissLocal document) = Normal (Some wrong))
  /\ ((exists b, VisibleButton document wrongKeywords b) ->
      exists b, VisibleButton document wrongKeywords b
                /\ tryDismissLocal document = dismissAs b wrong)
  /\ ((forall b, ~ VisibleButton document wrongKeywords b) ->
      (exists b, VisibleButton document correctKeywords b) ->
      exists b, VisibleButton document correctKeywords b
                /\ tryDismissLocal document = dismissAs b correct).
Proof.
  assert (Hw : (exists b, VisibleButton document wrongKeywords b) ->
               exists b, VisibleButton document wrongKeywords b
                         /\ tryDismissLocal document = dismissAs b wrong).
  { intros H. destruct (firstVisibleButton_exists _ _ H) as [b [E Hb]].
    exists b. split; trivial. unfold tryDismissLocal. now rewrite E. }
  split; [split|split; [exact Hw|]].
  - intros H. destruct (Hw H) as [b [_ E]]. now rewrite E.
  - unfold tryDismissLocal.
    destruct (firstVisibleButton document wrongKeywords) as [b|] eqn:E.
    + intros _. exists b. now apply firstVisibleButton_Some.
    + destruct (firstVisibleButton document correctKeywords) as [b|].
      * discriminate.
      * intros H. now apply tryCloseBtn_not_wrong in H.
  - intros Hn Hc. apply firstVisibleButton_None in Hn.
    destruct (firstVisibleButton_exists _ _ Hc) as [b [E Hb]].
    exists b. split; trivial. unfold tryDismissLocal. now rewrite Hn, E.
Qed.

(** The visibility filter of the keyword steps lets through exactly the
    controls with two positive readings or a reading that throws. *)
Lemma visibleWH_Shown (b : Node) : visibleWH b = true <-> Shown b.
Proof.
  rewrite visibleWH_spec. split.
  - intros [H | [w [Ew [Hw [H | [h [Eh Hh]]]]]]].
    + now apply shown_width_raises.
    + now apply (shown_height_raises b w).
    + now apply (shown_sized b w h).
  - intros [w h Ew Eh Hw Hh | H | w Ew Hw Eh].
    + right. exists w. split; [exact Ew|]. split; [exact Hw|]. right. now exists h.
    + now left.
    + right. exists w. split; [exact Ew|]. split; [exact Hw|]. now left.
Qed.

(** The text filter of deepFindByText lets through exactly the elements whose
    text holds the keyword in letters of either case. *)
Lemma mentions_Matching (kw : string) (b : Node) :
  plainKeyword kw = true -> (mentions kw b = true <-> Matching kw b).
Proof.
  unfold plainKeyword. rewrite !andb_true_iff, negb_true_iff, String.eqb_eq.
  intros [[Hlow Hhead] Hlast].
  destruct (lastChar None kw) as [c|] eqn:Hc; [|discriminate].
  apply negb_true_iff in Hlast.
  unfold mentions, Matching. rewrite Hlow, includes_spec. split.
  - intros [p [q E]]. unfold toLowerCase in E.
    destruct (smap_split lowerChar p (trim (textContent b)) (kw ++ q) E)
      as (s1 & s2 & Et & H1 & H2).
    destruct (smap_split lowerChar kw s2 q H2) as (mid & s3 & E2 & H3 & H4).
    destruct (trim_split (textContent b)) as (l & r & Eb & _ & _).
    exists (l ++ s1), mid, (s3 ++ r). split; [|exact H3].
    rewrite Eb at 1. rewrite Et, E2. now rewrite !append_assoc.
  - intros (pre & mid & post & Et & Em).
    assert (Hh : headIsSpace mid = false).
    { rewrite <- Em in Hhead. destruct mid as [|a m]; [reflexivity|].
      simpl in Hhead |- *. now rewrite isSpace_lowerChar in Hhead. }
    assert (Hl : exists a, lastChar None mid = Some a /\ isSpace a = false).
    { rewrite <- Em in Hc. unfold toLowerCase in Hc.
      change (lastChar None (smap lowerChar mid))
        with (lastChar (option_map lowerChar None) (smap lowerChar mid)) in Hc.
      rewrite (lastChar_smap lowerChar None mid) in Hc.
      destruct (lastChar None mid) as [a|]; [|discriminate].
      exists a. split; [reflexivity|]. injection Hc as <-.
      now rewrite isSpace_lowerChar in Hlast. }
    destruct Hl as [a [Hl Ha]].
    destruct (trim_keeps pre mid post a Hh Hl Ha) as (pre' & post' & E).
    rewrite Et, E. exists (toLowerCase pre'), (toLowerCase post').
    unfold toLowerCase in *. now rewrite !smap_append, Em.
Qed.

Lemma plain_keywords :
  forallb plainKeyword wrongKeywords = true
  /\ forallb plainKeyword correctKeywords = true.
Proof. split; reflexivity. Qed.

(** On plain keywords the buttons the keyword steps look for are the visible
    matching buttons of the specification. *)
Lemma VisibleButton_ShownButton (document : Root) (kws : list string) (b : Node) :
  forallb plainKeyword kws = true ->
  (VisibleButton document kws b <-> ShownButton document kws b).
Proof.
  intros Hk. rewrite forallb_forall in Hk.
  unfold VisibleButton, ShownButton. rewrite visibleWH_Shown.
  assert (Hm : matches (SelTag "button") b = true
               <-> isElement b = true /\ localName b = "button").
  { unfold matches. now rewrite andb_true_iff, String.eqb_eq. }
  rewrite Hm. split.
  - intros (Hd & [He Hn] & [kw [Hin Hkw]] & Hv).
    split; [exact Hd|]. split; [exact He|]. split; [exact Hn|]. split; [|exact Hv].
    exists kw. split; [exact Hin|]. now apply mentions_Matching; [apply Hk|].
  - intros (Hd & He & Hn & [kw [Hin Hkw]] & Hv).
    split; [exact Hd|]. split; [now split|]. split; [|exact Hv].
    exists kw. split; [exact Hin|]. now apply mentions_Matching; [apply Hk|].
Qed.

(** C6. "Visible" and "matching" are read on the control itself: a button is
    visible when its width and height both read positive, or when a reading
    throws; it matches a keyword when its text holds the keyword in letters of
    either case. In every document, tryDismissLocal answers "wrong" exactly
    when some visible button of the document, shadow trees included, matches
    "try again" or "retry", and then clicks such a button, whatever else the
    document holds, hidden or visible; a button whose width or height reads
    zero is not visible, whatever its text; when there is no visible button
    matching "try again" or "retry" and some visible button matches "finish",
    "ok", "done", "continue" or "got it", it answers "correct" and clicks such
    a button; and an answer "correct" is given only when no visible button
    matches "try again" or "retry". *)
Theorem tryDismissLocal_wrong_before_correct (document : Root) :
  ((exists b, ShownButton document wrongKeywords b)
     <-> returned (tryDismissLocal document) = Normal (Some wrong))
  /\ ((exists b, ShownButton document wrongKeywords b) ->
      exists b, ShownButton document wrongKeywords b
                /\ tryDismissLocal document = dismissAs b wrong)
  /\ (forall kws b,
        offsetWidth b = Px 0 \/ (exists w, offsetWidth b = Px w /\ offsetHeight b = Px 0) ->
        ~ ShownButton document kws b)
  /\ ((forall b, ~ ShownButton document wrongKeywords b) ->
      (exists b, ShownButton document correctKeywords b) ->
      exists b, ShownButton document correctKeywords b
                /\ tryDismissLocal document = dismissAs b correct)
  /\ (returned (tryDismissLocal document) = Normal (Some correct) ->
      forall b, ~ ShownButton document wrongKeywords b).
Proof.
  destruct plain_keywords as [Pw Pc].
  destruct (keyword_steps document) as (H1 & H2 & H3).
  assert (Ew : forall b, VisibleButton document wrongKeywords b
                         <-> ShownButton document wrongKeywords b)
    by (intros b; now apply VisibleButton_ShownButton).
  assert (Ec : forall b, VisibleButton document correctKeywords b
                         <-> ShownButton document correctKeywords b)
    by (intros b; now apply VisibleButton_ShownButton).
  assert (Hex : (exists b, ShownButton document wrongKeywords b)
                <-> exists b, VisibleButton document wrongKeywords b).
  { split; intros [b Hb]; exists b; now apply Ew. }
  split; [now rewrite Hex|].
  split.
  { intros H. apply Hex in H. destruct (H2 H) as [b [Hb E]].
    exists b. split; [now apply Ew | exact E]. }
  split.
  { intros kws b Hz (_ & _ & _ & _ & Hs).
    destruct Hz as [Hz | [w [Ew' Hz]]];
      destruct Hs as [w' h' E1 E2 Hw' Hh' | E1 | w' E1 Hw' E2]; try congruence.
    - rewrite Hz in E1. injection E1 as <-. lia.
    - rewrite Hz in E1. injection E1 as <-. lia.
    - rewrite Hz in E2. injection E2 as <-. lia. }
  split.
  { intros Hn [b Hb].
    destruct (H3 (fun b' Hb' => Hn b' (proj1 (Ew b') Hb'))
                 (ex_intro _ b (proj2 (Ec b) Hb))) as [b' [Hb' E]].
    exists b'. split; [now apply Ec | exact E]. }
  intros Hr b Hb.
  assert (Hx : returned (tryDismissLocal document) = Normal (Some wrong))
    by (apply H1; exists b; now apply Ew).
  congruence.
Qed.

(** When tryDismissLocal returns null it has clicked nothing. *)
Lemma no_outcome_no_click (document : Root) :
  returned (tryDismissLocal document) = Normal None ->
  clicked (tryDismissLocal document) = None.
Proof.
  unfold tryDismissLocal, tryCloseBtn, tryAriaClose.
  destruct (firstVisibleButton document wrongKeywords); [discriminate|].
  destruct (firstVisibleButton document correctKeywords); [discriminate|].
  destruct (querySelector document (SelClass closeBtnClass)) as [c|];
    [destruct (offsetWidth c) as [w|]; [destruct (0 <? w)%Z|]|];
    try (destruct (firstVisibleLabelled document closeLabels));
    cbn; congruence.
Qed.

(** C8. The claim does not hold of the steps that follow the keyword steps:
    a close button 24 pixels wide and 0 pixels high, which the visibility
    test of the keyword steps rejects, is taken as visible by the class step
    and by the aria-label step, clicked, and reported "correct". *)
Theorem close_steps_ignore_height :
  let closeBtn := Elem "button" [closeBtnClass] None (Px 24) (Px 0) [] None in
  let labelled := Elem "button" [] (Some "Close") (Px 24) (Px 0) [] None in
  visibleWH closeBtn = false
  /\ tryDismissLocal [closeBtn] = dismissAs closeBtn correct
  /\ visibleWH labelled = false
  /\ tryDismissLocal [labelled] = dismissAs labelled correct.
Proof. cbv zeta. repeat split; vm_compute; reflexivity. Qed.

(** The scenario of the specification: a visible "Try Again" beside a hidden
    "Finish" is "wrong", a visible "Finish" beside a hidden "Try Again" is
    "correct", also when the buttons sit in a nested shadow tree. *)
Example try_again_beside_hidden_finish :
  let button t w h := Elem "button" [] None (Px w) (Px h) [Text t] None in
  let modal a b := [Elem "div" [] None (Px 300) (Px 200) []
                      (Some [Elem "section" [] None (Px 300) (Px 200) [a; b] None])] in
  returned (tryDismissLocal (modal (button "Finish" 0 0) (button " Try Again " 80 30)))
    = Normal (Some wrong)
  /\ returned (tryDismissLocal (modal (button "Finish" 80 30) (button "Try Again" 0 0)))
    = Normal (Some correct).
Proof. cbv zeta. split; vm_compute; reflexivity. Qed.

End ModalResolution.

(* ------------------------------------------------------------------------- *)
(** ** Modal resolution across frames *)

Module CrossFrame.
Import Program Dom Solver Readings ModalResolution.


Section Frame.
Context {W : Type} (page : Handler Prim W).

(** What the send of the request comes to, and the world then. *)
Local Abbreviation sentAt w := (fst (page _ sendDismissModal (atRequest page w))).



(** The top frame that finds nothing asks nobody. *)
Lemma trace_top_no_outcome (w : W) :
  returned (tryDismissLocal (documentAt page w)) = Normal None ->
  trace (run page (dismissFeedbackModal true) w)
  = [Ev (sleep 1800) (fst (page _ (sleep 1800) w));
     Ev readDocument (documentAt page w)].
Proof.
  intros Hr. pose proof (no_outcome_no_click _ Hr) as Hc.
  unfold documentAt, atRequest, atInspection in *.
  unfold dismissFeedbackModal, tryDismissLocalNow.
  cbn [run bind after trace]. rewrite Hc, Hr. reflexivity.
Qed.

Lemma run_local_outcome (isTop : bool) (w : W) (o : ModalOutcome) :
  returned (tryDismissLocal (documentAt page w)) = Normal (Some o) ->
  outcome (run page (dismissFeedbackModal isTop) w) = Normal o.
Proof.
  intros Hr. unfold documentAt, atInspection in *.
  unfold dismissFeedbackModal, tryDismissLocalNow.
  cbn [run bind after outcome].
  destruct (clicked (tryDismissLocal _)); cbn [run bind after outcome];
    rewrite Hr; reflexivity.
Qed.

End Frame.




(** A quiz in a nested frame whose feedback shows in the top frame: every
    check of the nested frame is answered through the relay. With "Finish"
    showing in the top frame the first trial is taken as correct; with a port
    down every trial is "unknown" and the options run out. *)
Example nested_quiz_through_the_relay :
  let nested net top :=
    withDismiss false (Scenario.nestedFrame [] (Normal (askTopFrame net top)))
      (Scenario.hopelessPage (Scenario.aiSays 1 "B")) in
  let solve net top :=
    run (nested net top)
        (solveOneQuestion Scenario.labelOf Scenario.questionOf Scenario.fourOptions) tt in
  outcome (solve Scenario.goodNetwork [Scenario.button "Finish" 80 30]) = Normal (Solved 1)
  /\ outcome (solve (mkNetwork true (Some 7) false) [Scenario.button "Finish" 80 30])
     = Normal Exhausted
  /\ modalOutcomes (trace (solve (mkNetwork true (Some 7) false)
                                 [Scenario.button "Finish" 80 30]))
     = [Normal unknown; Normal unknown; Normal unknown; Normal unknown].
Proof. cbv zeta. repeat split; vm_compute; reflexivity. Qed.

End CrossFrame.

(* ------------------------------------------------------------------------- *)
(** ** The askAI handler of the service worker *)

Module BackgroundFacts.
Import JsText Background.
Local Open Scope string_scope.

Lemma indexOf_letter (c : ascii) :
  (65 <=? code c)%N && (code c <=? 70)%N = true ->
  indexOf letters (String c EmptyString) = (Z.of_N (code c) - 65)%Z.
Proof.
  destruct c as [[] [] [] [] [] [] [] []]; vm_compute; intros H;
    try reflexivity; discriminate.
Qed.

Lemma charAt0_keepAF (s : string) :
  charAt0 (keepAF s)
  = match firstAF s with
    | Some c => String c EmptyString
    | None => EmptyString
    end.
Proof.
  induction s as [|c s IH]; simpl; [reflexivity|].
  destruct ((65 <=? code c)%N && (code c <=? 70)%N); [reflexivity | exact IH].
Qed.

Lemma firstAF_range (s : string) (c : ascii) :
  firstAF s = Some c -> (65 <=? code c)%N && (code c <=? 70)%N = true.
Proof.
  induction s as [|a s IH]; simpl; [discriminate|].
  destruct ((65 <=? code a)%N && (code a <=? 70)%N) eqn:E; [|exact IH].
  now intros [= <-].
Qed.

(** The code computes the mapping as described. *)
Lemma indexOfRaw_firstLetterIndex (raw : string) :
  indexOfRaw raw = firstLetterIndex raw.
Proof.
  unfold indexOfRaw, letterIdx, firstLetterIndex. rewrite charAt0_keepAF.
  destruct (firstAF (toUpperCase raw)) as [c|] eqn:E.
  - pose proof (firstAF_range _ _ E) as Hc. rewrite (indexOf_letter c Hc).
    apply andb_true_iff in Hc. destruct Hc as [Hlo Hhi].
    apply N.leb_le in Hlo. destruct (Z.leb_spec 0 (Z.of_N (code c) - 65)); lia.
  - reflexivity.
Qed.

Lemma firstLetterIndex_range (raw : string) : (0 <= firstLetterIndex raw <= 5)%Z.
Proof.
  unfold firstLetterIndex. destruct (firstAF (toUpperCase raw)) as [c|] eqn:E; [|lia].
  apply firstAF_range, andb_true_iff in E. destruct E as [Hlo Hhi].
  apply N.leb_le in Hlo, Hhi. lia.
Qed.

(** C10 (as the code has it). The raw text is mapped to the position in A..F
    of the first character of its upper-cased form that is one of A..F, and to
    0 when there is none, so a returned index lies in 0 .. 5. A body whose
    choices, first choice, message or content is absent or null, or whose
    content is a string, gets an index and no error; a null body or a content
    of any other type makes the handler throw and answer with an error. *)
Theorem askAI_handler_maps_first_letter (data : Json) :
  (forall raw, indexOfRaw raw = firstLetterIndex raw
               /\ (0 <= indexOfRaw raw <= 5)%Z)
  /\ (contentIsText data = true ->
      exists raw, rawOf data = Normal raw
                  /\ askAI_respond data = SentIndex (firstLetterIndex raw) raw)
  /\ (contentIsText data = false -> askAI_respond data = SentError)
  /\ (forall index raw, askAI_respond data = SentIndex index raw ->
                        (0 <= index <= 5)%Z).
Proof.
  split.
  { intros raw. rewrite indexOfRaw_firstLetterIndex.
    split; [reflexivity | apply firstLetterIndex_range]. }
  unfold contentIsText, askAI_respond, rawOf.
  destruct (contentOf data) as [[v|]|].
  - destruct v; (split; [|split]); try discriminate; try reflexivity;
      try (intros _; eexists; split;
           [reflexivity | now rewrite indexOfRaw_firstLetterIndex]);
      intros index raw [= <- _]; rewrite indexOfRaw_firstLetterIndex;
      apply firstLetterIndex_range.
  - split; [|split]; try discriminate.
    + intros _. eexists. split; [reflexivity | now rewrite indexOfRaw_firstLetterIndex].
    + intros index raw [= <- _]. rewrite indexOfRaw_firstLetterIndex.
      apply firstLetterIndex_range.
  - split; [|split]; try discriminate. reflexivity.
Qed.

(** C10 as stated fails on a body that parses but whose content is not a
    string: with content 5 the handler answers with an error. The same body
    with a string content is mapped through its first letter. *)
Lemma numeric_content_is_an_error :
  askAI_respond
    (JObj [("choices", JArr [JObj [("message", JObj [("content", JNum 5)])]])])
  = SentError
  /\ askAI_respond
       (JObj [("choices", JArr [JObj [("message", JObj [("content", JStr " (c) ")])]])])
     = SentIndex 2 "(c)".
Proof. split; vm_compute; reflexivity. Qed.

End BackgroundFacts.

(* ========================================================================= *)
(** * Further properties of the scripts *)

(* ------------------------------------------------------------------------- *)
(** ** deepFind and deepFindByText *)

Module DeepFindMore.
Import JsText Dom DeepFind TextFacts.
Local Open Scope string_scope.

Lemma Contains_trans (a b c : Node) : Contains a b -> Contains b c -> Contains a c.
Proof.
  induction 1 as [n | n k el Hk _ IH | n s k el Hs Hk _ IH]; intros Hc.
  - exact Hc.
  - exact (contains_child n k c Hk (IH Hc)).
  - exact (contains_shadow n s k c Hs Hk (IH Hc)).
Qed.

Lemma InDeep_through_shadow (root s : Root) (host el : Node) :
  InDeep root host -> shadowRoot host = Some s -> InDeep s el -> InDeep root el.
Proof.
  intros [n [Hn Hc]] Hs [k [Hk Hke]]. exists n. split; [exact Hn|].
  apply (Contains_trans n host el Hc).
  exact (contains_shadow host s k el Hs Hk Hke).
Qed.

(** X1: deepFind, content.js:33. What it returns is exactly the elements of the
    tree that match the selector, whatever number of shadow roots lies
    between them and the root; so everything it finds from the shadow root of
    an element of the tree it finds from the root too; text nodes are never
    returned. *)
Theorem deepFind_crosses_every_shadow_boundary (root : Root) (sel : Selector) :
  (forall el, In el (deepFind root sel) <-> InDeep root el /\ matches sel el = true)
  /\ (forall host s,
        InDeep root host -> shadowRoot host = Some s ->
        incl (deepFind s sel) (deepFind root sel))
  /\ (forall el, In el (deepFind root sel) -> isElement el = true).
Proof.
  split; [intros el; apply deepFind_spec|]. split.
  - intros host s Hh Hs el Hin. apply deepFind_spec in Hin. destruct Hin as [Hd Hm].
    apply deepFind_spec. split; [|exact Hm].
    exact (InDeep_through_shadow root s host el Hh Hs Hd).
  - intros el Hin. apply deepFind_spec in Hin. destruct Hin as [_ Hm].
    unfold matches in Hm. now apply andb_true_iff in Hm.
Qed.

Lemma includes_empty (s : string) : includes s "" = true.
Proof. destruct s; reflexivity. Qed.

Lemma filter_true {A} (f : A -> bool) (l : list A) :
  (forall x, f x = true) -> filter f l = l.
Proof.
  intros H. induction l as [|x l IH]; simpl; [reflexivity|]. now rewrite H, IH.
Qed.

(** X2: deepFindByText, content.js:41. It returns exactly the elements of the
    given tag, at any shadow depth, whose trimmed and lower-cased text contains
    the lower-cased keyword; so two keywords with the same lower-casing select
    the same elements, and the empty keyword selects every element of the
    tag. *)
Theorem deepFindByText_ignores_case (root : Root) (tag text : string) :
  (forall el,
     In el (deepFindByText root tag text)
     <-> InDeep root el
         /\ matches (SelTag tag) el = true
         /\ exists pre post,
              toLowerCase (trim (textContent el)) = pre ++ toLowerCase text ++ post)
  /\ (forall other,
        toLowerCase other = toLowerCase text ->
        deepFindByText root tag other = deepFindByText root tag text)
  /\ deepFindByText root tag "" = deepFind root (SelTag tag).
Proof.
  split; [|split].
  - intros el. unfold deepFindByText. rewrite filter_In, deepFind_spec.
    unfold mentions. rewrite includes_spec. tauto.
  - intros other E. unfold deepFindByText, mentions. now rewrite E.
  - unfold deepFindByText. apply filter_true. intros el. unfold mentions.
    apply includes_empty.
Qed.

End DeepFindMore.

(* ------------------------------------------------------------------------- *)
(** ** tryDismissLocal and dismissFeedbackModal *)

Module ModalMore.
Import Program Dom DeepFind Solver Readings ModalResolution.
Local Open Scope string_scope.

Lemma head_In {A} (l : list A) (x : A) : head l = Some x -> In x l.
Proof. destruct l; [discriminate | intros [= ->]; now left]. Qed.

Lemma querySelector_InDeep (document : Root) (sel : Selector) (c : Node) :
  querySelector document sel = Some c -> InDeep document c /\ matches sel c = true.
Proof.
  intros H. apply head_In in H. apply deepFind_spec.
  unfold deepFind. apply in_app_iff. now left.
Qed.

Lemma firstVisibleLabelled_Some (document : Root) (labels : list string) (e : Node) :
  firstVisibleLabelled document labels = Some e ->
  InDeep document e /\ visibleW e = true.
Proof.
  induction labels as [|l rest IH]; simpl; [discriminate|].
  destruct (filter visibleW (deepFind document (SelAriaLabel l))) as [|e' t] eqn:E.
  - exact IH.
  - intros [= <-].
    assert (Hin : In e' (filter visibleW (deepFind document (SelAriaLabel l))))
      by (rewrite E; now left).
    apply filter_In in Hin. destruct Hin as [Hin Hv].
    apply deepFind_spec in Hin. tauto.
Qed.

Lemma VisibleButton_more (document : Root) (kws more : list string) (b : Node) :
  VisibleButton document (kws ++ more) b
  <-> VisibleButton document kws b \/ VisibleButton document more b.
Proof.
  unfold VisibleButton. split.
  - intros (Hd & Hm & [kw [Hk Hkw]] & Hv). apply in_app_iff in Hk.
    destruct Hk as [Hk | Hk]; [left | right];
      (split; [exact Hd | split; [exact Hm | split; [exists kw; auto | exact Hv]]]).
  - intros [(Hd & Hm & [kw [Hk Hkw]] & Hv) | (Hd & Hm & [kw [Hk Hkw]] & Hv)];
      (split; [exact Hd | split; [exact Hm | split; [|exact Hv]]]);
      exists kw; (split; [apply in_app_iff; auto | exact Hkw]).
Qed.

Ltac reported_click Hd side :=
  split; [intros ? [= <-]; split; [exact Hd | side]|];
  split; [discriminate|]; split; [discriminate|]; split; discriminate.

Ltac reported_null Hno :=
  split; [discriminate|]; split; [now left|]; split; [discriminate|];
  split; [intros _; exact Hno | discriminate].

(** X3: tryDismissLocal, content.js:252. It clicks an element exactly when it
    reports "wrong" or "correct", and the element it clicks lies in the
    document; it never reports "unknown"; when it returns null there is no
    visible keyword button; it throws only when no keyword button is visible
    and reading the width of the first element carrying the close-button
    class throws. *)
Theorem tryDismissLocal_clicks_what_it_reports (document : Root) :
  let d := tryDismissLocal document in
  (forall el, clicked d = Some el ->
     InDeep document el
     /\ (returned d = Normal (Some wrong) \/ returned d = Normal (Some correct)))
  /\ (clicked d = None -> returned d = Normal None \/ returned d = Abrupt)
  /\ returned d <> Normal (Some unknown)
  /\ (returned d = Normal None ->
      forall b, ~ VisibleButton document (wrongKeywords ++ correctKeywords) b)
  /\ (returned d = Abrupt ->
      (forall b, ~ VisibleButton document (wrongKeywords ++ correctKeywords) b)
      /\ exists c, querySelector document (SelClass closeBtnClass) = Some c
                   /\ offsetWidth c = Raises).
Proof.
  cbv zeta. unfold tryDismissLocal.
  destruct (firstVisibleButton document wrongKeywords) as [b|] eqn:Ew.
  { apply firstVisibleButton_Some in Ew. destruct Ew as [Hd _].
    cbn. reported_click Hd ltac:(now left). }
  destruct (firstVisibleButton document correctKeywords) as [b|] eqn:Ec.
  { apply firstVisibleButton_Some in Ec. destruct Ec as [Hd _].
    cbn. reported_click Hd ltac:(now right). }
  assert (Hno : forall b, ~ VisibleButton document (wrongKeywords ++ correctKeywords) b).
  { intros b Hb. apply VisibleButton_more in Hb.
    destruct Hb as [Hb | Hb];
      [exact (proj1 (firstVisibleButton_None _ _) Ew b Hb)
      | exact (proj1 (firstVisibleButton_None _ _) Ec b Hb)]. }
  unfold tryCloseBtn, tryAriaClose.
  destruct (querySelector document (SelClass closeBtnClass)) as [c|] eqn:Eq.
  - destruct (offsetWidth c) as [w|] eqn:Eo.
    + destruct (0 <? w)%Z.
      * apply querySelector_InDeep in Eq. destruct Eq as [Hd _].
        cbn. reported_click Hd ltac:(now right).
      * destruct (firstVisibleLabelled document closeLabels) as [e|] eqn:El; cbn.
        -- apply firstVisibleLabelled_Some in El. destruct El as [Hd _].
           reported_click Hd ltac:(now right).
        -- reported_null Hno.
    + cbn. split; [discriminate|]. split; [now right|]. split; [discriminate|].
      split; [discriminate|]. intros _. split; [exact Hno|]. exists c. auto.
  - destruct (firstVisibleLabelled document closeLabels) as [e|] eqn:El; cbn.
    + apply firstVisibleLabelled_Some in El. destruct El as [Hd _].
      reported_click Hd ltac:(now right).
    + reported_null Hno.
Qed.

(** X4: dismissFeedbackModal, content.js:300. In every frame and on every page:
    the run clicks exactly what tryDismissLocal clicked on the document of the
    moment; an outcome found locally is returned as it is and nothing is asked
    of the top frame; a throw of tryDismissLocal leaves the function as a
    throw; the top frame never sends a request and says "unknown" when it
    finds nothing; a nested frame that finds nothing sends one request, returns
    what the callback of the request finds when the send returns, and throws
    when the send throws. *)
Theorem dismissFeedbackModal_asks_only_when_nothing_local
    (W : Type) (page : Handler Prim W) (isTop : bool) (w : W) :
  let d := tryDismissLocal (documentAt page w) in
  let r := run page (dismissFeedbackModal isTop) w in
  clicks (trace r) = match clicked d with Some el => [el] | None => [] end
  /\ (forall o, returned d = Normal (Some o) ->
        outcome r = Normal o /\ requests (trace r) = [])
  /\ (returned d = Abrupt -> outcome r = Abrupt /\ requests (trace r) = [])
  /\ (returned d = Normal None ->
      if isTop
      then outcome r = Normal unknown /\ requests (trace r) = []
      else exists sent,
             sent = fst (page _ sendDismissModal (atRequest page w))
             /\ requests (trace r) = [sent]
             /\ outcome r = match sent with
                            | Normal cb => Normal (dismissModal_callback cb)
                            | Abrupt => Abrupt
                            end).
Proof.
  cbv zeta. unfold documentAt, atRequest, atInspection.
  unfold dismissFeedbackModal, tryDismissLocalNow.
  cbn [run bind after trace outcome].
  destruct isTop;
    destruct (clicked (tryDismissLocal _)) as [el|] eqn:Ec;
    destruct (returned (tryDismissLocal _)) as [[o|]|] eqn:Er;
    cbn [negb run bind after trace outcome];
    try (pose proof (no_outcome_no_click _ Er); congruence);
    (split; [first [reflexivity
                   | destruct (fst (page _ sendDismissModal _)); reflexivity]|]);
    (split; [intros o' E; try discriminate; injection E as <-; split; reflexivity|]);
    (split; [intros E; try discriminate; split; reflexivity|]);
    intros E; try discriminate;
    first [split; reflexivity
          | eexists; split; [reflexivity|];
            destruct (fst (page _ sendDismissModal _)); split; reflexivity].
Qed.

End ModalMore.

(* ------------------------------------------------------------------------- *)
(** ** The runs of solveOneQuestion *)

Module SolveMore.
Import Program Dom Solver Readings Trials TrialOrder SolveOne.

Section Runs.
Context {W : Type} (h : Handler Call W).

Lemma asked_app (s t : list (Event Call)) : asked (s ++ t) = asked s ++ asked t.
Proof. apply flat_map_app. Qed.

Lemma checks_app (s t : list (Event Call)) : checks (s ++ t) = checks s ++ checks t.
Proof. apply flat_map_app. Qed.

Lemma thrown_app (s t : list (Event Call)) :
  thrownSelections (s ++ t) = thrownSelections s ++ thrownSelections t.
Proof. apply flat_map_app. Qed.

Ltac loop_case i w rest :=
  destruct (trial_cases h i w)
    as [Hs | [[Hs Hc] | [[Hs [Hc Hm]] | [[Hs [Hc Hm]] | [Hs [Hc [o [Hm Ho]]]]]]]];
  [ rewrite (run_thrown h i rest w Hs)
  | rewrite (run_notClicked h i rest w Hs Hc)
  | rewrite (run_abrupt h i rest w Hs Hc Hm)
  | rewrite (run_correct h i rest w Hs Hc Hm)
  | rewrite (run_notCorrect h i rest w o Hs Hc Hm Ho) ];
  cbn [outcome world trace];
  rewrite ?selected_app, ?modalOutcomes_app, ?asked_app, ?checks_app, ?thrown_app;
  cbn [trialHead selected modalOutcomes asked checks thrownSelections flat_map
       selectedOf modalOf askedOf checkOf thrownOf app];
  rewrite ?Hs, ?Hc; cbn [app].

(** The loop sends nothing to the AI. *)
Lemma loop_asks_nothing order w : asked (trace (run h (tryOptions order) w)) = [].
Proof.
  revert w. induction order as [|i rest IH]; intros w; [reflexivity|].
  loop_case i w rest; try reflexivity.
  - apply IH.
  - fold (asked (trace (run h (tryOptions rest) (nextTrial h i w)))). apply IH.
Qed.

(** One Check Answer per selection that returned; at most one selection
    throws; the modal is consulted once per button found and never after a
    button that was not found. *)
Lemma loop_checks_each_selection order w :
  (List.length (checks (trace (run h (tryOptions order) w)))
   + List.length (thrownSelections (trace (run h (tryOptions order) w))))%nat
  = List.length (selected (trace (run h (tryOptions order) w)))
  /\ (List.length (thrownSelections (trace (run h (tryOptions order) w))) <= 1)%nat
  /\ List.length (modalOutcomes (trace (run h (tryOptions order) w)))
     = List.length (filter (fun b : bool => b) (checks (trace (run h (tryOptions order) w)))).
Proof.
  revert w. induction order as [|i rest IH]; intros w;
    [split; [reflexivity | split; [simpl; lia | reflexivity]]|].
  loop_case i w rest; try (split; [reflexivity | split; [simpl; lia | reflexivity]]).
  - destruct (IH (atModal h i w)) as (H1 & H2 & H3). cbn.
    split; [congruence | split; [exact H2 | exact H3]].
  - fold (selected (trace (run h (tryOptions rest) (nextTrial h i w)))).
    fold (modalOutcomes (trace (run h (tryOptions rest) (nextTrial h i w)))).
    fold (checks (trace (run h (tryOptions rest) (nextTrial h i w)))).
    fold (thrownSelections (trace (run h (tryOptions rest) (nextTrial h i w)))).
    destruct (IH (nextTrial h i w)) as (H1 & H2 & H3). cbn.
    split; [congruence | split; [exact H2 | congruence]].
Qed.

Lemma loop_exhausted_no_correct order w :
  outcome (run h (tryOptions order) w) = Normal Exhausted ->
  ~ In (Normal correct) (modalOutcomes (trace (run h (tryOptions order) w))).
Proof.
  intros He Hin. apply (solved_iff_correct h) in Hin. destruct Hin as [i Hi]. congruence.
Qed.
End Runs.

Lemma In_trialOrder (n : nat) (c i : Z) :
  0 <= c < Z.of_nat n -> In i (trialOrder n c) -> 0 <= i < Z.of_nat n.
Proof.
  intros Hc Hi. apply In_indices.
  exact (Permutation_in i (trialOrder_Permutation n c Hc) Hi).
Qed.

Section Question.
Variable getLabel : Element -> Completion string.
Variable getQuestionText : list Element -> string.
Context {W : Type} (h : Handler Call W).
Local Abbreviation solve := (solveOneQuestion getLabel getQuestionText).

(** radios.map(getLabel) returns the labels of the options, in order, when
    every call returns, and throws when one of them throws. *)
Lemma labelsOf_Normal radios labels :
  labelsOf getLabel radios = Normal labels <-> map getLabel radios = map Normal labels.
Proof.
  revert labels. induction radios as [|r rest IH]; intros labels; cbn.
  - split; [intros [= <-]; reflexivity | destruct labels; [reflexivity | discriminate]].
  - destruct (getLabel r) as [l|].
    + destruct (labelsOf getLabel rest) as [ls|].
      * split.
        -- intros [= <-]. cbn. f_equal. now apply IH.
        -- destruct labels as [|l' ls']; [discriminate|]. cbn. intros [= -> E].
           apply IH in E. now injection E as ->.
      * split; [discriminate|].
        destruct labels as [|l' ls']; [discriminate|]. cbn. intros [= -> E].
        apply IH in E. discriminate.
    + split; [discriminate | destruct labels; discriminate].
Qed.

Lemma labelsOf_Abrupt radios :
  labelsOf getLabel radios = Abrupt
  <-> exists radio, In radio radios /\ getLabel radio = Abrupt.
Proof.
  induction radios as [|r rest IH]; cbn.
  - split; [discriminate | intros [radio [[] _]]].
  - destruct (getLabel r) as [l|] eqn:E.
    + destruct (labelsOf getLabel rest) as [ls|].
      * split; [discriminate|]. intros [radio [[<- | Hin] Ha]]; [congruence|].
        assert (Hx : Normal ls = @Abrupt (list string))
          by (apply (proj2 IH); now exists radio).
        discriminate.
      * split; [|reflexivity]. intros _.
        destruct (proj1 IH eq_refl) as [radio [Hin Ha]]. exists radio. auto.
    + split; [|reflexivity]. intros _. exists r. auto.
Qed.

Lemma labelsOf_length radios labels :
  labelsOf getLabel radios = Normal labels -> List.length labels = List.length radios.
Proof.
  intros H. apply labelsOf_Normal in H.
  rewrite <- (length_map Normal labels), <- H. apply length_map.
Qed.

(** The shapes of a run of solveOneQuestion. *)
Lemma run_shapes radios w :
  (isQuestionComplete radios = true
   /\ run h (solve radios) w = mkRun (Normal Skipped) w [])
  \/ (isQuestionComplete radios = false
      /\ labelsOf getLabel radios = Abrupt
      /\ aiCallback getLabel getQuestionText h radios w = Abrupt
      /\ run h (solve radios) w = mkRun Abrupt w [])
  \/ (isQuestionComplete radios = false
      /\ exists labels sent,
           labelsOf getLabel radios = Normal labels
           /\ aiCallback getLabel getQuestionText h radios w = sent
           /\ match sent with
              | Normal cb => askAI_callback cb = None
              | Abrupt => True
              end
           /\ run h (solve radios) w
              = mkRun Abrupt (atAnswer getLabel getQuestionText h radios w)
                  [Ev (sendAskAI (getQuestionText radios) labels) sent])
  \/ (isQuestionComplete radios = false
      /\ exists labels cb c loop,
           labelsOf getLabel radios = Normal labels
           /\ aiCallback getLabel getQuestionText h radios w = Normal cb
           /\ askAI_callback cb <> None
           /\ 0 <= c < Z.of_nat (List.length radios)
           /\ loop = run h (tryOptions (trialOrder (List.length radios) c))
                       (atAnswer getLabel getQuestionText h radios w)
           /\ run h (solve radios) w
              = mkRun (outcome loop) (world loop)
                  (Ev (sendAskAI (getQuestionText radios) labels) (Normal cb)
                     :: trace loop)).
Proof.
  destruct (isQuestionComplete radios) eqn:Hc.
  { left. split; [reflexivity|]. now apply run_complete. }
  right.
  destruct (solve_cases getLabel getQuestionText h radios w Hc)
    as [(Hl & Ha & E) | [(labels & Hl & Ha & E) | [(labels & cb & Hl & Ha & Hr & E)
       | (labels & cb & r & Hl & Ha & Hr & E)]]].
  - left. auto.
  - right. left. split; [reflexivity|]. exists labels, Abrupt. auto.
  - right. left. split; [reflexivity|]. exists labels, (Normal cb). auto.
  - right. right. split; [reflexivity|].
    exists labels, cb, (aiChoiceOf (List.length radios) (index r)). eexists.
    split; [exact Hl|]. split; [exact Ha|]. split; [congruence|].
    split; [apply aiChoiceOf_bounds, (incomplete_nonempty radios Hc)|].
    split; [reflexivity | exact E].
Qed.
End Question.

(** X5: solveOneQuestion, content.js:349. In every environment and for every
    group of n options: no option is selected twice and every option selected
    is one of the group; Check Answer is clicked once per selection that
    returned, and at most one selection throws; the modal is consulted once
    per button found; the askAI request is sent at most once, whether the send
    returns or throws: exactly when the group is not complete and getLabel
    returned for every option, with the question text and the labels of the
    options in order. *)
Theorem solveOneQuestion_tries_each_option_once
    (getLabel : Element -> Completion string) (getQuestionText : list Element -> string)
    (W : Type) (h : Handler Call W) (radios : list Element) (w : W) :
  let n := List.length radios in
  let t := trace (run h (solveOneQuestion getLabel getQuestionText radios) w) in
  NoDup (selected t)
  /\ (forall i, In i (selected t) -> 0 <= i < Z.of_nat n)
  /\ (List.length (selected t) <= n)%nat
  /\ (List.length (checks t) + List.length (thrownSelections t))%nat
     = List.length (selected t)
  /\ (List.length (thrownSelections t) <= 1)%nat
  /\ List.length (modalOutcomes t) = List.length (filter (fun b : bool => b) (checks t))
  /\ asked t = (if isQuestionComplete radios then []
                else match labelsOf getLabel radios with
                     | Normal labels => [(getQuestionText radios, labels)]
                     | Abrupt => []
                     end)
  /\ (forall q opts, In (q, opts) (asked t) ->
        map getLabel radios = map Normal opts /\ List.length opts = n)
  /\ (labelsOf getLabel radios = Abrupt
      <-> exists radio, In radio radios /\ getLabel radio = Abrupt).
Proof.
  cbv zeta.
  assert (Hlab : labelsOf getLabel radios = Abrupt
                 <-> exists radio, In radio radios /\ getLabel radio = Abrupt)
    by apply labelsOf_Abrupt.
  destruct (run_shapes getLabel getQuestionText h radios w)
    as [[Hc E] | [(Hc & Hl & Ha & E)
       | [(Hc & labels & sent & Hl & Ha & Hr & E)
         | (Hc & labels & cb & c & loop & Hl & Ha & Hr & Hb & El & E)]]];
    rewrite E, Hc; try rewrite Hl in *; cbn [outcome world trace].
  - cbn. split; [constructor|]. split; [intros i []|]. split; [lia|].
    split; [reflexivity|]. split; [lia|]. split; [reflexivity|].
    split; [reflexivity|]. split; [intros q opts []|]. exact Hlab.
  - cbn. split; [constructor|]. split; [intros i []|]. split; [lia|].
    split; [reflexivity|]. split; [lia|]. split; [reflexivity|].
    split; [reflexivity|]. split; [intros q opts []|]. exact Hlab.
  - cbn. split; [constructor|]. split; [intros i []|]. split; [lia|].
    split; [reflexivity|]. split; [lia|]. split; [reflexivity|].
    split; [reflexivity|].
    split; [|exact Hlab].
    intros q opts [[= <- <-] | []].
    split; [now apply labelsOf_Normal | now apply (labelsOf_length getLabel)].
  - change (selected (?e :: trace loop)) with (selected (trace loop)).
    change (thrownSelections (?e :: trace loop)) with (thrownSelections (trace loop)).
    change (modalOutcomes (?e :: trace loop)) with (modalOutcomes (trace loop)).
    change (checks (?e :: trace loop)) with (checks (trace loop)).
    change (asked (?e :: trace loop))
      with ((getQuestionText radios, labels) :: asked (trace loop)).
    subst loop.
    destruct (selected_prefix h (trialOrder (List.length radios) c)
                (atAnswer getLabel getQuestionText h radios w)) as [later Hp].
    pose proof (trialOrder_NoDup (List.length radios) c) as Hnd.
    pose proof (trialOrder_length (List.length radios) c Hb) as Hlen.
    rewrite Hp in Hnd, Hlen. rewrite length_app in Hlen.
    destruct (loop_checks_each_selection h (trialOrder (List.length radios) c)
                (atAnswer getLabel getQuestionText h radios w)) as (H1 & H2 & H3).
    rewrite loop_asks_nothing.
    split; [exact (NoDup_app_remove_r _ _ Hnd)|].
    split; [intros i Hi; apply (In_trialOrder (List.length radios) c i Hb);
            rewrite Hp; apply in_app_iff; now left|].
    split; [lia|]. split; [exact H1|]. split; [exact H2|]. split; [exact H3|].
    split; [reflexivity|].
    split; [|exact Hlab].
    intros q opts [[= <- <-] | []].
    split; [now apply labelsOf_Normal | now apply (labelsOf_length getLabel)].
Qed.

(** X6: solveOneQuestion, content.js:349-399, by the way it ends. It returns
    early exactly on a complete group; it runs out of options only after
    selecting each option of the group once, no modal having said "correct"
    and no selection having thrown; it stops on an option of the group, the
    last one selected; it throws exactly on an incomplete group when getLabel
    threw for an option or the send of the askAI request threw, when the
    request came back without a response object, when a selection threw, or
    when the modal resolution threw. *)
Theorem solveOneQuestion_exits
    (getLabel : Element -> Completion string) (getQuestionText : list Element -> string)
    (W : Type) (h : Handler Call W) (radios : list Element) (w : W) :
  let n := List.length radios in
  let r := run h (solveOneQuestion getLabel getQuestionText radios) w in
  let sent := aiCallback getLabel getQuestionText h radios w in
  (outcome r = Normal Skipped <-> isQuestionComplete radios = true)
  /\ (outcome r = Normal Exhausted ->
      Permutation (selected (trace r)) (indices n)
      /\ ~ In (Normal correct) (modalOutcomes (trace r))
      /\ thrownSelections (trace r) = [])
  /\ (forall i, outcome r = Normal (Solved i) ->
        0 <= i < Z.of_nat n /\ exists tried, selected (trace r) = tried ++ [i])
  /\ (outcome r = Abrupt
      <-> isQuestionComplete radios = false
          /\ (sent = Abrupt
              \/ (exists cb, sent = Normal cb /\ askAI_callback cb = None)
              \/ thrownSelections (trace r) <> []
              \/ In Abrupt (modalOutcomes (trace r))))
  /\ (sent = Abrupt
      <-> (exists radio, In radio radios /\ getLabel radio = Abrupt)
          \/ exists labels,
               labelsOf getLabel radios = Normal labels
               /\ fst (h _ (sendAskAI (getQuestionText radios) labels) w) = Abrupt).
Proof.
  cbv zeta.
  assert (Hsent : aiCallback getLabel getQuestionText h radios w = Abrupt
      <-> (exists radio, In radio radios /\ getLabel radio = Abrupt)
          \/ exists labels,
               labelsOf getLabel radios = Normal labels
               /\ fst (h _ (sendAskAI (getQuestionText radios) labels) w) = Abrupt).
  { rewrite <- labelsOf_Abrupt. unfold aiCallback.
    destruct (labelsOf getLabel radios) as [labels|].
    - split; [intros H; right; now exists labels|].
      intros [H | [labels' [[= <-] H]]]; [discriminate | exact H].
    - split; [now left | reflexivity]. }
  split; [|split; [|split; [|split; [|exact Hsent]]]];
  destruct (run_shapes getLabel getQuestionText h radios w)
    as [[Hc E] | [(Hc & Hl & Ha & E)
       | [(Hc & labels & sent & Hl & Ha & Hr & E)
         | (Hc & labels & cb & c & loop & Hl & Ha & Hr & Hb & El & E)]]];
    rewrite E; rewrite ?Hc; cbn [outcome world trace];
    try (change (selected (?e :: trace loop)) with (selected (trace loop));
         change (thrownSelections (?e :: trace loop))
           with (thrownSelections (trace loop));
         change (modalOutcomes (?e :: trace loop)) with (modalOutcomes (trace loop));
         subst loop;
         set (order := trialOrder (List.length radios) c);
         set (w' := atAnswer getLabel getQuestionText h radios w));
    try tauto; try discriminate; try (split; discriminate).
  - split; [intros Hs; now apply (loop_never_skips h order w') in Hs | discriminate].
  - intros He. apply (exhausted_iff h) in He. destruct He as (E1 & E2 & E3 & E4).
    split; [rewrite E1; now apply trialOrder_Permutation|]. split; [exact E3 | exact E2].
  - intros i Hs.
    destruct (solved_stops h order w' i Hs) as (pre & tried & later & _ & _ & Es & Eo).
    split; [|now exists tried].
    apply (In_trialOrder (List.length radios) c i Hb). fold order. rewrite Eo.
    apply in_app_iff. right. now left.
  - split; [discriminate|]. intros [H _]. discriminate.
  - split; [|reflexivity]. intros _. split; [reflexivity|]. rewrite Ha.
    destruct sent as [cb|]; [right; left; now exists cb | now left].
  - rewrite Ha. rewrite (abrupt_iff_thrown h order w'). split.
    + intros H. split; [reflexivity|]. right. right. exact H.
    + intros [_ [H | [[cb' [[= <-] H]] | H]]]; [discriminate | now elim Hr | exact H].
Qed.

(** X7: solveOneQuestion, content.js:366-369, when the askAI request comes back
    without lastError and without a response object: askAI resolves to
    undefined, reading its error field throws, and the function ends in a
    throw right after asking, with nothing selected, clicked or resolved. *)
Theorem unanswered_request_aborts_before_any_trial
    (getLabel : Element -> Completion string) (getQuestionText : list Element -> string)
    (W : Type) (h : Handler Call W) (radios : list Element) (w : W) :
  isQuestionComplete radios = false ->
  aiCallback getLabel getQuestionText h radios w = Normal (Delivered None) ->
  let r := run h (solveOneQuestion getLabel getQuestionText radios) w in
  outcome r = Abrupt
  /\ selected (trace r) = []
  /\ checks (trace r) = []
  /\ modalOutcomes (trace r) = []
  /\ world r = atAnswer getLabel getQuestionText h radios w.
Proof.
  intros Hc Ha r. subst r.
  destruct (labelsOf getLabel radios) as [labels|] eqn:Hl.
  2:{ rewrite (callback_of_labels getLabel getQuestionText h radios w Hl) in Ha.
      discriminate. }
  rewrite (run_unanswered getLabel getQuestionText h radios w labels _ Hc Hl Ha eq_refl).
  repeat split.
Qed.

Lemma unanswered_request_aborts_before_any_trial_witness :
  let r := run (Scenario.quizPage (Normal (Delivered None)))
               (solveOneQuestion Scenario.labelOf Scenario.questionOf Scenario.fourOptions)
               (Scenario.mkQuiz (Some 2) None) in
  outcome r = Abrupt /\ selected (trace r) = [].
Proof.
  pose proof (unanswered_request_aborts_before_any_trial
                Scenario.labelOf Scenario.questionOf Scenario.Quiz
                (Scenario.quizPage (Normal (Delivered None))) Scenario.fourOptions
                (Scenario.mkQuiz (Some 2) None) eq_refl eq_refl) as H.
  split; apply H.
Defined.

End SolveMore.

(* ------------------------------------------------------------------------- *)
(** ** groupByName *)

Module GroupingFacts.
Import Dom Grouping.

Section Collect.
Context {A : Type} (keyFor : A -> string).

Lemma lookupOwn_None (key : string) (g : @Groups A) :
  lookupOwn key g = None <-> ~ In key (keysOf g).
Proof.
  induction g as [|[k v] g IH]; simpl; [tauto|].
  destruct (String.eqb_spec k key) as [->|Hk].
  - split; [discriminate | intros H; elim H; now left].
  - rewrite IH. split; [intros H [E|E]; [congruence | auto] | tauto].
Qed.

(** Pushing to an own property changes that property alone, in place. *)
Lemma pushTo_split (key : string) (r : A) (g : @Groups A) (v : list A) :
  lookupOwn key g = Some v ->
  exists g1 g2,
    g = g1 ++ (key, v) :: g2
    /\ ~ In key (keysOf g1)
    /\ pushTo key r g = g1 ++ (key, v ++ [r]) :: g2.
Proof.
  induction g as [|[k v'] g IH]; simpl; [discriminate|].
  destruct (String.eqb_spec k key) as [->|Hk].
  - intros [= ->]. exists [], g. simpl. tauto.
  - intros H. destruct (IH H) as (g1 & g2 & E & Hn & Ep).
    exists ((k, v') :: g1), g2. simpl. rewrite E at 1. rewrite Ep.
    split; [reflexivity|]. split; [|reflexivity]. intros [E'|E']; [congruence | auto].
Qed.

(** Creating a property puts it somewhere among the others, which keep
    their order. *)
Lemma insertIndexed_split (n : N) (key : string) (v : list A) (g : @Groups A) :
  exists g1 g2, g = g1 ++ g2 /\ insertIndexed n key v g = g1 ++ (key, v) :: g2.
Proof.
  induction g as [|[k v'] g IH]; simpl.
  - now exists [], [].
  - destruct (arrayIndex k) as [n'|]; [destruct (n <? n')%N|].
    + now exists [], ((k, v') :: g).
    + destruct IH as (g1 & g2 & E & Ei). exists ((k, v') :: g1), g2.
      simpl. now rewrite <- E, Ei.
    + now exists [], ((k, v') :: g).
Qed.

Lemma create_split (key : string) (v : list A) (g : @Groups A) :
  exists g1 g2, g = g1 ++ g2 /\ create key v g = g1 ++ (key, v) :: g2.
Proof.
  unfold create. destruct (arrayIndex key) as [n|].
  - apply insertIndexed_split.
  - exists g, []. now rewrite app_nil_r.
Qed.

Lemma Collected_nil : Collected keyFor [] [].
Proof.
  constructor; simpl; try tauto; try constructor.
Qed.

Lemma filter_snoc (f : A -> bool) (l : list A) (r : A) :
  filter f (l ++ [r]) = filter f l ++ (if f r then [r] else []).
Proof. rewrite filter_app. simpl. now destruct (f r). Qed.

Lemma filter_none (f : A -> bool) (l : list A) :
  (forall x, In x l -> f x = false) -> filter f l = [].
Proof.
  induction l as [|x l IH]; simpl; intros H; [reflexivity|].
  rewrite (H x) by now left. apply IH. intros y Hy. apply H. now right.
Qed.

Lemma keysOf_app (g1 g2 : @Groups A) : keysOf (g1 ++ g2) = keysOf g1 ++ keysOf g2.
Proof. apply map_app. Qed.

Lemma concat_snd_app (g1 g2 : @Groups A) :
  List.concat (map snd (g1 ++ g2)) = List.concat (map snd g1) ++ List.concat (map snd g2).
Proof. now rewrite map_app, concat_app. Qed.

Lemma Collected_push (done : list A) (g : @Groups A) (r : A) (v : list A) :
  Collected keyFor done g -> lookupOwn (keyFor r) g = Some v ->
  Collected keyFor (done ++ [r]) (pushTo (keyFor r) r g).
Proof.
  intros [Hd Ho Hc Hf Hp] Hl.
  destruct (pushTo_split (keyFor r) r g v Hl) as (g1 & g2 & E & Hn & Ep).
  rewrite Ep. subst g.
  assert (Hk : keysOf (g1 ++ (keyFor r, v ++ [r]) :: g2)
               = keysOf (g1 ++ (keyFor r, v) :: g2))
    by (rewrite !keysOf_app; reflexivity).
  constructor.
  - now rewrite Hk.
  - intros k. rewrite Hk. apply Ho.
  - intros r' Hr'. rewrite Hk. apply in_app_iff in Hr'.
    destruct Hr' as [Hr' | [<- | []]]; [now apply Hc|].
    rewrite keysOf_app. apply in_app_iff. right. now left.
  - intros k v' Hin. rewrite filter_snoc. unfold inGroup at 2.
    apply in_app_iff in Hin. destruct Hin as [Hin | [[= <- <-] | Hin]].
    + destruct (Hf k v') as [-> Hne]; [apply in_app_iff; now left|].
      destruct (String.eqb_spec (keyFor r) k) as [<-|_].
      * elim Hn. apply (in_map fst) in Hin. exact Hin.
      * now rewrite app_nil_r.
    + destruct (Hf (keyFor r) v) as [-> Hne]; [apply in_app_iff; right; now left|].
      rewrite String.eqb_refl. split; [reflexivity|].
      intros H. now apply app_eq_nil in H.
    + destruct (Hf k v') as [-> Hne]; [apply in_app_iff; right; now right|].
      destruct (String.eqb_spec (keyFor r) k) as [<-|_].
      * rewrite keysOf_app in Hd. apply NoDup_remove_2 in Hd.
        elim Hd. apply in_app_iff. right. apply (in_map fst) in Hin. exact Hin.
      * now rewrite app_nil_r.
  - rewrite concat_snd_app in *. simpl in *.
    apply Permutation_trans
      with ((List.concat (map snd g1) ++ v ++ List.concat (map snd g2)) ++ [r]).
    + rewrite <- !app_assoc. apply Permutation_app_head, Permutation_app_head.
      apply (Permutation_app_comm [r]).
    + now apply Permutation_app_tail.
Qed.

Lemma Collected_create (done : list A) (g : @Groups A) (r : A) :
  Collected keyFor done g -> lookupOwn (keyFor r) g = None -> inherited (keyFor r) = false ->
  Collected keyFor (done ++ [r]) (create (keyFor r) [r] g).
Proof.
  intros [Hd Ho Hc Hf Hp] Hl Hi. apply lookupOwn_None in Hl.
  destruct (create_split (keyFor r) [r] g) as (g1 & g2 & E & Ec).
  rewrite Ec. subst g. rewrite keysOf_app in *.
  assert (Hfresh : filter (inGroup keyFor (keyFor r)) done = []).
  { apply filter_none. intros r' Hr'. unfold inGroup.
    destruct (String.eqb_spec (keyFor r') (keyFor r)) as [E|_]; [|reflexivity].
    elim Hl. rewrite <- E. now apply Hc. }
  constructor.
  - rewrite keysOf_app. simpl.
    apply (Permutation_NoDup (Permutation_middle (keysOf g1) (keysOf g2) (keyFor r))).
    now constructor.
  - intros k. rewrite keysOf_app. simpl. rewrite in_app_iff. simpl.
    intros [H | [<- | H]]; [apply Ho; apply in_app_iff; auto | exact Hi
                           | apply Ho; apply in_app_iff; auto].
  - intros r' Hr'. rewrite keysOf_app. simpl. apply in_app_iff in Hr'.
    destruct Hr' as [Hr' | [<- | []]].
    + specialize (Hc r' Hr'). rewrite in_app_iff in *. simpl. tauto.
    + apply in_app_iff. right. now left.
  - intros k v' Hin. rewrite filter_snoc. unfold inGroup at 2.
    assert (Hold : In (k, v') (g1 ++ g2) ->
                   v' = filter (inGroup keyFor k) done ++
                        (if String.eqb (keyFor r) k then [r] else []) /\ v' <> []).
    { intros Hin'. destruct (Hf k v' Hin') as [-> Hne].
      destruct (String.eqb_spec (keyFor r) k) as [<-|_].
      - elim Hl. apply (in_map fst) in Hin'. rewrite map_app in Hin'. exact Hin'.
      - now rewrite app_nil_r. }
    apply in_app_iff in Hin. destruct Hin as [Hin | [[= <- <-] | Hin]].
    + apply Hold. apply in_app_iff. now left.
    + rewrite Hfresh, String.eqb_refl. split; [reflexivity | discriminate].
    + apply Hold. apply in_app_iff. now right.
  - rewrite concat_snd_app in *. simpl.
    apply Permutation_trans with ((List.concat (map snd g1) ++ List.concat (map snd g2)) ++ [r]).
    + rewrite <- app_assoc. apply Permutation_app_head.
      apply (Permutation_app_comm [r]).
    + now apply Permutation_app_tail.
Qed.

(** The loop keeps what holds, and throws exactly at a key that reads as an
    inherited property. *)
Lemma collect_Collected (radios done : list A) (g g' : @Groups A) :
  Collected keyFor done g -> collect keyFor radios g = Normal g' ->
  Collected keyFor (done ++ radios) g'.
Proof.
  revert done g. induction radios as [|r rest IH]; intros done g Hc; simpl.
  - intros [= <-]. now rewrite app_nil_r.
  - replace (done ++ r :: rest) with ((done ++ [r]) ++ rest)
      by (now rewrite <- app_assoc).
    destruct (lookupOwn (keyFor r) g) as [v|] eqn:El.
    + apply IH. now apply (Collected_push done g r v).
    + destruct (inherited (keyFor r)) eqn:Ei; [discriminate|].
      apply IH. now apply Collected_create.
Qed.

Lemma collect_Abrupt (radios done : list A) (g : @Groups A) :
  Collected keyFor done g ->
  (collect keyFor radios g = Abrupt
   <-> exists r, In r radios /\ inherited (keyFor r) = true).
Proof.
  revert done g. induction radios as [|r rest IH]; intros done g Hc; simpl.
  - split; [discriminate | intros [r [[] _]]].
  - destruct (lookupOwn (keyFor r) g) as [v|] eqn:El.
    + rewrite (IH (done ++ [r]) _ (Collected_push done g r v Hc El)).
      assert (Hr : inherited (keyFor r) = false).
      { apply (keys_own _ _ _ Hc). destruct (in_dec string_dec (keyFor r) (keysOf g)) as [H|H];
          [exact H|]. apply lookupOwn_None in H. congruence. }
      split.
      * intros [r' [Hin Hi]]. exists r'. auto.
      * intros [r' [[<- | Hin] Hi]]; [congruence|]. exists r'. auto.
    + destruct (inherited (keyFor r)) eqn:Ei.
      * split; [intros _; exists r; auto | reflexivity].
      * rewrite (IH (done ++ [r]) _ (Collected_create done g r Hc El Ei)).
        split.
        -- intros [r' [Hin Hi]]. exists r'. auto.
        -- intros [r' [[<- | Hin] Hi]]; [congruence|]. exists r'. auto.
Qed.
Lemma precedes_trans (a b c : string) : precedes a b -> precedes b c -> precedes a c.
Proof.
  unfold precedes.
  destruct (arrayIndex a), (arrayIndex b), (arrayIndex c); try tauto. lia.
Qed.

Lemma namedKeys_app (k1 k2 : list string) :
  namedKeys (k1 ++ k2) = namedKeys k1 ++ namedKeys k2.
Proof. apply filter_app. Qed.

Lemma insertIndexed_keys (n : N) (key : string) (v : list A) (g : @Groups A) :
  arrayIndex key = Some n ->
  StronglySorted precedes (keysOf g) ->
  StronglySorted precedes (keysOf (insertIndexed n key v g))
  /\ forall k, In k (keysOf (insertIndexed n key v g)) <-> k = key \/ In k (keysOf g).
Proof.
  intros Hk. induction g as [|[k v'] g IH]; simpl; intros Hs.
  - split; [repeat constructor | intros k; simpl; intuition congruence].
  - apply StronglySorted_inv in Hs. destruct Hs as [Hs Hall].
    rewrite Forall_forall in Hall.
    destruct (arrayIndex k) as [n'|] eqn:Ek; [destruct (N.ltb_spec n n') as [Hlt|Hge]|].
    + split; [|intros x; simpl; intuition congruence].
      assert (Hkk : precedes key k) by (unfold precedes; rewrite Hk, Ek; lia).
      constructor; [constructor; [exact Hs | now apply Forall_forall]|].
      constructor; [exact Hkk|]. apply Forall_forall. intros x Hx.
      exact (precedes_trans key k x Hkk (Hall x Hx)).
    + destruct (IH Hs) as [IHs IHin]. split.
      * simpl. constructor; [exact IHs|]. apply Forall_forall. intros x Hx.
        apply IHin in Hx. destruct Hx as [-> | Hx]; [|now apply Hall].
        unfold precedes. rewrite Hk, Ek. lia.
      * intros x. simpl. rewrite IHin. tauto.
    + split; [|intros x; simpl; intuition congruence].
      assert (Hkk : precedes key k) by (unfold precedes; now rewrite Hk, Ek).
      constructor; [constructor; [exact Hs | now apply Forall_forall]|].
      constructor; [exact Hkk|]. apply Forall_forall. intros x Hx.
      exact (precedes_trans key k x Hkk (Hall x Hx)).
Qed.

Lemma sorted_snoc_named (ks : list string) (key : string) :
  arrayIndex key = None -> StronglySorted precedes ks ->
  StronglySorted precedes (ks ++ [key]).
Proof.
  intros Hk. induction 1 as [|a l Hs IH Ha]; simpl; [repeat constructor|].
  constructor; [exact IH|]. apply Forall_app. split; [exact Ha|].
  constructor; [|constructor]. unfold precedes. rewrite Hk. now destruct (arrayIndex a).
Qed.

Lemma In_firstAppearances (seen l : list string) (k : string) :
  In k (firstAppearances seen l) <-> In k l /\ ~ In k seen.
Proof.
  revert seen. induction l as [|x l IH]; intros seen; simpl; [tauto|].
  destruct (existsb (String.eqb x) seen) eqn:E.
  - rewrite IH. apply existsb_exists in E. destruct E as [y [Hy Exy]].
    apply String.eqb_eq in Exy. subst y. split; [tauto|].
    intros [[<- | H] Hn]; tauto.
  - assert (Hx : ~ In x seen).
    { intros H. rewrite <- not_true_iff_false in E. apply E. apply existsb_exists.
      exists x. split; [exact H | apply String.eqb_refl]. }
    simpl. rewrite IH. simpl. split.
    + intros [<- | [H Hn]]; [tauto|]. split; [tauto|]. intros H'. apply Hn. now right.
    + intros [[<- | H] Hn]; [now left|].
      destruct (string_dec x k) as [->|Hxk]; [now left|]. right. split; [exact H|].
      intros [H' | H']; [congruence | tauto].
Qed.

Lemma firstAppearances_again (seen l : list string) (k : string) :
  In k l \/ In k seen -> firstAppearances seen (l ++ [k]) = firstAppearances seen l.
Proof.
  revert seen. induction l as [|x l IH]; intros seen; simpl.
  - intros [[] | H].
    assert (E : existsb (String.eqb k) seen = true)
      by (apply existsb_exists; exists k; split; [exact H | apply String.eqb_refl]).
    now rewrite E.
  - intros H. destruct (existsb (String.eqb x) seen) eqn:E.
    + apply IH. destruct H as [[<- | H] | H]; auto.
      right. apply existsb_exists in E. destruct E as [y [Hy Exy]].
      apply String.eqb_eq in Exy. now subst y.
    + f_equal. apply IH. simpl. destruct H as [[-> | H] | H]; auto.
Qed.

Lemma firstAppearances_fresh (seen l : list string) (k : string) :
  ~ In k l -> ~ In k seen ->
  firstAppearances seen (l ++ [k]) = firstAppearances seen l ++ [k].
Proof.
  revert seen. induction l as [|x l IH]; intros seen Hl Hs; simpl.
  - destruct (existsb (String.eqb k) seen) eqn:E; [|reflexivity].
    apply existsb_exists in E. destruct E as [y [Hy Eky]].
    apply String.eqb_eq in Eky. subst y. contradiction.
  - destruct (existsb (String.eqb x) seen).
    + apply IH; [intros H; apply Hl; now right | exact Hs].
    + simpl. f_equal. apply IH; [intros H; apply Hl; now right|].
      intros [H | H]; [apply Hl; now left | contradiction].
Qed.
Lemma namedKeys_snoc (ks : list string) (k : string) :
  namedKeys (ks ++ [k]) = namedKeys ks ++ (if isIndexKey k then [] else [k]).
Proof. rewrite namedKeys_app. simpl. now destruct (isIndexKey k). Qed.

Lemma In_namedKeys (ks : list string) (k : string) :
  In k (namedKeys ks) <-> In k ks /\ isIndexKey k = false.
Proof. unfold namedKeys. rewrite filter_In, negb_true_iff. tauto. Qed.

(** The loop keeps the keys in listing order, the named ones in the order
    of their first appearance among the radios. *)
Lemma collect_order (radios done : list A) (g g' : @Groups A) :
  Collected keyFor done g ->
  StronglySorted precedes (keysOf g) ->
  namedKeys (keysOf g) = firstAppearances [] (namedKeys (map keyFor done)) ->
  collect keyFor radios g = Normal g' ->
  StronglySorted precedes (keysOf g')
  /\ namedKeys (keysOf g') = firstAppearances [] (namedKeys (map keyFor (done ++ radios))).
Proof.
  revert done g. induction radios as [|r rest IH]; intros done g Hc Hs Hn; simpl.
  - intros [= <-]. now rewrite app_nil_r.
  - replace (done ++ r :: rest) with ((done ++ [r]) ++ rest)
      by (now rewrite <- app_assoc).
    assert (Hdk : namedKeys (map keyFor (done ++ [r]))
                  = namedKeys (map keyFor done)
                    ++ (if isIndexKey (keyFor r) then [] else [keyFor r]))
      by (rewrite map_app; apply namedKeys_snoc).
    destruct (lookupOwn (keyFor r) g) as [v|] eqn:El.
    + pose proof (Collected_push done g r v Hc El) as Hc'.
      destruct (pushTo_split (keyFor r) r g v El) as (g1 & g2 & E & _ & Ep).
      assert (Hk : keysOf (pushTo (keyFor r) r g) = keysOf g)
        by (rewrite Ep, E, !keysOf_app; reflexivity).
      apply (IH _ _ Hc'); rewrite Hk; [exact Hs|].
      rewrite Hn, Hdk. destruct (isIndexKey (keyFor r)) eqn:Ei;
        [now rewrite app_nil_r|].
      symmetry. apply firstAppearances_again. left.
      assert (Hin : In (keyFor r) (namedKeys (keysOf g))).
      { apply In_namedKeys. split; [|exact Ei]. rewrite E, keysOf_app.
        apply in_app_iff. right. now left. }
      rewrite Hn in Hin. now apply In_firstAppearances in Hin.
    + destruct (inherited (keyFor r)) eqn:Eh; [discriminate|].
      pose proof (Collected_create done g r Hc El Eh) as Hc'.
      apply lookupOwn_None in El.
      destruct (arrayIndex (keyFor r)) as [n|] eqn:Ea.
      * assert (Hidx : isIndexKey (keyFor r) = true)
          by (unfold isIndexKey; now rewrite Ea).
        apply (IH _ _ Hc'); unfold create; rewrite Ea.
        -- now apply insertIndexed_keys.
        -- destruct (insertIndexed_split n (keyFor r) [r] g) as (g1 & g2 & E & Ei).
           rewrite Ei, Hdk, Hidx, app_nil_r, <- Hn, E, !keysOf_app. simpl.
           rewrite !namedKeys_app. simpl. now rewrite Hidx.
      * assert (Hidx : isIndexKey (keyFor r) = false)
          by (unfold isIndexKey; now rewrite Ea).
        apply (IH _ _ Hc'); unfold create; rewrite Ea, keysOf_app.
        -- now apply sorted_snoc_named.
        -- simpl. rewrite namedKeys_snoc, Hdk, Hidx, Hn. symmetry.
           apply firstAppearances_fresh; [|tauto].
           intros Hin. apply In_namedKeys in Hin. destruct Hin as [Hin _].
           apply in_map_iff in Hin. destruct Hin as [r' [Er' Hr']].
           apply El. rewrite <- Er'. exact (keys_cover _ _ _ Hc r' Hr').
Qed.

(** The key of a collected group. *)
Lemma collected_head (done : list A) (g : @Groups A) (k : string) (v : list A) :
  Collected keyFor done g -> In (k, v) g ->
  exists r t, v = r :: t /\ keyFor r = k.
Proof.
  intros Hc Hin. destruct (group_is_filter _ _ _ Hc k v Hin) as [E Hne].
  destruct v as [|r t]; [congruence|]. exists r, t. split; [reflexivity|].
  assert (Hr : In r (filter (inGroup keyFor k) done)) by (rewrite <- E; now left).
  apply filter_In in Hr. destruct Hr as [_ Hr]. now apply String.eqb_eq in Hr.
Qed.
End Collect.

Lemma groupKey_collected (done : list Radio) (g : @Groups Radio) :
  Collected keyOf done g -> map groupKey (map snd g) = keysOf g.
Proof.
  intros Hc. unfold keysOf. rewrite map_map. apply map_ext_in.
  intros [k v] Hin. destruct (collected_head keyOf done g k v Hc Hin) as (r & t & -> & <-).
  reflexivity.
Qed.

(** X8: groupByName, content.js:99. When it returns, the groups hold every radio
    exactly once; each group is not empty and is exactly the radios carrying
    its key, in discovery order; the group of every radio is there; no two
    groups share a key. *)
Theorem groupByName_partitions_by_key (radios : list Radio) (groups : list (list Radio)) :
  groupByName radios = Normal groups ->
  Permutation (List.concat groups) radios
  /\ (forall g, In g groups ->
        g <> [] /\ g = filter (fun r => String.eqb (keyOf r) (groupKey g)) radios)
  /\ (forall r, In r radios ->
        In (filter (fun r' => String.eqb (keyOf r') (keyOf r)) radios) groups)
  /\ NoDup (map groupKey groups).
Proof.
  unfold groupByName, groupBy.
  destruct (collect keyOf radios []) as [g|] eqn:E; [|discriminate].
  intros [= <-].
  pose proof (collect_Collected keyOf radios [] [] g (Collected_nil keyOf) E) as Hc.
  simpl in Hc. pose proof (groupKey_collected radios g Hc) as Hk.
  split; [exact (groups_partition _ _ _ Hc)|]. split; [|split].
  - intros v Hin. apply in_map_iff in Hin. destruct Hin as [[k v'] [<- Hin]]. simpl.
    destruct (collected_head keyOf radios g k v' Hc Hin) as (r & t & Ev & Ek).
    destruct (group_is_filter _ _ _ Hc k v' Hin) as [Ef Hne].
    assert (Hgk : groupKey v' = k) by (rewrite Ev; exact Ek).
    split; [exact Hne|]. rewrite Hgk. exact Ef.
  - intros r Hr. pose proof (keys_cover _ _ _ Hc r Hr) as Hin.
    apply in_map_iff in Hin. destruct Hin as [[k v] [Ek Hin]]. simpl in Ek. subst k.
    destruct (group_is_filter _ _ _ Hc (keyOf r) v Hin) as [Ef _].
    apply in_map_iff. exists (keyOf r, v). split; [exact Ef | exact Hin].
  - rewrite Hk. exact (keys_distinct _ _ _ Hc).
Qed.

Lemma groupByName_partitions_by_key_witness :
  groupByName SamplePage.mixedRadios
  = Normal [[SamplePage.named "3"];
            [SamplePage.named "7"; SamplePage.named "7"];
            [SamplePage.named "q-b"; SamplePage.named "q-b"];
            [SamplePage.named "q-a"]]
  /\ NoDup (map groupKey [[SamplePage.named "3"];
                          [SamplePage.named "7"; SamplePage.named "7"];
                          [SamplePage.named "q-b"; SamplePage.named "q-b"];
                          [SamplePage.named "q-a"]]).
Proof.
  split; [vm_compute; reflexivity|].
  apply (groupByName_partitions_by_key SamplePage.mixedRadios).
  vm_compute. reflexivity.
Defined.

(** X9: groupByName, content.js:100-105. It throws exactly when some radio has a
    key that the empty object literal already answers through its
    prototype, such as "constructor" or "toString": what is read under that
    key is no array and has no push. *)
Theorem groupByName_throws_on_inherited_names (radios : list Radio) :
  groupByName radios = Abrupt
  <-> exists r, In r radios /\ inherited (keyOf r) = true.
Proof.
  unfold groupByName, groupBy.
  rewrite <- (collect_Abrupt keyOf radios [] [] (Collected_nil keyOf)).
  destruct (collect keyOf radios []); split; congruence.
Qed.

(** X10: groupByName, content.js:105. Object.values lists the groups whose key is
    an array index first, by ascending index, and then the other groups in the
    order in which their keys first appear among the radios. *)
Theorem groupByName_lists_index_keys_first (radios : list Radio) (groups : list (list Radio)) :
  groupByName radios = Normal groups ->
  StronglySorted precedes (map groupKey groups)
  /\ namedKeys (map groupKey groups)
     = firstAppearances [] (namedKeys (map keyOf radios)).
Proof.
  unfold groupByName, groupBy.
  destruct (collect keyOf radios []) as [g|] eqn:E; [|discriminate].
  intros [= <-].
  pose proof (collect_Collected keyOf radios [] [] g (Collected_nil keyOf) E) as Hc.
  simpl in Hc. rewrite (groupKey_collected radios g Hc).
  apply (collect_order keyOf radios [] [] g (Collected_nil keyOf)); trivial.
  constructor.
Qed.

Lemma groupByName_lists_index_keys_first_witness :
  map groupKey [[SamplePage.named "3"];
                [SamplePage.named "7"; SamplePage.named "7"];
                [SamplePage.named "q-b"; SamplePage.named "q-b"];
                [SamplePage.named "q-a"]]
  = ["3"; "7"; "q-b"; "q-a"]%string
  /\ namedKeys (map groupKey [[SamplePage.named "3"];
                              [SamplePage.named "7"; SamplePage.named "7"];
                              [SamplePage.named "q-b"; SamplePage.named "q-b"];
                              [SamplePage.named "q-a"]])
     = firstAppearances [] (namedKeys (map keyOf SamplePage.mixedRadios)).
Proof.
  split; [reflexivity|].
  apply (groupByName_lists_index_keys_first SamplePage.mixedRadios).
  vm_compute. reflexivity.
Defined.

End GroupingFacts.

(* ------------------------------------------------------------------------- *)
(** ** solveInThisFrame *)

Module OrchestratorFacts.
Import Program Dom Solver Grouping Orchestrator.

(** Running one script after another. *)
Lemma run_bind {E : Type -> Type} {W A B : Type} (h : Handler E W)
    (p : Prog E A) (f : A -> Prog E B) (w : W) :
  run h (bind p f) w
  = match outcome (run h p w) with
    | Normal a =>
        mkRun (outcome (run h (f a) (world (run h p w))))
              (world (run h (f a) (world (run h p w))))
              (trace (run h p w) ++ trace (run h (f a) (world (run h p w))))
    | Abrupt => mkRun Abrupt (world (run h p w)) (trace (run h p w))
    end.
Proof.
  revert w. induction p as [a | | X e k IH]; intros w; simpl.
  - now destruct (run h (f a) w).
  - reflexivity.
  - rewrite IH. unfold after.
    destruct (outcome (run h (k (fst (h X e w))) (snd (h X e w)))); reflexivity.
Qed.

Section Pass.
Context {W : Type} (h : Handler PageCall W).

Lemma questions_app (s t : list (Event PageCall)) :
  questions (s ++ t) = questions s ++ questions t.
Proof. apply flat_map_app. Qed.

Lemma flagWrites_app (s t : list (Event PageCall)) :
  flagWrites (s ++ t) = flagWrites s ++ flagWrites t.
Proof. apply flat_map_app. Qed.

(** The loop over the groups: it asks the groups in order, numbered from
    [i], stops at the first question that throws, and does nothing else but
    wait. *)
Lemma solveEach_run (groups : list (list Radio)) (i : nat) (w : W) :
  let r := run h (solveEach groups i) w in
  flagWrites (trace r) = [] /\ scans (trace r) = [] /\ navigations (trace r) = []
  /\ (exists later, numbered groups i = map fst (questions (trace r)) ++ later)
  /\ ((outcome r = Normal true
       /\ map fst (questions (trace r)) = numbered groups i
       /\ forallb endedNormally (questions (trace r)) = true)
      \/ (outcome r = Normal false
          /\ exists qs g j,
               questions (trace r) = qs ++ [(g, j, Abrupt)]
               /\ forallb endedNormally qs = true)).
Proof.
  revert i w. induction groups as [|g rest IH]; intros i w.
  - cbn. repeat split; try reflexivity. { now exists []. } left. repeat split.
  - cbn [solveEach run]. 
    destruct (h _ (solveQuestion g i) w) as [[x|] w1] eqn:E1; cbn [fst snd].
    + cbn [run]. destruct (h _ (settle 1000) w1) as [u w2] eqn:E2. cbn [fst snd].
      specialize (IH (S i) w2). cbv zeta in IH.
      destruct IH as (Hf & Hs & Hn & [later Hl] & Hcase).
      cbn [after trace outcome flagWrites scans navigations questions flat_map
           flagWriteOf scanOf navigationOf questionOf app].
      fold (flagWrites (trace (run h (solveEach rest (S i)) w2))).
      fold (scans (trace (run h (solveEach rest (S i)) w2))).
      fold (navigations (trace (run h (solveEach rest (S i)) w2))).
      fold (questions (trace (run h (solveEach rest (S i)) w2))).
      split; [exact Hf|]. split; [exact Hs|]. split; [exact Hn|].
      split; [exists later; cbn; now rewrite Hl|].
      destruct Hcase as [(Ho & Hq & Ha) | (Ho & qs & g' & j & Hq & Ha)].
      * left. split; [exact Ho|]. split; [cbn; now rewrite Hq | cbn; exact Ha].
      * right. split; [exact Ho|]. exists ((g, i, Normal x) :: qs), g', j.
        split; [cbn; now rewrite Hq | cbn; exact Ha].
    + cbn. repeat split; try reflexivity. { now exists (numbered rest (S i)). }
      right. split; [reflexivity|]. now exists [], g, i.
Qed.
(** The try block: one scan; no radio, a throwing groupByName, a throwing
    question, or every question followed by one navigation request. *)
Lemma tryBlock_run (w : W) :
  let r := run h tryBlock w in
  let t := trace r in
  flagWrites t = []
  /\ exists radios, scans t = [radios]
     /\ match radios, groupByName radios with
        | [], _ => outcome r = Normal NoRadios /\ questions t = [] /\ navigations t = []
        | _ :: _, Abrupt =>
            outcome r = Normal Caught /\ questions t = [] /\ navigations t = []
        | _ :: _, Normal groups =>
            (exists later, numbered groups 0 = map fst (questions t) ++ later)
            /\ ((outcome r = Normal Navigating
                 /\ map fst (questions t) = numbered groups 0
                 /\ forallb endedNormally (questions t) = true
                 /\ navigations t = [tt])
                \/ (outcome r = Normal Caught
                    /\ navigations t = []
                    /\ exists qs g j,
                         questions t = qs ++ [(g, j, Abrupt)]
                         /\ forallb endedNormally qs = true))
        end.
Proof.
  cbv zeta. unfold tryBlock. cbn [run].
  destruct (h _ (settle 2000) w) as [u w1] eqn:E1. cbn [fst snd].
  destruct (h _ findAllRadios w1) as [radios w2] eqn:E2. cbn [fst snd].
  destruct radios as [|r0 radios].
  - cbn. split; [reflexivity|]. exists []. repeat split.
  - destruct (groupByName (r0 :: radios)) as [groups|] eqn:Eg.
    + rewrite run_bind.
      pose proof (solveEach_run groups 0 w2) as H. cbv zeta in H.
      destruct H as (Hf & Hs & Hn & Hl & Hcase).
      set (loop := run h (solveEach groups 0) w2) in *.
      destruct Hcase as [(Ho & Hq & Ha) | (Ho & qs & g & j & Hq & Ha)]; rewrite Ho.
      * cbn [run].
        destruct (h _ (settle 2000) (world loop)) as [u' w3] eqn:E3. cbn [fst snd].
        destruct (h _ requestNavigateNext w3) as [u'' w4] eqn:E4. cbn [fst snd].
        cbn [after trace outcome].
        cbn [flagWrites scans navigations questions flat_map flagWriteOf scanOf
             navigationOf questionOf app].
        rewrite !flat_map_app. cbn [flat_map flagWriteOf scanOf navigationOf questionOf app].
        fold (flagWrites (trace loop)) (scans (trace loop))
             (navigations (trace loop)) (questions (trace loop)).
        rewrite Hf, Hs, Hn, !app_nil_r.
        split; [reflexivity|]. exists (r0 :: radios). split; [reflexivity|].
        rewrite Eg. split; [exact Hl|]. left. now repeat split.
      * cbn [run after trace outcome].
        cbn [flagWrites scans navigations questions flat_map flagWriteOf scanOf
             navigationOf questionOf app].
        rewrite !flat_map_app. cbn [flat_map flagWriteOf scanOf navigationOf questionOf app].
        fold (flagWrites (trace loop)) (scans (trace loop))
             (navigations (trace loop)) (questions (trace loop)).
        rewrite Hf, Hs, Hn, !app_nil_r.
        split; [reflexivity|]. exists (r0 :: radios). split; [reflexivity|].
        rewrite Eg. split; [exact Hl|]. right.
        split; [reflexivity|]. split; [reflexivity|]. now exists qs, g, j.
    + cbn. split; [reflexivity|]. exists (r0 :: radios). split; [reflexivity|].
      rewrite Eg. now repeat split.
Qed.

Lemma tryBlock_outcome (w : W) :
  exists e, outcome (run h tryBlock w) = Normal e /\ e <> AlreadyRunning.
Proof.
  destruct (tryBlock_run w) as (_ & radios & _ & H). cbv zeta in H.
  destruct radios as [|r0 radios].
  - destruct H as (Ho & _). exists NoRadios. now split.
  - destruct (groupByName (r0 :: radios)).
    + destruct H as (_ & [(Ho & _) | (Ho & _)]);
        [exists Navigating | exists Caught]; now split.
    + destruct H as (Ho & _). exists Caught. now split.
Qed.

(** The run of solveInThisFrame when the flag was clear: the flag is set,
    the try block runs, the finally block follows. *)
Lemma solveInThisFrame_run (isTop : bool) (w : W) :
  let r := run h (solveInThisFrame isTop false) w in
  exists w1, let b := run h tryBlock w1 in
  trace r = Ev (setRunning true) tt :: trace b
            ++ Ev (setRunning false) tt :: (if isTop then [Ev restoreButton tt] else [])
  /\ outcome r = outcome b.
Proof.
  cbv zeta. unfold solveInThisFrame. cbn [run].
  destruct (h _ (setRunning true) w) as [[] w1] eqn:E1. cbn [fst snd].
  exists w1. rewrite run_bind.
  destruct (tryBlock_outcome w1) as (e & He & _). rewrite He.
  cbn [run]. destruct (h _ (setRunning false) (world (run h tryBlock w1))) as [[] w2] eqn:E2.
  cbn [fst snd]. destruct isTop.
  - cbn [run]. destruct (h _ restoreButton w2) as [[] w3] eqn:E3. cbn.
    split; reflexivity.
  - cbn. split; reflexivity.
Qed.
End Pass.

(** X11: solveInThisFrame guards against re-entry and always releases the guard.
    Called while [running] is set it returns at once, touching nothing.
    Otherwise it never throws, sets [running] first, and whatever happens in
    between (no radios, an exception from groupByName or from a question,
    a finished pass) it clears [running] again after everything else, followed
    only by the button reset of the top frame; in between the flag is not
    written. *)
Theorem solveInThisFrame_guards_and_releases
    {W : Type} (h : Handler PageCall W) (isTop running : bool) (w : W) :
  let r := run h (solveInThisFrame isTop running) w in
  if running
  then r = mkRun (Normal AlreadyRunning) w []
  else
    (exists e, outcome r = Normal e /\ e <> AlreadyRunning)
    /\ flagWrites (trace r) = [true; false]
    /\ exists body,
         trace r = Ev (setRunning true) tt :: body
                   ++ Ev (setRunning false) tt
                      :: (if isTop then [Ev restoreButton tt] else [])
         /\ flagWrites body = [].
Proof.
  cbv zeta. destruct running; [reflexivity|].
  destruct (solveInThisFrame_run h isTop w) as (w1 & Ht & Ho). cbv zeta in Ht, Ho.
  destruct (tryBlock_run h w1) as (Hf & _). cbv zeta in Hf.
  split; [rewrite Ho; apply tryBlock_outcome|].
  split.
  - rewrite Ht. change (Ev (setRunning true) tt :: ?l) with ([Ev (setRunning true) tt] ++ l).
    cbn [flagWrites flat_map flagWriteOf app].
    rewrite flat_map_app. fold (flagWrites (trace (run h tryBlock w1))). rewrite Hf.
    now destruct isTop.
  - exists (trace (run h tryBlock w1)). now split.
Qed.

(** X12: One pass of solveInThisFrame over the page.  The page is scanned
    once.  With no radio nothing is asked and nothing navigates.  Otherwise
    the questions awaited are the groups of groupByName in order, numbered
    from 0, up to the first one that throws; the next page is requested, once,
    exactly when every group was awaited and none threw; a throw (from
    groupByName or from a question) ends the pass without navigating. *)
Theorem solveInThisFrame_navigates_after_every_question
    {W : Type} (h : Handler PageCall W) (isTop : bool) (w : W) :
  let r := run h (solveInThisFrame isTop false) w in
  let t := trace r in
  exists radios, scans t = [radios]
  /\ match radios, groupByName radios with
     | [], _ => outcome r = Normal NoRadios /\ questions t = [] /\ navigations t = []
     | _ :: _, Abrupt =>
         outcome r = Normal Caught /\ questions t = [] /\ navigations t = []
     | _ :: _, Normal groups =>
         (exists later, numbered groups 0 = map fst (questions t) ++ later)
         /\ ((outcome r = Normal Navigating
              /\ map fst (questions t) = numbered groups 0
              /\ forallb endedNormally (questions t) = true
              /\ navigations t = [tt])
             \/ (outcome r = Normal Caught
                 /\ navigations t = []
                 /\ exists qs g j,
                      questions t = qs ++ [(g, j, Abrupt)]
                      /\ forallb endedNormally qs = true))
     end.
Proof.
  cbv zeta.
  destruct (solveInThisFrame_run h isTop w) as (w1 & Ht & Ho). cbv zeta in Ht, Ho.
  destruct (tryBlock_run h w1) as (_ & radios & Hs & H). cbv zeta in H.
  set (b := run h tryBlock w1) in *.
  assert (Hq : questions (trace (run h (solveInThisFrame isTop false) w))
               = questions (trace b)).
  { rewrite Ht. change (Ev (setRunning true) tt :: ?l) with ([Ev (setRunning true) tt] ++ l).
    unfold questions. rewrite !flat_map_app. destruct isTop; cbn; now rewrite app_nil_r. }
  assert (Hn : navigations (trace (run h (solveInThisFrame isTop false) w))
               = navigations (trace b)).
  { rewrite Ht. change (Ev (setRunning true) tt :: ?l) with ([Ev (setRunning true) tt] ++ l).
    unfold navigations. rewrite !flat_map_app. destruct isTop; cbn; now rewrite app_nil_r. }
  assert (Hsc : scans (trace (run h (solveInThisFrame isTop false) w))
               = scans (trace b)).
  { rewrite Ht. change (Ev (setRunning true) tt :: ?l) with ([Ev (setRunning true) tt] ++ l).
    unfold scans. rewrite !flat_map_app. destruct isTop; cbn; now rewrite app_nil_r. }
  exists radios. rewrite Hq, Hn, Hsc, Ho. split; [exact Hs|exact H].
Qed.

End OrchestratorFacts.

(* ------------------------------------------------------------------------- *)
(** ** Patterns with a run of white space *)

Module PatternFacts.
Import JsText Patterns TextFacts.
Local Open Scope string_scope.

(** The search finds exactly the texts that hold [a], a run of white space
    and [b] in a row. *)
Lemma gapSearch_spec (a b s : string) :
  headIsSpace b = false ->
  gapSearch a b s = true
  <-> exists pre ws post, s = pre ++ a ++ ws ++ b ++ post /\ allSpace ws = true.
Proof.
  intros Hb. induction s as [|c s IH].
  - cbn [gapSearch]. rewrite orb_false_r. split.
    + destruct (afterPrefix a "") as [rest|] eqn:Ea; [|discriminate].
      intros Hs. apply afterPrefix_spec in Ea. apply startsWith_spec in Hs.
      destruct Hs as [post Hp]. destruct (trimStart_split rest) as [ws [Er Hws]].
      exists "", ws, post. split; [|exact Hws]. simpl. rewrite Ea. f_equal.
      rewrite Er at 1. now rewrite Hp.
    + intros [pre [ws [post [E Hws]]]]. destruct pre; [|discriminate]. simpl in E.
      assert (Ea : afterPrefix a "" = Some (ws ++ b ++ post)) by now apply afterPrefix_spec.
      rewrite Ea, trimStart_skip by exact Hws.
      destruct b as [|y b]; [reflexivity|].
      rewrite trimStart_fixed by exact Hb. apply startsWith_spec. eauto.
  - cbn [gapSearch]. rewrite orb_true_iff, IH. split.
    + intros [H | [pre [ws [post [E Hws]]]]].
      * destruct (afterPrefix a (String c s)) as [rest|] eqn:Ea; [|discriminate].
        apply afterPrefix_spec in Ea. apply startsWith_spec in H.
        destruct H as [post Hp]. destruct (trimStart_split rest) as [ws [Er Hws]].
        exists "", ws, post. split; [|exact Hws]. simpl. rewrite Ea. f_equal.
        rewrite Er at 1. now rewrite Hp.
      * exists (String c pre), ws, post. split; [|exact Hws]. simpl. now rewrite E.
    + intros [pre [ws [post [E Hws]]]]. destruct pre as [|x pre].
      * left. simpl in E.
        assert (Ea : afterPrefix a (String c s) = Some (ws ++ b ++ post))
          by now apply afterPrefix_spec.
        rewrite Ea, trimStart_skip by exact Hws.
        destruct b as [|y b].
        -- reflexivity.
        -- rewrite trimStart_fixed by exact Hb. apply startsWith_spec. eauto.
      * right. injection E as _ E. eauto.
Qed.

End PatternFacts.

(* ------------------------------------------------------------------------- *)
(** ** findCheckAnswerBtn, clickCheckAnswer *)

Module CheckAnswerFacts.
Import JsText Patterns Dom CheckAnswer DeepFind DeepFindMore TextFacts PatternFacts.
Local Open Scope string_scope.

Lemma In_querySelectorAll_InDeep (scope : Root) (sel : Selector) (b : Node) :
  In b (querySelectorAll scope sel) -> InDeep scope b /\ matches sel b = true.
Proof.
  intros H. apply deepFind_spec. unfold deepFind. apply in_or_app. now left.
Qed.

Lemma findIn_Some (scope : Root) (b : Node) :
  findIn scope = Some b ->
  InDeep scope b /\ matches (SelTag "button") b = true /\ saysCheckAnswer b = true.
Proof.
  unfold findIn. intros H. apply find_some in H. destruct H as [Hin Hs].
  apply In_querySelectorAll_InDeep in Hin. destruct Hin. auto.
Qed.

Lemma findIn_None (scope : Root) (b : Node) :
  findIn scope = None ->
  In b (querySelectorAll scope (SelTag "button")) -> saysCheckAnswer b = false.
Proof. unfold findIn. intros H Hin. exact (find_none _ _ H b Hin). Qed.

(** The loop returns the find of the first scope that has one. *)
Lemma searchScopes_Some (hops : nat) (root : RootNode) (document : Root) (b : Node) :
  searchScopes hops root document = Some b <->
  exists before scope later,
    scopes hops root document = (before ++ scope :: later)%list
    /\ (forall s, In s before -> findIn s = None)
    /\ findIn scope = Some b.
Proof.
  revert root. induction hops as [|hops IH]; intros root; simpl.
  - split; [discriminate|]. intros (before & scope & later & E & _).
    destruct before; discriminate.
  - destruct root as [|content hostRoot].
    + split.
      * intros H. exists [], document, []. now repeat split.
      * intros (before & scope & later & E & Hb & Hf).
        destruct before as [|x before].
        -- injection E as -> _. exact Hf.
        -- injection E as _ E. destruct before; discriminate.
    + destruct (findIn content) as [btn|] eqn:Ec.
      * split.
        -- intros [= ->]. exists [], content, (scopes hops hostRoot document).
           now repeat split.
        -- intros (before & scope & later & E & Hb & Hf).
           destruct before as [|x before].
           ++ injection E as -> _. congruence.
           ++ injection E as E1 _. specialize (Hb content (or_introl (eq_sym E1))).
              congruence.
      * rewrite IH. split.
        -- intros (before & scope & later & E & Hb & Hf).
           exists (content :: before), scope, later. rewrite E. split; [reflexivity|].
           split; [|exact Hf]. intros s [<- | Hs]; auto.
        -- intros (before & scope & later & E & Hb & Hf).
           destruct before as [|x before].
           ++ injection E as -> _. congruence.
           ++ injection E as _ E. exists before, scope, later.
              split; [exact E|]. split; [|exact Hf]. intros s Hs. apply Hb. now right.
Qed.

Lemma searchScopes_None (hops : nat) (root : RootNode) (document : Root) :
  searchScopes hops root document = None ->
  forall s, In s (scopes hops root document) -> findIn s = None.
Proof.
  revert root. induction hops as [|hops IH]; intros root; simpl; [tauto|].
  destruct root as [|content hostRoot].
  - intros H s [<- | []]. exact H.
  - destruct (findIn content) eqn:Ec; [discriminate|].
    intros H s [<- | Hs]; [exact Ec | exact (IH _ H s Hs)].
Qed.

Lemma light_InDeep (root : Root) (el : Node) :
  In el (flat_map lightElements root) -> InDeep root el.
Proof.
  intros H. apply (In_querySelectorAll_InDeep root SelAll el).
  unfold querySelectorAll. apply filter_In. split; [exact H|].
  apply in_flat_map in H. destruct H as [n [_ Hn]].
  unfold matches. now rewrite (lightElements_isElement n el Hn).
Qed.

Lemma Enclosed_InDeep (root : RootNode) (document : Root) (b : Node) :
  Enclosed root document -> InDeep (contentOf root document) b -> InDeep document b.
Proof.
  induction root as [|content hostRoot IH]; simpl; [tauto|].
  intros [[host [Hh Hs]] He] Hb. apply IH; [exact He|].
  apply (InDeep_through_shadow _ content host b); [|exact Hs|exact Hb].
  now apply light_InDeep.
Qed.

Lemma scopes_InDeep (hops : nat) (root : RootNode) (document scope : Root) (b : Node) :
  Enclosed root document ->
  In scope (scopes hops root document) -> InDeep scope b -> InDeep document b.
Proof.
  revert root. induction hops as [|hops IH]; intros root; simpl; [tauto|].
  destruct root as [|content hostRoot].
  - intros _ [<- | []]. trivial.
  - intros He [<- | Hs] Hb.
    + exact (Enclosed_InDeep (Shadow content hostRoot) document b He Hb).
    + destruct He as [_ He]. exact (IH hostRoot He Hs Hb).
Qed.

(** X13: findCheckAnswerBtn, content.js:220.  It throws exactly on an empty
    group.  What it returns is a button element: a button of one of the
    searched scopes whose text passes /check\s*answer/i, or, when no button of
    a searched scope passes that test, the first button of the document's
    tree, shadow trees included, whose trimmed and lower-cased text contains
    "check answer".  It returns null only if no button of a searched scope
    passes the test and no button anywhere in the document contains "check
    answer" in that way. *)
Theorem findCheckAnswerBtn_returns_a_check_answer_button
    (radios : list Placed) (document : Root) :
  match findCheckAnswerBtn radios document with
  | Abrupt => radios = []
  | Normal found =>
      exists radio rest,
        radios = radio :: rest
        /\ let searched := scopes 10 (getRootNode radio) document in
           let nothingSearched :=
             forall scope b,
               In scope searched ->
               In b (querySelectorAll scope (SelTag "button")) ->
               saysCheckAnswer b = false in
           match found with
           | Some b =>
               matches (SelTag "button") b = true
               /\ ((saysCheckAnswer b = true
                    /\ exists scope,
                         In scope searched
                         /\ In b (querySelectorAll scope (SelTag "button")))
                   \/ (nothingSearched
                       /\ mentions "check answer" b = true
                       /\ head (deepFindByText document "button" "check answer")
                          = Some b))
           | None =>
               nothingSearched
               /\ (forall b, InDeep document b -> matches (SelTag "button") b = true ->
                             mentions "check answer" b = false)
           end
  end.
Proof.
  destruct radios as [|radio rest]; [reflexivity|]. cbn [findCheckAnswerBtn].
  exists radio, rest. split; [reflexivity|]. cbv zeta.
  destruct (searchScopes 10 (getRootNode radio) document) as [btn|] eqn:Es.
  - apply searchScopes_Some in Es.
    destruct Es as (before & scope & later & E & _ & Hf).
    pose proof Hf as Hq. unfold findIn in Hq. apply find_some in Hq.
    apply findIn_Some in Hf. destruct Hf as (_ & Hm & Hs).
    split; [exact Hm|]. left. split; [exact Hs|]. exists scope.
    split; [rewrite E; apply in_or_app; right; now left | apply Hq].
  - assert (Hno : forall scope b,
                    In scope (scopes 10 (getRootNode radio) document) ->
                    In b (querySelectorAll scope (SelTag "button")) ->
                    saysCheckAnswer b = false).
    { intros scope b Hsc Hb.
      exact (findIn_None scope b (searchScopes_None _ _ _ Es scope Hsc) Hb). }
    destruct (deepFindByText document "button" "check answer") as [|b0 l] eqn:Ed;
      cbn [head].
    + split; [exact Hno|].
      intros b Hb Hm. destruct (mentions "check answer" b) eqn:Hmen; [|reflexivity].
      assert (Hin : In b (deepFindByText document "button" "check answer")).
      { unfold deepFindByText. apply filter_In. split; [|exact Hmen].
        apply deepFind_spec. now split. }
      rewrite Ed in Hin. destruct Hin.
    + assert (Hin : In b0 (deepFindByText document "button" "check answer"))
        by (rewrite Ed; now left).
      unfold deepFindByText in Hin. apply filter_In in Hin. destruct Hin as [Hdf Hmen].
      apply deepFind_spec in Hdf. destruct Hdf as [_ Hm].
      split; [exact Hm|]. right. split; [exact Hno|]. split; [exact Hmen | reflexivity].
Qed.

(** A no-break space between the two words is white space for the pattern. *)
Example check_answer_with_a_no_break_space :
  let btn := SampleQuiz.labelled "button" ("Check" ++ String "160" "Answer") in
  saysCheckAnswer btn = true
  /\ findCheckAnswerBtn [mkPlaced (Shadow [btn] NotShadow)] SampleQuiz.pageDocument
     = Normal (Some btn).
Proof. cbv zeta. split; vm_compute; reflexivity. Qed.

(** X14: findCheckAnswerBtn and clickCheckAnswer: the scopes are searched from the
    shadow root of the first radio outwards, and the first scope with a
    Check Answer button decides, whatever the scopes further out hold;
    clickCheckAnswer then enables that button, clicks it and returns true. *)
Theorem findCheckAnswerBtn_prefers_the_nearest_scope
    (radio : Placed) (rest : list Placed) (document : Root)
    (before : list Root) (scope : Root) (later : list Root) (b : Node) :
  scopes 10 (getRootNode radio) document = (before ++ scope :: later)%list ->
  (forall s, In s before -> findIn s = None) ->
  findIn scope = Some b ->
  findCheckAnswerBtn (radio :: rest) document = Normal (Some b)
  /\ clickCheckAnswer (radio :: rest) document
     = Normal (true, [enable b; removeDisabled b; nativeClick b]).
Proof.
  intros E Hb Hf.
  assert (Hs : searchScopes 10 (getRootNode radio) document = Some b).
  { apply searchScopes_Some. exists before, scope, later. auto. }
  unfold clickCheckAnswer. cbn [findCheckAnswerBtn]. now rewrite Hs.
Qed.

Lemma findCheckAnswerBtn_prefers_the_nearest_scope_witness :
  findCheckAnswerBtn [SampleQuiz.quizRadio] SampleQuiz.pageDocument
    = Normal (Some (SampleQuiz.labelled "button" "Check  Answer"))
  /\ clickCheckAnswer [SampleQuiz.quizRadio] SampleQuiz.pageDocument
     = Normal (true, [enable (SampleQuiz.labelled "button" "Check  Answer");
                      removeDisabled (SampleQuiz.labelled "button" "Check  Answer");
                      nativeClick (SampleQuiz.labelled "button" "Check  Answer")]).
Proof.
  apply (findCheckAnswerBtn_prefers_the_nearest_scope
           SampleQuiz.quizRadio [] SampleQuiz.pageDocument
           [] SampleQuiz.quizContent [SampleQuiz.pageDocument]).
  - reflexivity.
  - intros s [].
  - reflexivity.
Defined.

(** X15: findCheckAnswerBtn never leaves the page: when the shadow roots around
    the first radio belong to the document, the button returned is an element
    of the document's tree. *)
Theorem findCheckAnswerBtn_stays_in_the_document
    (radio : Placed) (rest : list Placed) (document : Root) (b : Node) :
  Enclosed (getRootNode radio) document ->
  findCheckAnswerBtn (radio :: rest) document = Normal (Some b) ->
  InDeep document b.
Proof.
  intros He. cbn [findCheckAnswerBtn].
  destruct (searchScopes 10 (getRootNode radio) document) as [btn|] eqn:Es.
  - intros [= ->]. apply searchScopes_Some in Es.
    destruct Es as (before & scope & later & E & _ & Hf).
    apply findIn_Some in Hf. destruct Hf as (Hd & _).
    apply (scopes_InDeep 10 (getRootNode radio) document scope b He); [|exact Hd].
    rewrite E. apply in_or_app. right. now left.
  - intros [= H].
    destruct (deepFindByText document "button" "check answer") as [|b0 l] eqn:Ed;
      [discriminate|]. injection H as ->.
    assert (Hin : In b (deepFindByText document "button" "check answer"))
      by (rewrite Ed; now left).
    unfold deepFindByText in Hin. apply filter_In in Hin. destruct Hin as [Hdf _].
    now apply deepFind_spec in Hdf.
Qed.

Lemma findCheckAnswerBtn_stays_in_the_document_witness :
  InDeep SampleQuiz.pageDocument (SampleQuiz.labelled "button" "Check  Answer").
Proof.
  apply (findCheckAnswerBtn_stays_in_the_document SampleQuiz.quizRadio []).
  - simpl. split; [|exact I]. exists SampleQuiz.quizHost. split; [|reflexivity].
    right. right. now left.
  - reflexivity.
Defined.

End CheckAnswerFacts.

(* ------------------------------------------------------------------------- *)
(** ** navigateNext *)

Module NavigationFacts.
Import JsText Patterns Dom Navigation DeepFind CheckAnswerFacts.
Local Open Scope string_scope.

Lemma fire_stage (t : Timer) (w : Watch) (s : Stage) :
  staged s w ->
  exists s', staged s' (fst (fire t w)) /\ reaches s s'
             /\ snd (fire t w) = effectsFrom s s'
             /\ (t = fallbackTimeout -> s' <> Waiting).
Proof.
  destruct w as [old r c st f rs]. destruct s; cbn [staged resolved restartSet fallbackSet].
  - intros (-> & -> & ->). destruct t as [src| | |threw]; cbn.
    + destruct c; cbn; [destruct (differs src old); cbn|].
      * exists Resolved. cbn. repeat split; discriminate.
      * exists Waiting. cbn. repeat split; discriminate.
      * exists Waiting. cbn. repeat split; discriminate.
    + destruct st; exists Waiting; cbn; repeat split; discriminate.
    + exists Resolved. cbn. repeat split; discriminate.
    + exists Waiting. cbn. repeat split; discriminate.
  - intros (-> & ->). destruct t as [src| | |threw]; cbn.
    + destruct c; cbn; [destruct (differs src old); cbn|];
        exists Resolved; cbn; repeat split; discriminate.
    + destruct st; exists Resolved; cbn; repeat split; discriminate.
    + destruct f; exists Resolved; cbn; repeat split; discriminate.
    + exists (Restarted threw). cbn. repeat split; discriminate.
  - intros (-> & ->). destruct t as [src| | |threw]; cbn.
    + destruct c; cbn; [destruct (differs src old); cbn|];
        exists (Restarted sendThrew); cbn; repeat split; discriminate.
    + destruct st; exists (Restarted sendThrew); cbn; repeat split; discriminate.
    + destruct f; exists (Restarted sendThrew); cbn; repeat split; discriminate.
    + exists (Restarted sendThrew). cbn. repeat split; discriminate.
Qed.

Lemma effectsFrom_trans (a b c : Stage) :
  reaches a b -> reaches b c ->
  reaches a c /\ effectsFrom a c = (effectsFrom a b ++ effectsFrom b c)%list.
Proof.
  destruct a, b, c; cbn; intros H1 H2; try contradiction; subst;
    rewrite ?app_nil_r; split; trivial.
Qed.

Lemma fireAll_stage (ts : list Timer) (w : Watch) (s : Stage) :
  staged s w ->
  exists s', staged s' (fst (fireAll ts w)) /\ reaches s s'
             /\ snd (fireAll ts w) = effectsFrom s s'
             /\ (In fallbackTimeout ts -> s' <> Waiting).
Proof.
  revert w s. induction ts as [|t rest IH]; intros w s Hs.
  - exists s. cbn. split; [exact Hs|]. split; [now destruct s|].
    split; [now destruct s | tauto].
  - cbn [fireAll]. destruct (fire_stage t w s Hs) as (s1 & H1 & R1 & E1 & F1).
    destruct (fire t w) as [w1 e1]. cbn [fst snd] in *.
    destruct (IH w1 s1 H1) as (s2 & H2 & R2 & E2 & F2).
    destruct (fireAll rest w1) as [w2 e2]. cbn [fst snd] in *.
    destruct (effectsFrom_trans s s1 s2 R1 R2) as [R E].
    exists s2. split; [exact H2|]. split; [exact R|].
    split; [now rewrite E, E1, E2|].
    intros [Ht | Hin]; [|now apply F2].
    specialize (F1 Ht). destruct s1, s2; cbn in R2; try contradiction; congruence.
Qed.

(** Without an iframe to watch, only the fallback resolves. *)
Lemma fireAll_unwatched (ts : list Timer) (w : Watch) :
  checking w = false -> resolved w = false -> ~ In fallbackTimeout ts ->
  restartSet w = false ->
  snd (fireAll ts w) = [].
Proof.
  revert w. induction ts as [|t rest IH]; intros w Hc Hr Hn Hrs; [reflexivity|].
  cbn [fireAll]. destruct w as [old r c st f rs]. cbn in Hc, Hr, Hrs. subst.
  destruct t as [src| | |threw].
  - cbn [fire checking]. specialize (IH (mkWatch old false false st f false)).
    destruct (fireAll rest _) as [w2 e2]. cbn in *. apply IH; tauto.
  - cbn [fire stopSet]. destruct st.
    + specialize (IH (mkWatch old false false false f false)).
      cbn [oldSrc resolved fallbackSet restartSet].
      destruct (fireAll rest _) as [w2 e2]. cbn in *. apply IH; tauto.
    + specialize (IH (mkWatch old false false false f false)).
      destruct (fireAll rest _) as [w2 e2]. cbn in *. apply IH; tauto.
  - exfalso. apply Hn. now left.
  - cbn [fire restartSet]. specialize (IH (mkWatch old false false st f false)).
    destruct (fireAll rest _) as [w2 e2]. cbn in *. apply IH; tauto.
Qed.

(** solveInThisFrame is called only by the 3 s callback whose send returned. *)
Lemma fireAll_restart (ts : list Timer) (w : Watch) :
  In callSolveInThisFrame (snd (fireAll ts w)) -> In (restartTimeout false) ts.
Proof.
  revert w. induction ts as [|t rest IH]; intros w; [intros []|].
  cbn [fireAll].
  assert (Ht : In callSolveInThisFrame (snd (fire t w)) -> t = restartTimeout false).
  { destruct w as [old r c st f rs]. destruct t as [src| | |[]]; cbn;
      unfold afterNav; cbn;
      repeat match goal with
             | |- context [if ?b then _ else _] => destruct b; cbn
             end;
      intros H; repeat (destruct H as [H|H]; try discriminate);
      try reflexivity; try contradiction. }
  specialize (IH (fst (fire t w))).
  destruct (fire t w) as [w1 e1]. cbn [fst snd] in *.
  destruct (fireAll rest w1) as [w2 e2]. cbn [fst snd] in *.
  intros H. apply in_app_iff in H. destruct H as [H|H]; [left | right]; auto.
Qed.

Lemma findNext_light (document : Root) (a : Node) :
  findNext document = Some a ->
  In a (flat_map lightElements document)
  /\ matches (SelTag "a") a = true
  /\ (hasNextClass a = true \/ saysNext a = true).
Proof.
  unfold findNext. destruct (find hasNextClass _) as [x|] eqn:E1.
  - intros [= ->]. apply find_some in E1. destruct E1 as [Hin Hc].
    unfold querySelectorAll in Hin. apply filter_In in Hin. tauto.
  - intros E2. apply find_some in E2. destruct E2 as [Hin Hc].
    unfold querySelectorAll in Hin. apply filter_In in Hin. tauto.
Qed.

Lemma findNext_None (document : Root) (a : Node) :
  findNext document = None ->
  In a (flat_map lightElements document) -> matches (SelTag "a") a = true ->
  hasNextClass a = false /\ saysNext a = false.
Proof.
  unfold findNext. destruct (find hasNextClass _) as [x|] eqn:E1; [discriminate|].
  intros E2 Hin Hm.
  assert (Hq : In a (querySelectorAll document (SelTag "a")))
    by (unfold querySelectorAll; apply filter_In; now split).
  split; [exact (find_none _ _ E1 a Hq) | exact (find_none _ _ E2 a Hq)].
Qed.

(** X16: navigateNext, content.js:483.  Without a Next link in the light tree of
    the document (no link of the class, none whose text passes /Next\s*:/i)
    it does nothing at all: no storage write, no click, no timer.  With one,
    it throws before the click when the storage write throws, and leaves no
    timer; otherwise it stores autoSolving, clicks the link, and whatever
    timer callbacks then run, in whatever order and however often the
    interval ticks, afterNav takes effect at most once: [running] is cleared
    at most once and the solver is re-triggered at most once, after that, and
    only by a 3 s callback whose send of "triggerSolve" returned.  Once the
    5 s fallback has run, [running] has been cleared; with no iframe to watch
    nothing happens before it. *)
Theorem navigateNext_restarts_at_most_once
    (document : Root) (iframe : option IframeSrc) (storageThrows : bool) :
  match navigateNext document iframe storageThrows with
  | (Normal None, done) =>
      findNext document = None /\ done = []
      /\ (forall a, In a (flat_map lightElements document) ->
                    matches (SelTag "a") a = true ->
                    hasNextClass a = false /\ saysNext a = false)
  | (Abrupt, done) =>
      storageThrows = true /\ done = [] /\ exists next, findNext document = Some next
  | (Normal (Some w), done) =>
      storageThrows = false
      /\ (exists next,
            findNext document = Some next
            /\ In next (flat_map lightElements document)
            /\ matches (SelTag "a") next = true
            /\ (hasNextClass next = true \/ saysNext next = true)
            /\ done = [storeAutoSolving; clickLink next])
      /\ forall ts,
           let after := snd (fireAll ts w) in
           (after = []
            \/ after = [clearRunning]
            \/ after = [clearRunning; sendTriggerSolve; callSolveInThisFrame])
           /\ (In fallbackTimeout ts -> In clearRunning after)
           /\ (iframe = None -> In clearRunning after -> In fallbackTimeout ts)
           /\ (In callSolveInThisFrame after -> In (restartTimeout false) ts)
  end.
Proof.
  unfold navigateNext. destruct (findNext document) as [next|] eqn:En.
  2:{ split; [reflexivity|]. split; [reflexivity|].
      intros a. now apply findNext_None. }
  destruct storageThrows.
  { split; [reflexivity|]. split; [reflexivity|]. now exists next. }
  split; [reflexivity|]. split.
  - exists next. split; [reflexivity|].
    apply findNext_light in En. destruct En as (H1 & H2 & H3). now repeat split.
  - intros ts. cbv zeta.
    set (w := mkWatch _ _ _ _ _ _).
    destruct (fireAll_stage ts w Waiting) as (s' & _ & _ & E & F);
      [cbn; now repeat split|].
    split; [|split; [|split]].
    + rewrite E. destruct s' as [ | |[]]; cbn; auto.
    + intros Hin. specialize (F Hin). rewrite E.
      destruct s' as [ | |[]]; cbn; auto; congruence.
    + intros -> Hclr. destruct (in_dec (fun a b : Timer =>
        ltac:(repeat decide equality) : {a = b} + {a <> b})
        fallbackTimeout ts) as [Hin | Hn]; [exact Hin|].
      rewrite (fireAll_unwatched ts w) in Hclr; trivial. destruct Hclr.
    + apply fireAll_restart.
Qed.

(** A no-break space before the colon is white space for the pattern. *)
Example next_link_with_a_no_break_space :
  let link := Elem "a" [] None (Px 80) (Px 20)
                [Text ("Next" ++ String "160" ": Chapter 2")] None in
  saysNext link = true
  /\ snd (navigateNext [link] None false) = [storeAutoSolving; clickLink link].
Proof. cbv zeta. split; vm_compute; reflexivity. Qed.

End NavigationFacts.

(* ------------------------------------------------------------------------- *)
(** ** Start and navigation signals *)

Module MessagingFacts.
Import Messaging.
Local Open Scope string_scope.

Ltac routes r g :=
  let Hw := fresh "Hw" in let Ht := fresh "Ht" in
  let Hf := fresh "Hf" in let Hi := fresh "Hi" in let Hp := fresh "Hp" in
  destruct (toWorker r) eqn:Hw;
  destruct (Background.falsyTabId (tabId r)) eqn:Ht;
  destruct (toFrame r (frameId g)) eqn:Hf;
  destruct (injects r (frameId g)) eqn:Hi;
  destruct (toParent r) eqn:Hp;
  cbn [frameId] in Hf, Hi;
  repeat (cbn; rewrite ?Hw, ?Ht, ?Hf, ?Hi, ?Hp);
  try reflexivity.

(** X17: requestNavigateNext, the relay of background.js:99 and the two listeners
    of the top frame.  One request makes navigateNext() run in the top frame:
    once when it comes from the top frame itself; from a nested frame not at
    all when the send to the worker throws, for the postMessage is then not
    reached and the request ends in that throw; otherwise once for the relay
    through the worker, if that works, and once more for the postMessage, if
    that arrives, when the requesting frame lies directly under the top
    frame -- twice in all for a quiz frame embedded in the top page.  No other
    frame ever navigates. *)
Theorem nested_request_navigates_through_both_channels
    (r : Routes) (f : Frame) (sendThrows : bool) :
  navigateNextCalls r f sendThrows
  = (if isTop f then 1
     else if sendThrows then 0
     else b2n (relays r top) + b2n (toParent r && parentIs top f))%nat
  /\ (forall g, isTop g = false ->
        filter isNavigates (reactions r f g (requestNavigateNext f sendThrows)) = [])
  /\ (isTop f = false -> sendThrows = true ->
        requestNavigateNext f sendThrows = []
        /\ forall navigateThrows,
             requestNavigateNextThrows f sendThrows navigateThrows = true)
  /\ (isTop f = false -> sendThrows = false ->
        requestNavigateNext f sendThrows
        = [runtimeSend "navigateNext"; postToParent "nerd-auto-solver-navigate"]
        /\ forall navigateThrows,
             requestNavigateNextThrows f sendThrows navigateThrows = false).
Proof.
  split; [|split; [|split]].
  - unfold navigateNextCalls, relays, reactions, requestNavigateNext.
    destruct f as [|i p pl]; [reflexivity|].
    destruct sendThrows; [reflexivity|].
    cbn [isTop flat_map reaction parentIs frameId scriptRuns].
    unfold onWorkerMessage. cbn [String.eqb Ascii.eqb Bool.eqb].
    destruct (Nat.eqb p 0); routes r top.
  - intros g Hg. destruct g as [|j q pl']; [discriminate|].
    unfold reactions, requestNavigateNext. destruct f as [|i p pl]; [reflexivity|].
    destruct sendThrows; [reflexivity|].
    cbn [isTop flat_map reaction parentIs frameId scriptRuns onWindowMessage].
    unfold onWorkerMessage. cbn [String.eqb Ascii.eqb Bool.eqb].
    destruct (Nat.eqb p (S j)), pl'; routes r (nested j q false).
  - intros Hf ->. unfold requestNavigateNext, requestNavigateNextThrows.
    rewrite Hf. split; reflexivity.
  - intros Hf ->. unfold requestNavigateNext, requestNavigateNextThrows.
    rewrite Hf. split; reflexivity.
Qed.

(** X18: onButtonClick, the triggerSolve handler of background.js:77 and the two
    start listeners.  One click calls solveInThisFrame() in the top frame up
    to three times (directly, for the startSolving message and for the
    injected event) and in every other frame where the script runs up to
    twice; a nested player frame is never started. *)
Theorem one_click_calls_solveInThisFrame_by_three_paths (r : Routes) (g : Frame) :
  solveCalls r g
  = (if scriptRuns g
     then b2n (isTop g) + b2n (relays r g)
          + b2n (toWorker r && negb (Background.falsyTabId (tabId r))
                 && injects r (frameId g))
     else 0)%nat.
Proof.
  unfold solveCalls, relays, reactions.
  cbn [onButtonClick flat_map reaction].
  unfold onWorkerMessage. cbn [String.eqb Ascii.eqb Bool.eqb].
  destruct g as [|j q pl]; [|destruct pl]; cbn [scriptRuns isTop frameId Nat.eqb b2n negb].
  - routes r top.
  - routes r (nested j q true).
  - routes r (nested j q false).
Qed.

End MessagingFacts.

(* ------------------------------------------------------------------------- *)
(** ** The re-entrancy guard of solveInThisFrame *)

Module EventLoopFacts.
Import Program Solver Grouping Orchestrator EventLoop OrchestratorFacts.

Lemma Quiet_bind {A B : Type} (p : Prog PageCall A) (f : A -> Prog PageCall B) :
  Quiet p -> (forall a, Quiet (f a)) -> Quiet (bind p f).
Proof.
  induction p as [a | | X e k IH]; cbn; intros Hq Hf.
  - apply Hf.
  - destruct Hq.
  - destruct Hq as [He Hk]. split; [exact He|]. intros x. apply IH; auto.
Qed.

Lemma Holding_bind {A : Type} (p : Prog PageCall A) (f : A -> Prog PageCall PassEnd) :
  Quiet p -> (forall a, Holding (f a)) -> Holding (bind p f).
Proof.
  induction p as [a | | X e k IH]; cbn; intros Hq Hf.
  - apply Hf.
  - destruct Hq.
  - destruct Hq as [He Hk]. rewrite He. intros x. apply IH; auto.
Qed.

Lemma Quiet_solveEach (groups : list (list Radio)) (i : nat) : Quiet (solveEach groups i).
Proof.
  revert i. induction groups as [|g rest IH]; intros i; cbn; [exact I|].
  split; [reflexivity|]. intros [x|]; cbn; [|exact I].
  split; [reflexivity|]. intros _. apply IH.
Qed.

Lemma Quiet_tryBlock : Quiet tryBlock.
Proof.
  unfold tryBlock. cbn. split; [reflexivity|]. intros _. split; [reflexivity|].
  intros [|r0 radios]; [exact I|].
  destruct (groupByName (r0 :: radios)) as [groups|]; [|exact I].
  apply Quiet_bind; [apply Quiet_solveEach|].
  intros [|]; cbn; [|exact I]. now repeat split.
Qed.

(** Past the guard, solveInThisFrame sets the flag and then holds it. *)
Lemma solveInThisFrame_Holding (isTop : bool) :
  exists k, solveInThisFrame isTop false = Vis (setRunning true) k /\ Holding (k tt).
Proof.
  unfold solveInThisFrame. eexists. split; [reflexivity|]. cbn beta.
  apply Holding_bind; [apply Quiet_tryBlock|].
  intros e. cbn. intros _. destruct isTop; cbn; now repeat split.
Qed.

Lemma flagWriteOf_flagOf {X : Type} (e : PageCall X) (x : X) :
  flagWriteOf (Ev e x) = match flagOf e with Some b => [b] | None => [] end.
Proof. now destruct e. Qed.

Lemma flagWrites_snoc {X : Type} (t : list (Event PageCall)) (e : PageCall X) (x : X) :
  flagWrites (t ++ [Ev e x])
  = flagWrites t ++ match flagOf e with Some b => [b] | None => [] end.
Proof.
  unfold flagWrites. rewrite flat_map_app. cbn [flat_map].
  now rewrite app_nil_r, flagWriteOf_flagOf.
Qed.

Lemma awaited_flagOf {X : Type} (e : PageCall X) : awaited e = true -> flagOf e = None.
Proof. now destruct e. Qed.

Lemma turns_snoc (n : nat) : turns (S n) = turns n ++ [true; false].
Proof.
  induction n as [|n IH]; [reflexivity|].
  cbn [turns app] in *. now rewrite <- IH.
Qed.

Section Frame.
Context {W : Type} (h : Handler PageCall W).

Lemma advance_Finishing (p : Prog PageCall PassEnd) (fr : FrameState W) :
  Finishing p ->
  running (advance h p fr) = running fr
  /\ passes (advance h p fr) = passes fr
  /\ flagWrites (log (advance h p fr)) = flagWrites (log fr).
Proof.
  revert fr. induction p as [a | | X e k IH]; intros fr; cbn [advance Finishing];
    [now intros _ | now intros _ |].
  intros (Ha & Hf & Hk). rewrite Ha.
  destruct (IH _ (snd (answer h e fr)) (Hk (fst (answer h e fr)))) as (H1 & H2 & H3).
  rewrite H1, H2, H3. unfold answer. cbn [snd running passes log].
  rewrite Hf, flagWrites_snoc, Hf, app_nil_r. now repeat split.
Qed.

Lemma advance_Holding (p : Prog PageCall PassEnd) (fr : FrameState W) (n : nat) :
  Holding p ->
  running fr = true -> passes fr = [] -> flagWrites (log fr) = turns n ++ [true] ->
  InStep (advance h p fr) n \/ InStep (advance h p fr) (S n).
Proof.
  revert fr. induction p as [a | | X e k IH]; intros fr; cbn [advance Holding];
    [intros [] | intros [] |].
  intros Hh Hr Hp Hl. destruct (awaited e) eqn:Ha.
  - left. left. cbn [running passes log]. rewrite Hp.
    rewrite (awaited_flagOf e Ha) in Hh.
    split; [exact Hr|]. split; [|exact Hl]. exists X, e, k. now repeat split.
  - destruct (flagOf e) as [[|]|] eqn:Hf.
    + destruct Hh.
    + right. right.
      destruct (advance_Finishing (k (fst (answer h e fr))) (snd (answer h e fr))
                  (Hh (fst (answer h e fr)))) as (H1 & H2 & H3).
      rewrite H1, H2, H3. unfold answer. cbn [snd running passes log].
      rewrite Hf, flagWrites_snoc, Hf, Hl, turns_snoc, <- app_assoc.
      now repeat split.
    + apply IH; [apply Hh | | |]; unfold answer; cbn [snd running passes log].
      * now rewrite Hf.
      * exact Hp.
      * now rewrite flagWrites_snoc, Hf, app_nil_r.
Qed.

Lemma act_InStep (isTop : bool) (fr : FrameState W) (a : Action) (n : nat) :
  InStep fr n -> exists n', InStep (act h isTop fr a) n'.
Proof.
  intros [(Hr & (X & e & k & Hp & Ha & Hk) & Hl) | (Hr & Hp & Hl)].
  - destruct a as [|i]; cbn [act].
    + rewrite Hr. cbn. exists n. left. split; [exact Hr|]. split; [|exact Hl].
      exists X, e, k. now repeat split.
    + rewrite Hp. destruct i as [|i].
      * cbn [nth_error firstn skipn app]. cbv zeta.
        pose proof (awaited_flagOf e Ha) as Hf.
        destruct (advance_Holding
                    (k (fst (answer h e (mkFrameState (running fr) (page fr) [] (log fr)))))
                    (snd (answer h e (mkFrameState (running fr) (page fr) [] (log fr))))
                    n (Hk _)) as [H | H].
        -- unfold answer. cbn [snd running]. now rewrite Hf.
        -- reflexivity.
        -- unfold answer. cbn [snd log]. now rewrite flagWrites_snoc, Hf, app_nil_r.
        -- now exists n.
        -- now exists (S n).
      * cbn [nth_error]. destruct i; cbn [nth_error]; exists n; left;
          (split; [exact Hr|]; split; [|exact Hl]; exists X, e, k; now repeat split).
  - destruct a as [|i]; cbn [act].
    + rewrite Hr. destruct (solveInThisFrame_Holding isTop) as (k & -> & Hk).
      cbn [advance awaited].
      destruct (advance_Holding (k (fst (answer h (setRunning true) fr)))
                  (snd (answer h (setRunning true) fr)) n) as [H | H].
      * destruct (fst (answer h (setRunning true) fr)). exact Hk.
      * reflexivity.
      * exact Hp.
      * unfold answer. cbn [snd log]. rewrite flagWrites_snoc. cbn [flagOf]. now rewrite Hl.
      * now exists n.
      * now exists (S n).
    + rewrite Hp. destruct i; cbn [nth_error]; exists n; right; now repeat split.
Qed.

Lemma actAll_InStep (isTop : bool) (schedule : list Action) (fr : FrameState W) (n : nat) :
  InStep fr n -> exists n', InStep (actAll h isTop schedule fr) n'.
Proof.
  revert fr n. induction schedule as [|a rest IH]; intros fr n H; cbn.
  - now exists n.
  - destruct (act_InStep isTop fr a n H) as [n1 H1]. exact (IH _ n1 H1).
Qed.
End Frame.

(** X19: The guard of solveInThisFrame, content.js:562-563 and 596.  However the
    calls of solveInThisFrame() (button, startSolving message, injected
    event) and the settling of awaited promises interleave in a frame, at most
    one pass is ever under way; [running] is set exactly while one is; and the
    writes to [running] take turns, true then false, starting with true. *)
Theorem one_pass_at_a_time
    {W : Type} (h : Handler PageCall W) (isTop : bool) (w : W) (schedule : list Action) :
  let fr := actAll h isTop schedule (idle w) in
  (List.length (passes fr) <= 1)%nat
  /\ (running fr = true <-> passes fr <> [])
  /\ exists n, flagWrites (log fr) = turns n ++ (if running fr then [true] else []).
Proof.
  cbv zeta.
  destruct (actAll_InStep h isTop schedule (idle w) 0) as [n H].
  { right. now repeat split. }
  destruct H as [(Hr & (X & e & k & Hp & _) & Hl) | (Hr & Hp & Hl)]; rewrite Hr, Hp.
  - split; [cbn; lia|]. split; [split; [discriminate | reflexivity]|]. now exists n.
  - split; [cbn; lia|]. split; [split; [discriminate | congruence]|].
    exists n. now rewrite app_nil_r.
Qed.

(** X20: afterNav, content.js:516, clears [running] without regard to a pass under
    way: after the reset a call of solveInThisFrame() always starts a pass,
    which sets the flag and waits beside the passes already there; so a call,
    the reset, and a second call leave two passes waiting in the same frame,
    both having set the flag. *)
Theorem afterNav_reset_lets_a_second_pass_in
    {W : Type} (h : Handler PageCall W) (isTop : bool) (fr : FrameState W) (w : W) :
  let fr' := act h isTop (afterNavReset fr) call in
  let twice := act h isTop (afterNavReset (act h isTop (idle w) call)) call in
  List.length (passes fr') = S (List.length (passes fr))
  /\ running fr' = true
  /\ flagWrites (log fr') = flagWrites (log fr) ++ [true]
  /\ List.length (passes twice) = 2%nat
  /\ flagWrites (log twice) = [true; true].
Proof.
  cbv zeta. unfold solveInThisFrame, tryBlock. cbn.
  destruct (h unit (setRunning true) (page fr)) as [[] w0]. cbn.
  destruct (h unit (setRunning true) w) as [[] w1]. cbn.
  destruct (h unit (setRunning true) w1) as [[] w2]. cbn.
  rewrite length_app, Nat.add_1_r, flagWrites_snoc. cbn [flagOf].
  now repeat split.
Qed.

End EventLoopFacts.

(* ------------------------------------------------------------------------- *)
(** ** The prompt and the letter of the reply *)

Module PromptFacts.
Import JsText Background Prompt Solver TextFacts BackgroundFacts.
Local Open Scope string_scope.

Lemma firstAF_skip (s rest : string) :
  firstAF s = None -> firstAF (s ++ rest) = firstAF rest.
Proof.
  induction s as [|c s IH]; simpl; [reflexivity|].
  destruct ((65 <=? code c)%N && (code c <=? 70)%N); [discriminate | exact IH].
Qed.

(** A decimal numeral holds no letter. *)
Lemma numeral_no_letter (d : Decimal.uint) :
  firstAF (toUpperCase (NilEmpty.string_of_uint d)) = None.
Proof. induction d; simpl; trivial. Qed.

Lemma firstLetterIndex_label (i : nat) (rest : string) :
  firstLetterIndex (label i ++ rest)
  = if (i <? 6)%nat then Z.of_nat i else firstLetterIndex rest.
Proof.
  do 6 (destruct i as [|i]; [reflexivity|]).
  unfold label. cbn [nth_error letters Nat.ltb Nat.leb].
  replace (nth_error (@nil string) i) with (@None string) by now destruct i.
  unfold firstLetterIndex, toUpperCase, decimal. rewrite smap_append.
  now rewrite firstAF_skip by apply numeral_no_letter.
Qed.

Lemma firstLetterIndex_lower_label (i : nat) (rest : string) :
  firstLetterIndex (toLowerCase (label i) ++ rest)
  = if (i <? 6)%nat then Z.of_nat i else firstLetterIndex rest.
Proof.
  do 6 (destruct i as [|i]; [reflexivity|]).
  unfold label. cbn [nth_error letters Nat.ltb Nat.leb].
  replace (nth_error (@nil string) i) with (@None string) by now destruct i.
  unfold firstLetterIndex, toUpperCase, toLowerCase, decimal. rewrite smap_append.
  rewrite firstAF_skip; [reflexivity|].
  generalize (Nat.to_uint (S (S (S (S (S (S i))))))). intros d.
  induction d; simpl; trivial.
Qed.

Lemma optionLines_nth (options : list string) (from i : nat) :
  nth_error (optionLines from options) i
  = option_map (fun o => label (from + i) ++ ". " ++ o) (nth_error options i).
Proof.
  revert from i. induction options as [|o rest IH]; intros from i.
  - now destruct i.
  - destruct i as [|i]; cbn [optionLines nth_error option_map].
    + now rewrite Nat.add_0_r.
    + rewrite IH. now rewrite Nat.add_succ_r.
Qed.

(** X21: The prompt of background.js:25-28 and the mapping of the reply,
    background.js:64-65.  A reply that starts with the label of option [i],
    in either case, is mapped back to [i] for the first six options.  From the
    seventh on the label is a number and names nothing: the reply is mapped by
    whatever follows it, so a reply that repeats such a line of the prompt is
    mapped by the first letter A-F of the option's own text.  The index sent is
    at most 5, and so is the first option solveOneQuestion tries. *)
Theorem reply_letter_maps_back_to_its_option (i : nat) (rest : string) :
  indexOfRaw (label i ++ rest)
    = (if (i <? 6)%nat then Z.of_nat i else indexOfRaw rest)
  /\ indexOfRaw (toLowerCase (label i) ++ rest)
     = (if (i <? 6)%nat then Z.of_nat i else indexOfRaw rest)
  /\ (forall options,
        match nth_error (optionLines 0 options) i with
        | Some line =>
            exists o, nth_error options i = Some o
                      /\ line = label i ++ ". " ++ o
                      /\ indexOfRaw line
                         = (if (i <? 6)%nat then Z.of_nat i else indexOfRaw o)
        | None => (List.length options <= i)%nat
        end)
  /\ (forall n raw, (aiChoiceOf n (Some (Num (indexOfRaw raw))) <= 5)%Z).
Proof.
  rewrite !indexOfRaw_firstLetterIndex.
  split; [apply firstLetterIndex_label|].
  split; [apply firstLetterIndex_lower_label|]. split.
  - intros options. rewrite optionLines_nth. cbn [Nat.add].
    destruct (nth_error options i) as [o|] eqn:Eo; cbn [option_map].
    + exists o. split; [reflexivity|]. split; [reflexivity|].
      rewrite !indexOfRaw_firstLetterIndex, firstLetterIndex_label.
      destruct (i <? 6)%nat; reflexivity.
    + now apply nth_error_None.
  - intros n raw. unfold aiChoiceOf. cbn [indexOrZero].
    rewrite indexOfRaw_firstLetterIndex.
    pose proof (firstLetterIndex_range raw). lia.
Qed.

(** X22: From the worker's response to the first trial: whatever body the API
    returned, askAI resolves to an object (never undefined), and the option
    solveOneQuestion tries first is the first letter A-F of the reply text,
    clamped to the group, or option 0 when the handler answered with an
    error; the error is flagged exactly when the handler threw and its message
    is not empty. *)
Theorem worker_reply_decides_the_first_trial (data : Json) (message : string) (n : nat) :
  exists r,
    askAI_callback (Delivered (Some (replyOf (askAI_respond data) message))) = Some r
    /\ aiChoiceOf n (index r)
       = match rawOf data with
         | Normal raw => Z.min (firstLetterIndex raw) (Z.of_nat n - 1)
         | Abrupt => Z.min 0 (Z.of_nat n - 1)
         end
    /\ error r
       = match rawOf data with
         | Normal _ => false
         | Abrupt => truthy (Some message)
         end.
Proof.
  unfold askAI_respond. destruct (rawOf data) as [raw|]; cbn.
  - eexists. split; [reflexivity|]. cbn. split; [|reflexivity].
    unfold aiChoiceOf. cbn [indexOrZero]. rewrite indexOfRaw_firstLetterIndex.
    pose proof (firstLetterIndex_range raw). lia.
  - destruct message as [|c m]; cbn; eexists; (split; [reflexivity|]); cbn;
      split; reflexivity.
Qed.

End PromptFacts.

(* ------------------------------------------------------------------------- *)
(** ** getQuestionText *)

Module QuestionTextFacts.
Import JsText Patterns Dom QuestionText TextFacts PatternFacts.
Local Open Scope string_scope.

Lemma length_smap (f : ascii -> ascii) (s : string) :
  String.length (smap f s) = String.length s.
Proof. induction s as [|c s IH]; simpl; [reflexivity | now rewrite IH]. Qed.

(** A prefix of the folded text comes from a prefix of the text. *)
Lemma smap_prefix (f : ascii -> ascii) (p s post : string) :
  smap f s = p ++ post ->
  exists s1 s2, s = s1 ++ s2 /\ smap f s1 = p /\ smap f s2 = post
                /\ s2 = drop (String.length p) s.
Proof.
  revert s. induction p as [|a p IH]; intros s E.
  - exists "", s. now repeat split.
  - destruct s as [|c s]; [discriminate|]. simpl in E. injection E as Ea E.
    destruct (IH s E) as (s1 & s2 & -> & H1 & H2 & H3).
    exists (String c s1), s2. simpl. rewrite H1, Ea. now repeat split.
Qed.

Lemma startsWithI_split (p s : string) :
  startsWithI p s = true ->
  exists s1, s = s1 ++ drop (String.length p) s /\ toLowerCase s1 = toLowerCase p.
Proof.
  unfold startsWithI. intros H. apply startsWith_spec in H. destruct H as [post E].
  destruct (smap_prefix lowerChar (toLowerCase p) s post E) as (s1 & s2 & Es & H1 & _ & H3).
  exists s1. unfold toLowerCase in H3. rewrite length_smap in H3.
  split; [now rewrite <- H3 | exact H1].
Qed.

Lemma afterFirstI_split (p s rest : string) :
  afterFirstI p s = Some rest ->
  exists pre s1, s = pre ++ s1 ++ rest /\ toLowerCase s1 = toLowerCase p.
Proof.
  induction s as [|c s IH]; cbn [afterFirstI].
  - destruct (startsWithI p "") eqn:E; [|discriminate].
    intros [= <-]. destruct (startsWithI_split p "" E) as (s1 & Es & H1).
    exists "", s1. now split.
  - destruct (startsWithI p (String c s)) eqn:E.
    + intros [= <-]. destruct (startsWithI_split p _ E) as (s1 & Es & H1).
      exists "", s1. now split.
    + intros H. destruct (IH H) as (pre & s1 & -> & H1).
      exists (String c pre), s1. now split.
Qed.

Lemma startsWith_append (p s t : string) :
  startsWith p s = true -> startsWith p (s ++ t) = true.
Proof.
  intros H. apply startsWith_spec in H. destruct H as [post ->].
  apply startsWith_spec. exists (post ++ t). now rewrite append_assoc.
Qed.

Lemma beforeFirstI_split (p s inner : string) :
  beforeFirstI p s = Some inner ->
  exists s1 post, s = inner ++ s1 ++ post /\ toLowerCase s1 = toLowerCase p.
Proof.
  revert inner. induction s as [|c s IH]; intros inner; cbn [beforeFirstI].
  - destruct (startsWithI p "") eqn:E; [|discriminate].
    intros [= <-]. destruct (startsWithI_split p "" E) as (s1 & Es & H1).
    exists s1, (drop (String.length p) ""). now split.
  - destruct (startsWithI p (String c s)) eqn:E.
    + intros [= <-]. destruct (startsWithI_split p _ E) as (s1 & Es & H1).
      exists s1, (drop (String.length p) (String c s)). now split.
    + destruct (beforeFirstI p s) as [inner'|] eqn:Eb; [|discriminate].
      intros [= <-]. destruct (IH inner' eq_refl) as (s1 & post & -> & H1).
      exists s1, post. now split.
Qed.

(** The text before the first match holds no match. *)
Lemma beforeFirstI_clear (a : ascii) (p' s inner : string) :
  beforeFirstI (String a p') s = Some inner ->
  testLiteralI (String a p') inner = false.
Proof.
  set (p := String a p'). revert inner. induction s as [|c s IH]; intros inner;
    cbn [beforeFirstI].
  - destruct (startsWithI p ""); [|discriminate]. now intros [= <-].
  - destruct (startsWithI p (String c s)) eqn:E; [now intros [= <-]|].
    destruct (beforeFirstI p s) as [inner'|] eqn:Eb; [|discriminate].
    intros [= <-]. specialize (IH inner' eq_refl).
    unfold testLiteralI in *. cbn [toLowerCase smap includes]. fold (toLowerCase inner').
    rewrite IH, orb_false_r.
    destruct (startsWith (toLowerCase p) (String (lowerChar c) (toLowerCase inner')))
      eqn:Es; [|reflexivity].
    destruct (beforeFirstI_split p s inner' Eb) as (s1 & post & Hs & _).
    exfalso. unfold startsWithI in E. rewrite Hs in E.
    cbn [toLowerCase smap] in E. unfold toLowerCase in E. rewrite smap_append in E.
    change (String (lowerChar c) (smap lowerChar inner' ++ smap lowerChar (s1 ++ post)))
      with (String (lowerChar c) (smap lowerChar inner') ++ smap lowerChar (s1 ++ post)) in E.
    rewrite startsWith_append in E; [discriminate | exact Es].
Qed.

Lemma questionMatch_Between (t m1 : string) :
  questionMatch t = Some m1 ->
  Between t (trim m1) /\ testLiteralI "Select an Answer" m1 = false.
Proof.
  unfold questionMatch. destruct (afterFirstI "Question" t) as [rest|] eqn:Ea;
    [|discriminate].
  intros Hb. split; [|exact (beforeFirstI_clear _ _ _ _ Hb)].
  destruct (afterFirstI_split _ _ _ Ea) as (pre & opening & -> & Ho).
  destruct (trimStart_split rest) as (ws & Er & Hws).
  destruct (beforeFirstI_split _ _ _ Hb) as (closing & post & Ec & Hc).
  exists pre, opening, ws, m1, closing, post.
  split; [now rewrite Er at 1; rewrite Ec|]. now repeat split.
Qed.

(** trim() twice is trim() once. *)
Lemma trimEnd_idem (s : string) : trimEnd (trimEnd s) = trimEnd s.
Proof.
  induction s as [|c s IH]; [reflexivity|]. cbn [trimEnd].
  destruct (trimEnd s) as [|d r] eqn:E.
  - destruct (isSpace c) eqn:Hc; [reflexivity|]. cbn. now rewrite Hc.
  - cbn [trimEnd]. cbn [trimEnd] in IH. now rewrite IH.
Qed.

Lemma headIsSpace_trimStart (s : string) : headIsSpace (trimStart s) = false.
Proof.
  induction s as [|c s IH]; [reflexivity|]. cbn [trimStart].
  destruct (isSpace c) eqn:Hc; [exact IH | cbn; exact Hc].
Qed.

Lemma headIsSpace_trimEnd (s : string) :
  headIsSpace s = false -> headIsSpace (trimEnd s) = false.
Proof.
  destruct s as [|c s]; [reflexivity|]. cbn [headIsSpace trimEnd]. intros Hc.
  destruct (trimEnd s); [now rewrite Hc | exact Hc].
Qed.

Lemma trim_idem (s : string) : trim (trim s) = trim s.
Proof.
  unfold trim. rewrite (trimStart_fixed (trimEnd (trimStart s))).
  - apply trimEnd_idem.
  - apply headIsSpace_trimEnd, headIsSpace_trimStart.
Qed.

(** A text that passes the test as a part passes it as a whole. *)
Lemma testLiteralI_part (p pre s post : string) :
  testLiteralI p s = true -> testLiteralI p (pre ++ s ++ post) = true.
Proof.
  unfold testLiteralI, toLowerCase. intros H. apply includes_spec in H.
  destruct H as (a & b & E). apply includes_spec.
  exists (smap lowerChar pre ++ a), (b ++ smap lowerChar post).
  rewrite !smap_append, E, !append_assoc. reflexivity.
Qed.

Lemma trim_clear (p s : string) :
  testLiteralI p s = false -> testLiteralI p (trim s) = false.
Proof.
  intros H. destruct (testLiteralI p (trim s)) eqn:E; [|reflexivity].
  destruct (trim_split s) as (pre & post & Es & _).
  rewrite Es, (testLiteralI_part p pre (trim s) post E) in H. discriminate.
Qed.

Lemma mainWalk_Some (hops : nat) (el : option Element) (q : string) :
  mainWalk hops el = Some q ->
  (5 < String.length q)%nat
  /\ exists node m1,
       In node (walkNodes hops el)
       /\ includes (elText node) "Question" = true
       /\ includes (elText node) "Select an Answer" = true
       /\ questionMatch (elText node) = Some m1 /\ q = trim m1.
Proof.
  revert el. induction hops as [|hops IH]; intros el; [discriminate|].
  destruct el as [e|]; [|discriminate]. cbn [mainWalk walkNodes]. cbv zeta.
  destruct (includes (elText (inspected e)) "Question"
            && includes (elText (inspected e)) "Select an Answer") eqn:Hi.
  - destruct (questionMatch (elText (inspected e))) as [m1|] eqn:Hm.
    + destruct (5 <? String.length (trim m1))%nat eqn:Hl.
      * intros [= <-]. apply Nat.ltb_lt in Hl. split; [exact Hl|].
        apply andb_true_iff in Hi. destruct Hi as [Hi1 Hi2].
        exists (inspected e), m1. split; [now left|].
        split; [exact Hi1|]. split; [exact Hi2|]. split; [exact Hm | reflexivity].
      * intros H. destruct (IH _ H) as (Hq & node & m & Hin & R).
        split; [exact Hq|]. exists node, m. split; [now right | exact R].
    + intros H. destruct (IH _ H) as (Hq & node & m & Hin & R).
      split; [exact Hq|]. exists node, m. split; [now right | exact R].
  - intros H. destruct (IH _ H) as (Hq & node & m & Hin & R).
    split; [exact Hq|]. exists node, m. split; [now right | exact R].
Qed.

Lemma fallbackWalk_Some (hops : nat) (container : option Element) (q : string) :
  fallbackWalk hops container = Some q ->
  exists node m1,
    In node (containers hops container)
    /\ (50 < String.length (elText node) < 2000)%nat
    /\ questionMatch (elText node) = Some m1 /\ q = trim m1.
Proof.
  revert container. induction hops as [|hops IH]; intros container; [discriminate|].
  destruct container as [c|]; [|discriminate]. cbn [fallbackWalk containers]. cbv zeta.
  destruct ((50 <? String.length (elText c))%nat && (String.length (elText c) <? 2000)%nat)
    eqn:Hl.
  - destruct (questionMatch (elText c)) as [m1|] eqn:Hm.
    + intros [= <-]. apply andb_true_iff in Hl. destruct Hl as [H1 H2].
      apply Nat.ltb_lt in H1, H2. exists c, m1. split; [now left|].
      split; [exact (conj H1 H2)|]. split; [exact Hm | reflexivity].
    + intros H. destruct (IH _ H) as (node & m & Hin & R).
      exists node, m. split; [now right | exact R].
  - intros H. destruct (IH _ H) as (node & m & Hin & R).
    exists node, m. split; [now right | exact R].
Qed.

(** X23: getQuestionText, content.js:188.  It throws exactly on an empty group,
    which solveOneQuestion never passes on, an empty group counting as
    complete.  What it returns is trimmed and never contains "Select an
    Answer" in any letter case.  It is the placeholder, or the text between
    a "Question" and the next "Select an Answer" in one of the nodes read:
    from the walk of at most 20 nodes it is longer than 5 characters and the
    node's text holds both markers as written; from the fallback, over at
    most 10 ancestors of the first radio, the node's text has between 51 and
    1999 characters and the result may be empty. *)
Theorem getQuestionText_returns_text_between_the_markers (radios : list Element) :
  (isQuestionComplete radios = false -> radios <> [])
  /\ match getQuestionText radios with
     | Abrupt => radios = []
     | Normal q =>
         trim q = q
         /\ testLiteralI "Select an Answer" q = false
         /\ exists first rest,
              radios = first :: rest
              /\ ((exists node,
                     In node (walkNodes 20 (Some first))
                     /\ includes (elText node) "Question" = true
                     /\ includes (elText node) "Select an Answer" = true
                     /\ Between (elText node) q
                     /\ (5 < String.length q)%nat)
                  \/ (exists node,
                        In node (containers 10 (parentElement first))
                        /\ (50 < String.length (elText node) < 2000)%nat
                        /\ Between (elText node) q)
                  \/ q = placeholder)
     end.
Proof.
  split; [intros H ->; discriminate|].
  destruct radios as [|first rest]; [reflexivity|]. cbn [getQuestionText].
  destruct (mainWalk 20 (Some first)) as [q|] eqn:Em.
  - destruct (mainWalk_Some _ _ _ Em) as (Hq & node & m1 & Hin & Hi1 & Hi2 & Hm & ->).
    destruct (questionMatch_Between _ _ Hm) as [Hb Hc].
    split; [apply trim_idem|]. split; [now apply trim_clear|].
    exists first, rest. split; [reflexivity|]. left. exists node.
    split; [exact Hin|]. split; [exact Hi1|]. split; [exact Hi2|].
    split; [exact Hb | exact Hq].
  - destruct (fallbackWalk 10 (parentElement first)) as [q|] eqn:Ef.
    + destruct (fallbackWalk_Some _ _ _ Ef) as (node & m1 & Hin & Hl & Hm & ->).
      destruct (questionMatch_Between _ _ Hm) as [Hb Hc].
      split; [apply trim_idem|]. split; [now apply trim_clear|].
      exists first, rest. split; [reflexivity|]. right. left. exists node.
      split; [exact Hin|]. split; [exact Hl | exact Hb].
    + split; [reflexivity|]. split; [reflexivity|].
      exists first, rest. split; [reflexivity|]. now right; right.
Qed.

(** A no-break space after "Question" belongs to the white space the pattern
    skips, and one before the closing marker is trimmed away. *)
Example question_text_with_no_break_spaces :
  let t := "Question" ++ String "160" "What is a cell?" ++ String "160" "Select an Answer" in
  getQuestionText [mkElement t false None None] = Normal "What is a cell?".
Proof. cbv zeta. vm_compute. reflexivity. Qed.

End QuestionTextFacts.

(* ------------------------------------------------------------------------- *)
(** ** getLabel *)

Module OptionLabelFacts.
Import JsText Patterns OptionLabel Prompt TextFacts PatternFacts QuestionTextFacts.
Local Open Scope string_scope.

Lemma clean_trimmed (s : string) : trim (clean s) = clean s.
Proof. apply trim_idem. Qed.

Lemma substantial_nonempty (s : string) : substantial s = true -> s <> "".
Proof. now intros H ->. Qed.

Lemma trimStart_trimEnd (s : string) : trimStart (trimEnd s) = trimEnd (trimStart s).
Proof.
  induction s as [|c s IH]; [reflexivity|]. cbn [trimStart trimEnd].
  destruct (isSpace c) eqn:Hc.
  - rewrite <- IH. destruct (trimEnd s); cbn [trimStart]; now rewrite ?Hc.
  - cbn [trimEnd]. destruct (trimEnd s); cbn [trimStart]; now rewrite Hc.
Qed.

Lemma trimEnd_cons (c : ascii) (s : string) :
  isSpace c = false -> trimEnd (String c s) = String c (trimEnd s).
Proof. intros Hc. cbn [trimEnd]. destruct (trimEnd s); now rewrite ?Hc. Qed.

Lemma trimStart_trimEnd_space (c : ascii) (s : string) :
  isSpace c = true -> trimStart (trimEnd (String c s)) = trimStart (trimEnd s).
Proof. intros Hc. cbn [trimEnd]. destruct (trimEnd s); cbn [trimStart]; now rewrite ?Hc. Qed.

Lemma stripLetter_other (c : ascii) (r : string) :
  isOptionLetter c = false -> stripLetter (String c r) = String c r.
Proof. intros Hc. destruct r as [|d r]; cbn; [reflexivity | now rewrite Hc]. Qed.

Lemma clean_letter (c : ascii) (rest : string) :
  isOptionLetter c = true -> clean (String c (String "." rest)) = trim rest.
Proof.
  intros Hc. unfold clean.
  assert (Hs : isSpace c = false).
  { destruct c as [[] [] [] [] [] [] [] []]; try reflexivity; discriminate. }
  unfold trim at 2. cbn [trimStart]. rewrite Hs.
  rewrite (trimEnd_cons c _ Hs), (trimEnd_cons "." rest eq_refl).
  cbn [stripLetter]. rewrite Hc. cbn [andb code N_of_ascii N.eqb Pos.eqb].
  rewrite trimStart_trimEnd. apply trim_idem.
Qed.

Lemma clean_other (c : ascii) (r : string) :
  isOptionLetter c = false -> isSpace c = false ->
  clean (String c r) = trim (String c r).
Proof.
  intros Hc Hs. unfold clean.
  assert (E : trim (String c r) = String c (trimEnd r)).
  { unfold trim. cbn [trimStart]. rewrite Hs. now apply trimEnd_cons. }
  rewrite E at 1. rewrite (stripLetter_other c _ Hc), <- E. apply trim_idem.
Qed.

Lemma orNext_cases (text : option string) (next : string) :
  orNext text next = next
  \/ exists t, text = Some t /\ substantial (clean t) = true /\ orNext text next = clean t.
Proof.
  destruct text as [t|]; cbn [orNext]; [|now left].
  destruct (substantial (clean t)) eqn:E; [right; now exists t | now left].
Qed.

Lemma firstOf_cases (texts : list string) (next : string) :
  firstOf texts next = next
  \/ exists t, In t texts /\ substantial (clean t) = true /\ firstOf texts next = clean t.
Proof.
  induction texts as [|t rest IH]; cbn [firstOf]; [now left|].
  destruct (substantial (clean t)) eqn:E.
  - right. exists t. split; [now left | now split].
  - destruct IH as [H | (u & Hin & Hs & H)]; [now left|].
    right. exists u. split; [now right | now split].
Qed.

Lemma fallback_cases (parent : option Parent) :
  fallback parent = noLabel
  \/ exists p, parent = Some p /\ fallback parent = clean (parentText p)
               /\ clean (parentText p) <> "".
Proof.
  destruct parent as [p|]; [|now left]. unfold fallback.
  destruct (clean (parentText p)) as [|a txt] eqn:E; [now left|].
  right. exists p. rewrite E. split; [reflexivity|]. split; [reflexivity | discriminate].
Qed.

(** X24: getLabel, content.js:135.  It throws exactly when the enclosing label
    gives no cleaned text longer than three characters and the lookup of the
    label for the id throws.  A label it returns is never empty and is
    trimmed.  It is "(no label)" or the cleaned text of one of the elements
    around the radio; a cleaned text of three characters or fewer is passed
    over at every step but the last, so such a short label can only be the
    whole text of the parent element.  The enclosing label wins whenever its
    cleaned text is longer than three characters. *)
Theorem getLabel_returns_a_cleaned_text (radio : Surroundings) :
  (getLabel radio = Abrupt
   <-> labelFor radio = Abrupt
       /\ forall t, closestLabel radio = Some t -> substantial (clean t) = false)
  /\ (forall t, closestLabel radio = Some t -> substantial (clean t) = true ->
                getLabel radio = Normal (clean t))
  /\ forall r, getLabel radio = Normal r ->
       r <> ""
       /\ trim r = r
       /\ (r = noLabel \/ exists t, In t (textsRead radio) /\ r = clean t)
       /\ ((String.length r <= 3)%nat ->
           exists parent, parentElement radio = Some parent /\ r = clean (parentText parent)).
Proof.
  set (Good := fun r : string =>
    r <> ""
    /\ trim r = r
    /\ (r = noLabel \/ exists t, In t (textsRead radio) /\ r = clean t)
    /\ ((String.length r <= 3)%nat ->
        exists parent, parentElement radio = Some parent /\ r = clean (parentText parent))).
  assert (Hsub : forall t, In t (textsRead radio) -> substantial (clean t) = true ->
                           Good (clean t)).
  { intros t Hin Hs. split; [now apply substantial_nonempty|].
    split; [apply clean_trimmed|]. split; [right; now exists t|].
    intros Hl. unfold substantial in Hs. apply Nat.ltb_lt in Hs. lia. }
  assert (Hfb : Good (fallback (parentElement radio))).
  { destruct (fallback_cases (parentElement radio)) as [-> | (p & Hp & -> & Hne)].
    - split; [discriminate|]. split; [reflexivity|]. split; [now left|].
      cbn. lia.
    - split; [exact Hne|]. split; [apply clean_trimmed|]. split.
      + right. exists (parentText p). split; [|reflexivity].
        unfold textsRead. rewrite Hp. rewrite !in_app_iff. do 3 right.
        right. right. now left.
      + intros _. now exists p. }
  assert (Hsib : Good (fromSiblings radio)).
  { unfold fromSiblings.
    destruct (orNext_cases (nextElementSibling radio)
                match parentElement radio with
                | Some parent =>
                    firstOf (siblings parent)
                      match grandparent parent with
                      | Some children =>
                          firstOf (withoutInputs children) (fallback (Some parent))
                      | None => fallback (Some parent)
                      end
                | None => fallback None
                end) as [-> | (t & Ht & Hs & ->)].
    2:{ apply Hsub; [|exact Hs]. unfold textsRead. rewrite Ht, !in_app_iff.
        right. right. left. now left. }
    destruct (parentElement radio) as [p|] eqn:Hp; [|exact Hfb].
    destruct (firstOf_cases (siblings p)
                match grandparent p with
                | Some children => firstOf (withoutInputs children) (fallback (Some p))
                | None => fallback (Some p)
                end) as [-> | (t & Ht & Hs & ->)].
    2:{ apply Hsub; [|exact Hs]. unfold textsRead. rewrite Hp, !in_app_iff.
        do 3 right. now left. }
    destruct (grandparent p) as [children|] eqn:Hg; [|exact Hfb].
    destruct (firstOf_cases (withoutInputs children) (fallback (Some p)))
      as [-> | (t & Ht & Hs & ->)]; [exact Hfb|].
    apply Hsub; [|exact Hs]. unfold textsRead. rewrite Hp, Hg, !in_app_iff.
    do 3 right. right. now left. }
  assert (Hfor : forall r, fromLabelFor radio = Normal r -> Good r).
  { unfold fromLabelFor. destruct (labelFor radio) as [lbl|] eqn:Hl; [|discriminate].
    intros r [= <-].
    destruct (orNext_cases lbl (fromSiblings radio)) as [-> | (t & -> & Hs & ->)];
      [exact Hsib|].
    apply Hsub; [|exact Hs]. unfold textsRead. rewrite Hl, !in_app_iff.
    right. left. now left. }
  assert (Hthrow : fromLabelFor radio = Abrupt <-> labelFor radio = Abrupt).
  { unfold fromLabelFor. destruct (labelFor radio); split; congruence. }
  unfold getLabel. destruct (closestLabel radio) as [t|] eqn:Hc.
  - destruct (substantial (clean t)) eqn:Hs.
    + split; [split; [discriminate|]|split].
      * intros [_ H]. specialize (H t eq_refl). congruence.
      * intros t' [= <-] _. reflexivity.
      * intros r [= <-]. apply Hsub; [|exact Hs]. unfold textsRead. rewrite Hc.
        now left.
    + split; [rewrite Hthrow; split|split].
      * intros H. split; [exact H|]. now intros t' [= <-].
      * now intros [H _].
      * intros t' [= <-] H. congruence.
      * exact Hfor.
  - split; [rewrite Hthrow; split|split].
    + intros H. split; [exact H | discriminate].
    + now intros [H _].
    + discriminate.
    + exact Hfor.
Qed.

(** The label of the option "A." + no-break space + "Mitochondria" is
    "Mitochondria"; an id with a quote makes the function throw unless the
    enclosing label has given the text. *)
Example getLabel_on_a_no_break_space_and_a_quoted_id :
  let text := "A." ++ String "160" "Mitochondria" in
  getLabel (mkSurroundings (Some text) (Normal None) None None) = Normal "Mitochondria"
  /\ getLabel (mkSurroundings (Some text) Abrupt None None) = Normal "Mitochondria"
  /\ getLabel (mkSurroundings (Some "B.") Abrupt (Some "B. Ribosome") None) = Abrupt
  /\ getLabel (mkSurroundings None (Normal None) (Some "B. Ribosome") None)
     = Normal "Ribosome".
Proof. cbv zeta. repeat split; vm_compute; reflexivity. Qed.

(** X25: clean, content.js:136, and the prompt of background.js:26.  clean removes
    one leading option letter with its dot, in either case, and the white
    space around what is left; so it undoes exactly the prefix the worker puts
    before the first six options, and leaves the numbered lines after them as
    they are, trimmed. *)
Theorem clean_removes_the_letter_the_prompt_adds (i : nat) (o : string) :
  clean (label i ++ ". " ++ o)
    = (if (i <? 6)%nat then trim o else trim (label i ++ ". " ++ o))
  /\ (forall c rest, isOptionLetter c = true ->
                     clean (String c (String "." rest)) = trim rest)
  /\ (forall c rest, isOptionLetter c = false -> isSpace c = false ->
                     clean (String c rest) = trim (String c rest)).
Proof.
  split; [|split; [exact clean_letter | exact clean_other]].
  assert (Hsp : forall s, trim (String " " s) = trim s).
  { intros s. unfold trim. reflexivity. }
  do 6 (destruct i as [|i];
        [cbn [label nth_error Background.letters Nat.ltb Nat.leb append];
         rewrite clean_letter by reflexivity; apply Hsp|]).
  unfold label. cbn [nth_error Background.letters Nat.ltb Nat.leb].
  replace (nth_error (@nil string) i) with (@None string) by now destruct i.
  unfold decimal. generalize (Nat.to_uint (S (S (S (S (S (S i))))))). intros d.
  destruct d; cbn [NilEmpty.string_of_uint append]; now apply clean_other.
Qed.

(** The white space clean removes includes the no-break space. *)
Example clean_with_no_break_spaces :
  clean ("A." ++ String "160" "Mitochondria" ++ String "160" "") = "Mitochondria"
  /\ clean (String "160" "b. Ribosome") = "Ribosome".
Proof. split; vm_compute; reflexivity. Qed.

End OptionLabelFacts.

(* ------------------------------------------------------------------------- *)
(** ** The stored key *)

Module OptionsFacts.
Import JsText Options QuestionTextFacts.
Local Open Scope string_scope.







(** An input of no-break spaces only is blank. *)
Example blank_input_of_no_break_spaces :
  onSave (Some "sk-old") (String "160" (String "160" "")) = (Some "sk-old", pleaseEnter)
  /\ onSave None (String "160" "sk-new ") = (Some "sk-new", savedOk).
Proof. split; vm_compute; reflexivity. Qed.

End OptionsFacts.

(* ------------------------------------------------------------------------- *)
(** ** The patched attachShadow *)

Module ShadowPatchFacts.
Import Dom Background ShadowPatch DeepFind DeepFindMore.
Local Open Scope string_scope.




(** A page that asks for a closed root on a div gets an open one; a second
    call on the same host throws, as the original does. *)
Example closed_request_gets_an_open_root :
  let host := Elem "div" [] None (Px 10) (Px 10) [] None in
  let closed := Some (fun key => if String.eqb key "mode" then Some (JStr "closed") else None) in
  let content := [Text "inside"] in
  original true closed host content = Normal host
  /\ attachShadow true closed host content
     = Normal (Elem "div" [] None (Px 10) (Px 10) [] (Some content))
  /\ attachShadow true closed (Elem "div" [] None (Px 10) (Px 10) [] (Some content)) content
     = Abrupt
  /\ attachShadow false closed host content = Abrupt.
Proof. cbv zeta. repeat split; vm_compute; reflexivity. Qed.

End ShadowPatchFacts.

(* ------------------------------------------------------------------------- *)
(** ** What a pass hands to solveOneQuestion *)

Module PassFacts.
Import Program Dom Solver Grouping Orchestrator GroupingFacts OrchestratorFacts
       QuestionText CheckAnswer.

Lemma groupByName_nonempty (radios : list Radio) (groups : list (list Radio)) :
  groupByName radios = Normal groups -> Forall (fun g => g <> []) groups.
Proof.
  unfold groupByName, groupBy.
  destruct (collect keyOf radios []) as [g|] eqn:E; [|discriminate].
  intros [= <-].
  pose proof (collect_Collected keyOf radios [] [] g (Collected_nil keyOf) E) as Hc.
  apply Forall_forall. intros v Hin. apply in_map_iff in Hin.
  destruct Hin as [[k v'] [<- Hin]].
  now destruct (group_is_filter _ _ _ Hc k v' Hin).
Qed.

Lemma numbered_groups (groups : list (list Radio)) (i : nat) :
  map fst (numbered groups i) = groups.
Proof.
  revert i. induction groups as [|g rest IH]; intros i; [reflexivity|].
  cbn. now rewrite IH.
Qed.

(** X28: solveInThisFrame, groupByName and the functions that read radios[0].
    Every group a pass hands to solveOneQuestion is one of the groups of
    groupByName for the radios scanned, and none is empty; so neither
    getQuestionText nor findCheckAnswerBtn, which throw on an empty array,
    throws for that reason inside a pass. *)
Theorem a_pass_never_asks_about_an_empty_group
    {W : Type} (h : Handler PageCall W) (isTop : bool) (w : W) :
  let t := trace (run h (solveInThisFrame isTop false) w) in
  Forall (fun q =>
            let group := fst (fst q) in
            group <> []
            /\ (exists radios groups,
                  scans t = [radios] /\ groupByName radios = Normal groups
                  /\ In group groups)
            /\ (exists text, getQuestionText (map control group) = Normal text)
            /\ (forall (placed : list Placed) document,
                  List.length placed = List.length group ->
                  exists btn, findCheckAnswerBtn placed document = Normal btn))
         (questions t).
Proof.
  cbv zeta.
  destruct (solveInThisFrame_run h isTop w) as (w1 & Ht & _). cbv zeta in Ht.
  destruct (tryBlock_run h w1) as (_ & radios & Hs & H). cbv zeta in H.
  set (b := run h tryBlock w1) in *.
  assert (Hq : questions (trace (run h (solveInThisFrame isTop false) w))
               = questions (trace b)).
  { rewrite Ht. change (Ev (setRunning true) tt :: ?l) with ([Ev (setRunning true) tt] ++ l).
    unfold questions. rewrite !flat_map_app. destruct isTop; cbn; now rewrite app_nil_r. }
  assert (Hsc : scans (trace (run h (solveInThisFrame isTop false) w))
               = scans (trace b)).
  { rewrite Ht. change (Ev (setRunning true) tt :: ?l) with ([Ev (setRunning true) tt] ++ l).
    unfold scans. rewrite !flat_map_app. destruct isTop; cbn; now rewrite app_nil_r. }
  rewrite Hq, Hsc. apply Forall_forall. intros q Hin.
  destruct radios as [|r0 radios].
  { destruct H as (_ & Hno & _). rewrite Hno in Hin. destruct Hin. }
  destruct (groupByName (r0 :: radios)) as [groups|] eqn:Eg.
  2:{ destruct H as (_ & Hno & _). rewrite Hno in Hin. destruct Hin. }
  destruct H as ([later Hl] & _).
  assert (Hg : In (fst (fst q)) groups).
  { rewrite <- (numbered_groups groups 0), Hl, map_app, in_app_iff. left.
    rewrite map_map. apply in_map_iff. now exists q. }
  pose proof (groupByName_nonempty _ _ Eg) as Hne.
  rewrite Forall_forall in Hne. specialize (Hne _ Hg).
  split; [exact Hne|]. split; [exists (r0 :: radios), groups; now repeat split|].
  destruct (fst (fst q)) as [|r g] eqn:Egq; [congruence|]. split.
  - cbn [map getQuestionText]. eexists. reflexivity.
  - intros placed document Hlen. destruct placed as [|p ps]; [discriminate|].
    cbn [findCheckAnswerBtn]. eexists. reflexivity.
Qed.

End PassFacts.

(* ------------------------------------------------------------------------- *)
(** ** From the stored key to the order of the trials *)

Module WorkerFacts.
Import JsText Background Prompt Options Worker Solver SolveOne BackgroundFacts.
Local Open Scope string_scope.

(** X29: The askAI handler of background.js:16-71 with askAI and solveOneQuestion
    of content.js.  Whatever the storage and the network give, the handler
    answers with an object and askAI resolves to one.  Without a stored key
    no request is made; without a key, and on every response that is not ok,
    askAI flags the failure with index 0, so a group of n >= 1 options is tried
    in the order 0, 1, ..., n-1.  In every case the option tried first is one
    of the first six. *)
Theorem without_a_key_the_options_are_tried_in_order
    (store : Store) (fetched : Fetched) (message : option string)
    (question : string) (options : list string) :
  exists r,
    askAI_callback (Delivered (Some (askAIHandler store fetched message))) = Some r
    /\ (keyFor store = None -> apiRequest store question options = None)
    /\ (keyFor store = None \/ (exists status text, fetched = refused status text) ->
        error r = true
        /\ forall n, (1 <= n)%nat -> trialOrder n (aiChoiceOf n (index r)) = indices n)
    /\ (forall n, (aiChoiceOf n (index r) <= 5)%Z).
Proof.
  unfold askAIHandler, apiRequest.
  assert (H0 : forall n, (1 <= n)%nat -> trialOrder n (aiChoiceOf n (Some (Num 0))) = indices n).
  { intros n Hn. unfold aiChoiceOf. cbn [indexOrZero].
    replace (Z.min (Z.max 0 0) (Z.of_nat n - 1)) with 0%Z by lia.
    now apply trialOrder_from_zero. }
  assert (H5 : forall n, (aiChoiceOf n (Some (Num 0)) <= 5)%Z).
  { intros n. unfold aiChoiceOf. cbn [indexOrZero]. lia. }
  assert (HN : forall n, (aiChoiceOf n None <= 5)%Z).
  { intros n. unfold aiChoiceOf. cbn [indexOrZero]. lia. }
  destruct (keyFor store) as [key|] eqn:Ek.
  - destruct fetched as [|status text|data].
    + destruct message as [[|c m]|]; cbn; eexists; (split; [reflexivity|]);
        (split; [discriminate|]); cbn [index error];
        (split; [|auto]); intros [H | (s & t & H)]; discriminate.
    + cbn. eexists. split; [reflexivity|]. split; [discriminate|]. cbn [index error].
      split; [|exact H5]. intros _. split; [reflexivity | exact H0].
    + unfold askAI_respond. destruct (rawOf data) as [raw|].
      * cbn. eexists. split; [reflexivity|]. split; [discriminate|]. cbn [index error].
        split; [intros [H | (s & t & H)]; discriminate|].
        intros n. unfold aiChoiceOf. cbn [indexOrZero].
        rewrite indexOfRaw_firstLetterIndex.
        pose proof (firstLetterIndex_range raw). lia.
      * destruct message as [[|c m]|]; cbn; eexists; (split; [reflexivity|]);
          (split; [discriminate|]); cbn [index error];
          (split; [|auto]); intros [H | (s & t & H)]; discriminate.
  - cbn. eexists. split; [reflexivity|]. split; [reflexivity|]. cbn [index error].
    split; [|exact H5]. intros _. split; [reflexivity | exact H0].
Qed.

End WorkerFacts.
